(** * BEE (Bus Encryption Engine) image protection: a shallow embedding of
    [spsdk/image/bee.py] and the properties of its binary codecs, its
    block-encryption dispatch and its multi-engine configuration. *)

From Stdlib Require Import ZArith List Lia Bool.
From Stdlib Require Import Init.Byte.
From Stdlib Require Strings.Byte.
From stdpp Require Import base list strings.

Local Open Scope Z_scope.

(** ** Bytes *)

Abbreviation bytes := (list byte).

#[global] Instance byte_eq_dec : EqDecision byte := Strings.Byte.byte_eq_dec.

Definition byte_to_Z (b : byte) : Z := Z.of_N (Strings.Byte.to_N b).

Definition byte_of_Z (z : Z) : byte :=
  match Strings.Byte.of_N (Z.to_N (z mod 256)) with
  | Some b => b
  | None => x00
  end.

(** [data[lo:hi]] for non-negative bounds. *)
Definition slice (lo hi : nat) (data : bytes) : bytes :=
  take (hi - lo) (drop lo data).

Definition zeros (n : nat) : bytes := replicate n x00.

(** [int.to_bytes] / [int.from_bytes] in the two byte orders. *)
Inductive byteorder := LittleEndian | BigEndian.

Fixpoint le_split (n : nat) (z : Z) : bytes :=
  match n with
  | O => []
  | S n' => byte_of_Z z :: le_split n' (z / 256)
  end.

Fixpoint le_combine (l : bytes) : Z :=
  match l with
  | [] => 0
  | b :: l' => byte_to_Z b + 256 * le_combine l'
  end.

Definition int_to_bytes (o : byteorder) (n : nat) (z : Z) : bytes :=
  match o with
  | LittleEndian => le_split n z
  | BigEndian => reverse (le_split n z)
  end.

Definition int_from_bytes (o : byteorder) (l : bytes) : Z :=
  match o with
  | LittleEndian => le_combine l
  | BigEndian => le_combine (reverse l)
  end.

(** ** Exceptions and the error monad *)

(** The exceptions the module can raise.  [SPSDKError] carries the constant
    message of its raise site; the message of [SPSDKOverlapError] is a
    formatted string and is left out. *)
Inductive exn :=
| SPSDKError (msg : string)
| SPSDKOverlapError
| struct_error
| IndexError.
Arguments SPSDKError msg%_string.

Inductive result (A : Type) :=
| Ok (a : A)
| Err (e : exn).
Arguments Ok {A} a.
Arguments Err {A} e.

#[global] Instance result_ret : MRet result := @Ok.
#[global] Instance result_bind : MBind result := fun A B f m =>
  match m with
  | Ok a => f a
  | Err e => Err e
  end.

(** [raise_if c e]: the statement [if c: raise e]. *)
Definition raise_if (c : bool) (e : exn) : result unit :=
  if c then Err e else Ok tt.

(** ** The [struct] module: [calcsize], [pack], [unpack_from] *)

Module Struct.

(** Format characters used by the module: [I] (unsigned 32-bit, [fmt_I])
    and [<n>s] (byte string of length [n], [fmt_s n]). *)
Inductive item := fmt_I | fmt_s (n : nat).

Record format := Format { order : byteorder; items : list item }.

Inductive value := VInt (z : Z) | VBytes (b : bytes).

Definition item_size (i : item) : nat :=
  match i with
  | fmt_I => 4
  | fmt_s n => n
  end.

Definition calcsize_items (l : list item) : nat :=
  foldr (fun i acc => (item_size i + acc)%nat) 0%nat l.

Definition calcsize (f : format) : nat := calcsize_items (items f).

(** A byte string shorter than the field is padded with zero bytes, a
    longer one is truncated; an integer outside the 32-bit range raises
    [struct.error], as does a value of the wrong kind or count. *)
Fixpoint pack_items (o : byteorder) (l : list item) (vs : list value)
  : result bytes :=
  match l, vs with
  | [], [] => Ok []
  | fmt_I :: l', VInt z :: vs' =>
      if (0 <=? z) && (z <=? 0xFFFFFFFF) then
        rest ← pack_items o l' vs';
        Ok (int_to_bytes o 4 z ++ rest)
      else Err struct_error
  | fmt_s n :: l', VBytes b :: vs' =>
      rest ← pack_items o l' vs';
      Ok (take n b ++ zeros (n - length b) ++ rest)
  | _, _ => Err struct_error
  end.

Definition pack (f : format) (vs : list value) : result bytes :=
  pack_items (order f) (items f) vs.

Fixpoint unpack_items (o : byteorder) (l : list item) (data : bytes)
  : list value :=
  match l with
  | [] => []
  | fmt_I :: l' =>
      VInt (int_from_bytes o (take 4 data)) :: unpack_items o l' (drop 4 data)
  | fmt_s n :: l' =>
      VBytes (take n data) :: unpack_items o l' (drop n data)
  end.

Definition unpack_from (f : format) (data : bytes) (offset : nat)
  : result (list value) :=
  if Z.of_nat (length data) - Z.of_nat offset <? Z.of_nat (calcsize f)
  then Err struct_error
  else Ok (unpack_items (order f) (items f) (drop offset data)).

End Struct.
Import Struct.

(** ** Collaborators outside [bee.py] *)

(** The cryptographic provider ([Crypto.Cipher.AES] and [crypto_backend()]).
    Keys, initialisation vectors and nonces are byte strings; the argument
    order follows the calls in the source. *)
Class CryptoBackend := {
  aes_ecb_encrypt : bytes -> bytes -> bytes;          (* key, data *)
  aes_ecb_decrypt : bytes -> bytes -> bytes;
  aes_cbc_encrypt : bytes -> bytes -> bytes -> bytes; (* key, iv, data *)
  aes_cbc_decrypt : bytes -> bytes -> bytes -> bytes;
  aes_ctr_encrypt : bytes -> bytes -> bytes -> bytes  (* key, data, nonce *)
}.

(** What the development relies on about the provider, for 16-byte keys,
    initialisation vectors and nonces: decryption inverts encryption and
    ciphertexts are as long as plaintexts (of whole AES blocks for ECB and
    CBC), and CTR mode, a stream cipher, maps different plaintexts of one
    length to different ciphertexts. *)
Class CryptoBackendLaws (cb : CryptoBackend) : Prop := {
  ecb_decrypt_encrypt : forall k d,
    length k = 16%nat -> (length d mod 16 = 0)%nat ->
    aes_ecb_decrypt k (aes_ecb_encrypt k d) = d;
  ecb_encrypt_length : forall k d,
    length k = 16%nat -> (length d mod 16 = 0)%nat ->
    length (aes_ecb_encrypt k d) = length d;
  cbc_decrypt_encrypt : forall k iv d,
    length k = 16%nat -> length iv = 16%nat -> (length d mod 16 = 0)%nat ->
    aes_cbc_decrypt k iv (aes_cbc_encrypt k iv d) = d;
  cbc_encrypt_length : forall k iv d,
    length k = 16%nat -> length iv = 16%nat -> (length d mod 16 = 0)%nat ->
    length (aes_cbc_encrypt k iv d) = length d;
  ctr_encrypt_length : forall k d n,
    length k = 16%nat -> length n = 16%nat ->
    length (aes_ctr_encrypt k d n) = length d;
  ctr_encrypt_inj : forall k n d d',
    length k = 16%nat -> length n = 16%nat -> length d = length d' ->
    aes_ctr_encrypt k d n = aes_ctr_encrypt k d' n -> d = d'
}.

(** The random-byte source: a tape of bytes of which every call consumes a
    prefix. *)
Definition rng := nat -> byte.

Definition random_bytes (n : nat) (g : rng) : bytes * rng :=
  (map g (seq 0 n), fun i => g (n + i)%nat).

(** Modelled from the spec: [extend_block] of [spsdk.utils.misc]; it pads
    the data with zero bytes up to the requested total length ("zero-padded
    to 256 bytes total").  The spec does not say what happens to data
    already longer than the target; the exports below never produce such
    data. *)
Definition extend_block (data : bytes) (len : nat) : bytes :=
  data ++ zeros (len - length data).

(** Modelled from the spec: [align_block_fill_random] of [spsdk.utils.misc];
    it pads the block with random bytes up to the next boundary of the
    given alignment, and leaves an aligned block alone. *)
Definition align_block_fill_random (data : bytes) (alignment : nat) (g : rng)
  : bytes * rng :=
  let num_padding := ((alignment - length data mod alignment) mod alignment)%nat in
  if (num_padding =? 0)%nat then (data, g)
  else let '(pad, g') := random_bytes num_padding g in (data ++ pad, g').

(** Modelled from the spec: [split_data] of [spsdk.utils.misc]; it yields
    the consecutive windows of [size] bytes of the data, the last of which
    may be shorter. *)
Definition split_data (data : bytes) (size : nat) : list bytes :=
  map (fun i => take size (drop (i * size) data))
      (seq 0 ((length data + size - 1) / size)).

(** Modelled from the spec: the [Counter] class of [spsdk.utils.crypto];
    the value is the 16-byte counter field with its low-order 32 bits, in
    the given byte order, replaced by the counter value. *)
Definition Counter_value (nonce : bytes) (ctr_value : Z)
  (ctr_byteorder_encoding : byteorder) : bytes :=
  take 12 nonce ++ int_to_bytes ctr_byteorder_encoding 4 ctr_value.

(** ** Constants *)

(** maximal size of encrypted block in bytes *)
Definition BEE_ENCR_BLOCK_SIZE : Z := 0x400.
(** mask of the bits in the address, that must be zero *)
Definition _ENCR_BLOCK_ADDR_MASK : Z := BEE_ENCR_BLOCK_SIZE - 1.

(** [BeeBaseClass.parse]: the size check shared by all the parsers. *)
Definition BeeBaseClass_parse (size : nat) (data : bytes) (offset : nat)
  : result unit :=
  raise_if (Z.of_nat (length data) - Z.of_nat offset <? Z.of_nat size)
           (SPSDKError "Insufficient size of the data").

(** ** BeeFacRegion *)

Module BeeFacRegion.

Record t := mk {
  start_addr : Z;
  length : Z;
  protected_level : Z
}.

Definition _FORMAT : Struct.format :=
  Format LittleEndian [fmt_I; fmt_I; fmt_I; fmt_s 20].   (* "<3I20s" *)

Definition _size : nat := calcsize _FORMAT.

Definition end_addr (self : t) : Z := start_addr self + length self.

Definition validate (self : t) : result unit :=
  _ ← raise_if (negb (Z.land (start_addr self) _ENCR_BLOCK_ADDR_MASK =? 0)
                && negb (Z.land (length self) _ENCR_BLOCK_ADDR_MASK =? 0))
               (SPSDKError "Invalid configuration of the instance");
  _ ← raise_if ((protected_level self <? 0) || (protected_level self >? 3))
               (SPSDKError "Invalid protected level");
  raise_if ((start_addr self <? 0) || (end_addr self >? 0xFFFFFFFF)
            || (start_addr self >=? end_addr self))
           (SPSDKError "Invalid start/end address").

(** [__init__]: the constructor validates immediately. *)
Definition init (start len level : Z) : result t :=
  let self := mk start len level in
  _ ← validate self;
  Ok self.

(** [export]: the inherited part runs [update] (which does nothing for
    this class) and [validate]. *)
Definition export (self : t) : result bytes :=
  _ ← validate self;
  pack _FORMAT [VInt (start_addr self); VInt (end_addr self);
                VInt (protected_level self); VBytes (zeros 20)].

Definition parse (data : bytes) (offset : nat) : result t :=
  _ ← BeeBaseClass_parse _size data offset;
  fields ← unpack_from _FORMAT data offset;
  match fields with
  | [VInt start; VInt end_; VInt level; VBytes _reserved] =>
      _ ← raise_if (negb (bool_decide (_reserved = zeros 20)))
                   (SPSDKError "Reserved area is non-zero");
      init start (end_ - start) level
  | _ => Err struct_error
  end.

End BeeFacRegion.

(** ** BeeProtectRegionBlock (PRDB) *)

(** AES mode selection for BEE PRDB encryption; the members of the
    enumeration are plain integers. *)
Module BeeProtectRegionBlockAesMode.
Definition ECB : Z := 0.
Definition CTR : Z := 1.
End BeeProtectRegionBlockAesMode.

(** Truth value of an optional byte string: [None] and [b""] are false. *)
Definition truthy (b : option bytes) : bool :=
  match b with
  | Some (_ :: _) => true
  | _ => false
  end.

Module BeeProtectRegionBlock.
Import BeeProtectRegionBlockAesMode.

Record t := mk {
  _start_addr : Z;
  _end_addr : Z;
  mode : Z;
  lock_options : Z;
  counter : bytes;
  fac_regions : list BeeFacRegion.t
}.

Definition _FORMAT : Struct.format :=                    (* "<8I16s32s" *)
  Format LittleEndian [fmt_I; fmt_I; fmt_I; fmt_I; fmt_I; fmt_I; fmt_I; fmt_I;
                       fmt_s 16; fmt_s 32].
(** low TAG used in the header *)
Definition TAGL : Z := 0x5F474154.
(** high TAG used in the header *)
Definition TAGH : Z := 0x52444845.
(** version of the format *)
Definition VERSION : Z := 0x56010000.
(** number of FAC regions included in the header *)
Definition FAC_REGIONS : nat := 4.
(** total size *)
Definition SIZE : nat := 0x100.

Definition _size : nat := SIZE.

Definition init (encr_mode lock_options : Z) (counter : option bytes) (g : rng)
  : t * rng :=
  let '(c, g') :=
    if truthy counter then (default [] counter, g)
    else let '(r, g') := random_bytes 12 g in (r ++ zeros 4, g') in
  (mk 0 0xFFFFFFFF encr_mode lock_options c [], g').

Definition fac_count (self : t) : nat := length (fac_regions self).

(** Updates start and end address of the encryption region. *)
Definition update (self : t) : t :=
  let min_addr := if (fac_count self =? 0)%nat then 0 else 0xFFFFFFFF in
  let max_addr := 0 in
  let min_addr :=
    fold_left (fun m fac => Z.min m (BeeFacRegion.start_addr fac))
              (fac_regions self) min_addr in
  let max_addr :=
    fold_left (fun m fac => Z.max m (BeeFacRegion.end_addr fac))
              (fac_regions self) max_addr in
  mk min_addr max_addr (mode self) (lock_options self) (counter self)
     (fac_regions self).

Definition add_fac (self : t) (fac : BeeFacRegion.t) : t :=
  update (mk (_start_addr self) (_end_addr self) (mode self)
             (lock_options self) (counter self) (fac_regions self ++ [fac])).

(** [for fac in self.fac_regions: fac.validate()] *)
Fixpoint validate_facs (facs : list BeeFacRegion.t) : result unit :=
  match facs with
  | [] => Ok tt
  | fac :: rest => _ ← BeeFacRegion.validate fac; validate_facs rest
  end.

Definition validate (self : t) : result unit :=
  _ ← raise_if ((_start_addr self <? 0) || (_start_addr self >? 0xFFFFFFFF))
               (SPSDKError "Invalid start address");
  _ ← raise_if ((_start_addr self >? _end_addr self)
                || (_end_addr self >? 0xFFFFFFFF))
               (SPSDKError "Invalid start/end address");
  _ ← raise_if (negb (mode self =? CTR))
               (SPSDKError "Only AES/CTR encryption mode supported now");
  _ ← raise_if (negb (length (counter self) =? 16)%nat)
               (SPSDKError "Invalid counter");
  _ ← raise_if (negb (bool_decide
                  (drop (length (counter self) - 4) (counter self) = zeros 4)))
               (SPSDKError "last four bytes must be zero");
  _ ← raise_if ((fac_count self <=? 0)%nat || (FAC_REGIONS <? fac_count self)%nat)
               (SPSDKError "Invalid FAC regions");
  validate_facs (fac_regions self).

(** [for fac in self.fac_regions: result += fac.export()] *)
Fixpoint export_facs (res : bytes) (facs : list BeeFacRegion.t)
  : result bytes :=
  match facs with
  | [] => Ok res
  | fac :: rest => b ← BeeFacRegion.export fac; export_facs (res ++ b) rest
  end.

(** [export] updates the object in place before it validates and packs it;
    the updated object is returned next to the bytes. *)
Definition export (self : t) : t * result bytes :=
  let self := update self in
  (self,
   _ ← validate self;
   res ← pack _FORMAT
         [VInt TAGL; VInt TAGH; VInt VERSION; VInt (Z.of_nat (fac_count self));
          VInt (_start_addr self); VInt (_end_addr self); VInt (mode self);
          VInt (lock_options self);
          VBytes (reverse (counter self));  (* bytes swapped: reversed order *)
          VBytes (zeros 32)];
   res ← export_facs res (fac_regions self);
   Ok (extend_block res SIZE)).

(** [for _ in range(fac_count): ...] of [parse] *)
Fixpoint parse_facs (n : nat) (data : bytes) (offset : nat) (res : t)
  : result t :=
  match n with
  | O => Ok res
  | S n' =>
      fac ← BeeFacRegion.parse data offset;
      parse_facs n' data (offset + BeeFacRegion._size)%nat (add_fac res fac)
  end.

Definition parse (data : bytes) (offset : nat) (g : rng) : result (t * rng) :=
  _ ← BeeBaseClass_parse _size data offset;
  fields ← unpack_from _FORMAT data offset;
  match fields with
  | [VInt tagl; VInt tagh; VInt version; VInt fac_count; VInt start_addr;
     VInt end_addr; VInt mode; VInt lock_options; VBytes counter;
     VBytes _reserved_32] =>
      _ ← raise_if (negb (tagl =? TAGL) || negb (tagh =? TAGH))
                   (SPSDKError "Invalid tag or unsupported version");
      _ ← raise_if (negb (version =? VERSION))
                   (SPSDKError "Unsupported version");
      _ ← raise_if (negb (bool_decide (_reserved_32 = zeros 32)))
                   (SPSDKError "Reserved area is non-zero");
      let '(res, g) := init mode lock_options (Some (reverse counter)) g in
      let res := mk start_addr end_addr (BeeProtectRegionBlock.mode res)
                    (BeeProtectRegionBlock.lock_options res)
                    (BeeProtectRegionBlock.counter res) (fac_regions res) in
      let offset := (offset + calcsize _FORMAT)%nat in
      res ← parse_facs (Z.to_nat fac_count) data offset res;
      _ ← validate res;
      Ok (res, g)
  | _ => Err struct_error
  end.

(** Returns true if the start address lies within any FAC region. *)
Definition is_inside_region (self : t) (start_addr : Z) : bool :=
  (_start_addr self <=? start_addr) && (start_addr <? _end_addr self).

Section Encrypt.
Context `{CryptoBackend}.

(** [for fac in self.fac_regions: ...] of [encrypt_block]; leaving the
    loop returns the data untouched. *)
Fixpoint encrypt_block_facs (self : t) (key : bytes) (start_addr : Z)
  (data : bytes) (g : rng) (facs : list BeeFacRegion.t)
  : result (bytes * rng) :=
  match facs with
  | [] => Ok (data, g)
  | fac :: rest =>
      if (BeeFacRegion.start_addr fac <=? start_addr)
         && (start_addr <? BeeFacRegion.end_addr fac)
      then
        _ ← raise_if (start_addr + Z.of_nat (length data)
                      >? BeeFacRegion.end_addr fac)
                     (SPSDKError "Invalid range of region");
        let cntr_key :=
          Counter_value (counter self) (Z.shiftr start_addr 4) BigEndian in
        (* align data to 16 bytes *)
        let '(data, g) := align_block_fill_random data 16 g in
        Ok (aes_ctr_encrypt key data cntr_key, g)
      else encrypt_block_facs self key start_addr data g rest
  end.

Definition encrypt_block (self : t) (key : bytes) (start_addr : Z)
  (data : bytes) (g : rng) : result (bytes * rng) :=
  _ ← raise_if (Z.of_nat (length data) >? BEE_ENCR_BLOCK_SIZE)
        (SPSDKError "Incorrect length of binary block to be encrypted");
  if is_inside_region self start_addr then
    _ ← raise_if (negb (mode self =? CTR))
                 (SPSDKError "only AES/CTR encryption mode supported now");
    _ ← raise_if (negb (length key =? 16)%nat)
                 (SPSDKError "Invalid length of key");
    encrypt_block_facs self key start_addr data g (fac_regions self)
  else Ok (data, g).
End Encrypt.

End BeeProtectRegionBlock.

(** ** BeeKIB *)

Module BeeKIB.

Record t := mk { kib_key : bytes; kib_iv : bytes }.

(** key length in bytes *)
Definition _KEY_LEN : nat := 16.
(** "16s16s": byte strings only, so byte order and alignment play no
    role. *)
Definition _FORMAT : Struct.format := Format LittleEndian [fmt_s 16; fmt_s 16].

Definition _size : nat := calcsize _FORMAT.

Definition init (kib_key kib_iv : option bytes) (g : rng) : t * rng :=
  let '(k, g) :=
    if truthy kib_key then (default [] kib_key, g) else random_bytes 16 g in
  let '(iv, g) :=
    if truthy kib_iv then (default [] kib_iv, g) else random_bytes 16 g in
  (mk k iv, g).

Definition validate (self : t) : result unit :=
  _ ← raise_if (negb (length (kib_key self) =? _KEY_LEN)%nat)
               (SPSDKError "Invalid length of kib key");
  raise_if (negb (length (kib_iv self) =? _KEY_LEN)%nat)
           (SPSDKError "Invalid length of kib iv").

Definition export (self : t) : result bytes :=
  _ ← validate self;
  pack _FORMAT [VBytes (kib_key self); VBytes (kib_iv self)].

Definition parse (data : bytes) (offset : nat) (g : rng) : result (t * rng) :=
  _ ← BeeBaseClass_parse _size data offset;
  fields ← unpack_from _FORMAT data offset;
  match fields with
  | [VBytes key; VBytes iv] =>
      let '(res, g) := init (Some key) (Some iv) g in
      _ ← validate res;
      Ok (res, g)
  | _ => Err struct_error
  end.

End BeeKIB.

(** ** BeeRegionHeader *)

Module BeeRegionHeader.

Record t := mk {
  _prdb : BeeProtectRegionBlock.t;
  _sw_key : bytes;
  _kib : BeeKIB.t
}.

(** offset of the Protected Region Block in the header *)
Definition PRDB_OFFSET : nat := 0x80.
(** total size including padding *)
Definition SIZE : nat := 0x200.

Definition _size : nat := SIZE.

Definition init (prdb : option BeeProtectRegionBlock.t) (sw_key : option bytes)
  (kib : option BeeKIB.t) (g : rng) : t * rng :=
  let '(p, g) :=
    match prdb with
    | Some p => (p, g)
    | None => BeeProtectRegionBlock.init BeeProtectRegionBlockAesMode.CTR 0 None g
    end in
  let '(k, g) :=
    match sw_key with
    | Some k => (k, g)
    | None => random_bytes 16 g
    end in
  let '(kb, g) :=
    match kib with
    | Some kb => (kb, g)
    | None => BeeKIB.init None None g
    end in
  (mk p k kb, g).

Definition add_fac (self : t) (fac : BeeFacRegion.t) : t :=
  mk (BeeProtectRegionBlock.add_fac (_prdb self) fac) (_sw_key self) (_kib self).

Definition fac_regions (self : t) : list BeeFacRegion.t :=
  BeeProtectRegionBlock.fac_regions (_prdb self).

(** [unpack_from(">I", ...)[0]] *)
Definition unpack_be_word (data : bytes) : result Z :=
  fields ← unpack_from (Format BigEndian [fmt_I]) data 0;
  match fields with
  | VInt v :: _ => Ok v
  | _ => Err struct_error
  end.

(** [for pos in range(16, 0, -4): result.append(...)] *)
Fixpoint sw_key_fuses_loop (sw_key : bytes) (positions : list nat)
  (res : list Z) : result (list Z) :=
  match positions with
  | [] => Ok res
  | pos :: rest =>
      v ← unpack_be_word (slice (pos - 4) pos sw_key);
      sw_key_fuses_loop sw_key rest (res ++ [v])
  end.

(** Sequence of fuse values for SW key to be burned into processor. *)
Definition sw_key_fuses (self : t) : result (list Z) :=
  sw_key_fuses_loop (_sw_key self) [16; 12; 8; 4]%nat [].

Definition update (self : t) : t :=
  mk (BeeProtectRegionBlock.update (_prdb self)) (_sw_key self) (_kib self).

Definition validate (self : t) : result unit :=
  _ ← BeeKIB.validate (_kib self);
  _ ← BeeProtectRegionBlock.validate (_prdb self);
  raise_if (negb (length (_sw_key self) =? 16)%nat)
           (SPSDKError "Invalid settings").

Definition is_inside_region (self : t) (start_addr : Z) : bool :=
  BeeProtectRegionBlock.is_inside_region (_prdb self) start_addr.

Section Crypto.
Context `{CryptoBackend}.

(** [export] updates the header (and again its PRDB when that is
    exported) in place; the updated header is returned next to the
    bytes. *)
Definition export (self : t) : t * result bytes :=
  let self := update self in
  match validate self with
  | Err e => (self, Err e)
  | Ok _ =>
      (* KIB *)
      match BeeKIB.export (_kib self) with
      | Err e => (self, Err e)
      | Ok kib_data =>
          let res := [] ++ aes_ecb_encrypt (_sw_key self) kib_data in
          (* padding *)
          let res := extend_block res PRDB_OFFSET in
          (* PRDB *)
          let '(prdb, r) := BeeProtectRegionBlock.export (_prdb self) in
          let self := mk prdb (_sw_key self) (_kib self) in
          match r with
          | Err e => (self, Err e)
          | Ok prdb_data =>
              let res :=
                res ++ aes_cbc_encrypt (BeeKIB.kib_key (_kib self))
                                       (BeeKIB.kib_iv (_kib self)) prdb_data in
              (* padding *)
              (self, Ok (extend_block res SIZE))
          end
      end
  end.

Definition parse (data : bytes) (offset : nat) (sw_key : bytes) (g : rng)
  : result (t * rng) :=
  _ ← BeeBaseClass_parse _size data offset;
  _ ← raise_if (negb (length sw_key =? 16)%nat) (SPSDKError "Invalid sw key");
  let decr_data :=
    aes_ecb_decrypt sw_key (slice offset (offset + BeeKIB._size) data) in
  '(kib, g) ← BeeKIB.parse decr_data 0 g;
  let decr_data :=
    aes_cbc_decrypt (BeeKIB.kib_key kib) (BeeKIB.kib_iv kib)
      (slice (offset + PRDB_OFFSET)
             (offset + PRDB_OFFSET + BeeProtectRegionBlock.SIZE) data) in
  '(prdb, g) ← BeeProtectRegionBlock.parse decr_data 0 g;
  let '(res, g) := init (Some prdb) (Some sw_key) (Some kib) g in
  _ ← validate res;
  Ok (res, g).

Definition encrypt_block (self : t) (start_addr : Z) (data : bytes) (g : rng)
  : result (bytes * rng) :=
  BeeProtectRegionBlock.encrypt_block (_prdb self) (_sw_key self)
                                      start_addr data g.
End Crypto.

End BeeRegionHeader.

(** ** BeeNxp *)

Module BeeNxp.

(** In [load_from_config] the headers built without a binary share one
    PRDB object, so a region added through one header shows in the
    others.  The PRDB objects live in a store and a header holds the
    reference of its PRDB. *)
Definition ref := nat.

Record store := Store {
  prdb_at : ref -> BeeProtectRegionBlock.t;
  next_ref : ref
}.

Definition alloc (p : BeeProtectRegionBlock.t) (st : store) : ref * store :=
  (next_ref st,
   Store (fun r => if (r =? next_ref st)%nat then p else prdb_at st r)
         (S (next_ref st))).

Definition store_set (r : ref) (p : BeeProtectRegionBlock.t) (st : store)
  : store :=
  Store (fun r' => if (r' =? r)%nat then p else prdb_at st r') (next_ref st).

(** A header object: a [BeeRegionHeader] whose [_prdb] is a reference. *)
Record header := Header {
  _prdb : ref;
  _sw_key : bytes;
  _kib : BeeKIB.t
}.

(** The header as a value, its PRDB read from the store. *)
Definition deref (st : store) (h : header) : BeeRegionHeader.t :=
  BeeRegionHeader.mk (prdb_at st (_prdb h)) (_sw_key h) (_kib h).

Definition fac_regions (st : store) (h : header) : list BeeFacRegion.t :=
  BeeRegionHeader.fac_regions (deref st h).

Record t := mk {
  objects : store;
  headers : list header;
  input_image : bytes;
  base_address : Z
}.

(** [for region in header.fac_regions: ...] of [check_overlaps] *)
Fixpoint check_overlaps_regions (regions : list BeeFacRegion.t) (start_addr : Z)
  : result unit :=
  match regions with
  | [] => Ok tt
  | region :: rest =>
      if (BeeFacRegion.start_addr region <=? start_addr)
         && (start_addr <? BeeFacRegion.end_addr region)
      then Err SPSDKOverlapError
      else check_overlaps_regions rest start_addr
  end.

(** Check for overlaps in regions. *)
Fixpoint check_overlaps (st : store) (bee_headers : list header) (start_addr : Z)
  : result unit :=
  match bee_headers with
  | [] => Ok tt
  | h :: rest =>
      _ ← check_overlaps_regions (fac_regions st h) start_addr;
      check_overlaps st rest start_addr
  end.

(** [bee_headers[engine_idx].add_fac(fac)] *)
Definition header_add_fac (st : store) (bee_headers : list header)
  (engine_idx : nat) (fac : BeeFacRegion.t) : result store :=
  match bee_headers !! engine_idx with
  | None => Err IndexError
  | Some h =>
      Ok (store_set (_prdb h)
                    (BeeProtectRegionBlock.add_fac (prdb_at st (_prdb h)) fac) st)
  end.

(** The two statements by which [load_from_config] registers a region:
    [check_overlaps(bee_headers, fac.start_addr)] and then
    [bee_headers[engine_idx].add_fac(fac)]. *)
Definition add_fac_region (st : store) (bee_headers : list header)
  (engine_idx : nat) (fac : BeeFacRegion.t) : result store :=
  _ ← check_overlaps st bee_headers (BeeFacRegion.start_addr fac);
  header_add_fac st bee_headers engine_idx fac.

Section Crypto.
Context `{CryptoBackend}.

(** [for header in self.headers: block = header.encrypt_block(...)] *)
Fixpoint encrypt_chain (hs : list BeeRegionHeader.t) (base_address : Z)
  (block : bytes) (g : rng) : result (bytes * rng) :=
  match hs with
  | [] => Ok (block, g)
  | h :: rest =>
      '(block, g) ← BeeRegionHeader.encrypt_block h base_address block g;
      encrypt_chain rest base_address block g
  end.

(** [for block in split_data(image_data, BEE_ENCR_BLOCK_SIZE): ...] *)
Fixpoint export_blocks (hs : list BeeRegionHeader.t) (blocks : list bytes)
  (base_address : Z) (encrypted_data : bytes) (g : rng)
  : result (bytes * rng) :=
  match blocks with
  | [] => Ok (encrypted_data, g)
  | block :: rest =>
      '(block, g) ← encrypt_chain hs base_address block g;
      export_blocks hs rest (base_address + Z.of_nat (length block))
                    (encrypted_data ++ block) g
  end.

(** Export encrypted binary image. *)
Definition export_image (self : t) (g : rng) : result (bytes * rng) :=
  export_blocks (map (deref (objects self)) (headers self))
                (split_data (input_image self) (Z.to_nat BEE_ENCR_BLOCK_SIZE))
                (base_address self) [] g.

(** The configuration, as delivered by the external loaders: integers
    and byte strings are already converted, and a [header_path] is
    replaced by the bytes of its file. *)
Inductive engine_selection := engine0 | engine1 | both.

Definition engine_selections (sel : engine_selection) : list nat :=
  match sel with
  | engine0 => [0]
  | engine1 => [1]
  | both => [0; 1]
  end%nat.

Record bee_engine := BeeEngine {
  user_key : bytes;
  header_path : option bytes;
  protected_region : list (Z * Z * Z)  (* start_address, length, protected_level *)
}.

Record config := Config {
  cfg_input_binary : bytes;
  cfg_engine_selection : engine_selection;
  cfg_bee_engine : list bee_engine;
  cfg_base_address : Z
}.

(** [for engine_idx in engine_selections[engine_selection]: ...]; the
    [IndexError] of a missing engine entry is turned into an
    [SPSDKError]. *)
Fixpoint load_headers (prdb : ref) (kib : BeeKIB.t)
  (bee_engines : list bee_engine) (idxs : list nat) (st : store)
  (bee_headers : list header) (g : rng)
  : result (store * list header * rng) :=
  match idxs with
  | [] => Ok (st, bee_headers, g)
  | engine_idx :: rest =>
      match bee_engines !! engine_idx with
      | None => Err (SPSDKError "The count of BEE engines is invalid")
      | Some engine =>
          let key := user_key engine in
          match header_path engine with
          | Some bin_ehdr =>
              '(ehdr, g) ← BeeRegionHeader.parse bin_ehdr 0 key g;
              let '(r, st) := alloc (BeeRegionHeader._prdb ehdr) st in
              load_headers prdb kib bee_engines rest st
                (bee_headers ++ [Header r (BeeRegionHeader._sw_key ehdr)
                                        (BeeRegionHeader._kib ehdr)]) g
          | None =>
              load_headers prdb kib bee_engines rest st
                (bee_headers ++ [Header prdb key kib]) g
          end
      end
  end.

(** [for protected_region in bee_engine.get("protected_region", []): ...] *)
Fixpoint load_regions (st : store) (bee_headers : list header)
  (engine_idx : nat) (regions : list (Z * Z * Z)) : result store :=
  match regions with
  | [] => Ok st
  | (start_address, len, level) :: rest =>
      fac ← BeeFacRegion.init start_address len level;
      st ← add_fac_region st bee_headers engine_idx fac;
      load_regions st bee_headers engine_idx rest
  end.

(** [for engine_idx, bee_engine in enumerate(bee_engines): ...] *)
Fixpoint load_engines (st : store) (bee_headers : list header)
  (engine_idx : nat) (bee_engines : list bee_engine) : result store :=
  match bee_engines with
  | [] => Ok st
  | engine :: rest =>
      st ← load_regions st bee_headers engine_idx (protected_region engine);
      load_engines st bee_headers (S engine_idx) rest
  end.

(** Converts the configuration into an BEE image object. *)
Definition load_from_config (cfg : config) (g : rng) : result (t * rng) :=
  let '(prdb, g) :=
    BeeProtectRegionBlock.init BeeProtectRegionBlockAesMode.CTR 0 None g in
  let '(kib, g) := BeeKIB.init None None g in
  let '(prdb, st) := alloc prdb (Store (fun _ => prdb) 0%nat) in
  '(st, bee_headers, g) ←
    load_headers prdb kib (cfg_bee_engine cfg)
      (engine_selections (cfg_engine_selection cfg)) st [] g;
  st ← load_engines st bee_headers 0 (cfg_bee_engine cfg);
  Ok (mk st bee_headers (cfg_input_binary cfg) (cfg_base_address cfg), g).

(** [for header in self.headers: headers.append(header.export())]; the
    export of a header updates its PRDB object in place, which every
    header that shares the object sees. *)
Fixpoint export_headers_loop (st : store) (hs : list header)
  (headers : list bytes) : result (store * list bytes) :=
  match hs with
  | [] => Ok (st, headers)
  | header :: rest =>
      let '(h', r) := BeeRegionHeader.export (deref st header) in
      data ← r;
      export_headers_loop
        (store_set (_prdb header) (BeeRegionHeader._prdb h') st) rest
        (headers ++ [data])
  end.

(** Export BEE headers. *)
Definition export_headers (self : t) : result (store * list bytes) :=
  export_headers_loop (objects self) (headers self) [].
End Crypto.

End BeeNxp.


(** ** A stand-in provider and concrete objects

    The provider below is not AES: it XORs the data with the key material.
    It obeys [CryptoBackendLaws] and serves to run the definitions on
    concrete inputs. *)

Module Toy.

Definition xorb8 (x y : bool * (bool * (bool * (bool * (bool * (bool * (bool * bool)))))))
  : bool * (bool * (bool * (bool * (bool * (bool * (bool * bool)))))) :=
  let '(x0, (x1, (x2, (x3, (x4, (x5, (x6, x7))))))) := x in
  let '(y0, (y1, (y2, (y3, (y4, (y5, (y6, y7))))))) := y in
  (xorb x0 y0, (xorb x1 y1, (xorb x2 y2, (xorb x3 y3,
   (xorb x4 y4, (xorb x5 y5, (xorb x6 y6, xorb x7 y7))))))).

Definition byte_xor (a b : byte) : byte :=
  Byte.of_bits (xorb8 (Byte.to_bits a) (Byte.to_bits b)).

(** XOR of the data with the key, byte by byte, as far as the key reaches. *)
Fixpoint xor_key (k d : bytes) : bytes :=
  match d, k with
  | b :: d', kb :: k' => byte_xor b kb :: xor_key k' d'
  | _, _ => d
  end.

#[export] Instance backend : CryptoBackend := {|
  aes_ecb_encrypt k d := xor_key k d;
  aes_ecb_decrypt k d := xor_key k d;
  aes_cbc_encrypt k iv d := xor_key iv (xor_key k d);
  aes_cbc_decrypt k iv d := xor_key k (xor_key iv d);
  aes_ctr_encrypt k d n := xor_key n (xor_key k d)
|}.

(** Two random tapes. *)
Definition tape0 : rng := fun _ => x00.
Definition tape1 : rng := fun _ => xff.

Definition key16 : bytes :=
  [x00; x01; x02; x03; x04; x05; x06; x07; x08; x09; x0a; x0b; x0c; x0d; x0e; x0f].

Definition counter16 : bytes :=
  [x01; x02; x03; x04; x05; x06; x07; x08; x09; x0a; x0b; x0c; x00; x00; x00; x00].

(** The regions [0x1000, 0x1400) and [0x2000, 0x2401), and the PRDB and
    header that hold them; the addresses in [0x1400, 0x2000) lie in the gap
    between the two. *)
Definition fac1 : BeeFacRegion.t := BeeFacRegion.mk 0x1000 0x400 1.
Definition fac2 : BeeFacRegion.t := BeeFacRegion.mk 0x2000 0x401 3.

Definition prdb0 : BeeProtectRegionBlock.t :=
  BeeProtectRegionBlock.mk 0 0xFFFFFFFF BeeProtectRegionBlockAesMode.CTR 7
                           counter16 [].

Definition prdb : BeeProtectRegionBlock.t :=
  BeeProtectRegionBlock.add_fac (BeeProtectRegionBlock.add_fac prdb0 fac1) fac2.

Definition kib : BeeKIB.t := BeeKIB.mk (reverse key16) counter16.

Definition header : BeeRegionHeader.t := BeeRegionHeader.mk prdb key16 kib.

(** The encoding of [prdb]. *)
Definition prdb_bytes : bytes :=
  match snd (BeeProtectRegionBlock.export prdb) with
  | Ok b => b
  | Err _ => []
  end.

(** The encoding of [kib]. *)
Definition kib_bytes : bytes := BeeKIB.kib_key kib ++ BeeKIB.kib_iv kib.

(** Two engines whose headers share one PRDB object, as [load_from_config]
    builds them for the selection "both", before any region is added. *)
Definition store0 : BeeNxp.store := BeeNxp.Store (fun _ => prdb0) 1%nat.
Definition headers2 : list BeeNxp.header :=
  [BeeNxp.Header 0%nat key16 kib; BeeNxp.Header 0%nat (reverse key16) kib].

(** An image of 32 bytes placed at 0x1000, inside [fac1], under one engine
    that holds [prdb]. *)
Definition bee : BeeNxp.t :=
  BeeNxp.mk (BeeNxp.Store (fun _ => prdb) 1%nat) [BeeNxp.Header 0%nat key16 kib]
            (replicate 32 x01) 0x1000.

End Toy.


(** ** Notions used in the statements *)

(** An unsigned 32-bit number. *)
Definition u32 (z : Z) : Prop := 0 <= z <= 0xFFFFFFFF.

(** A value fits its format character when packing it loses nothing. *)
Definition fits (i : item) (v : value) : Prop :=
  match i, v with
  | fmt_I, VInt _ => True
  | fmt_s n, VBytes b => length b = n
  | _, _ => False
  end.

(** The checks of [BeeProtectRegionBlock.validate], each as a proposition. *)
Record prdb_checked (p : BeeProtectRegionBlock.t) : Prop := {
  chk_start : 0 <= BeeProtectRegionBlock._start_addr p <= 0xFFFFFFFF;
  chk_end : BeeProtectRegionBlock._start_addr p <= BeeProtectRegionBlock._end_addr p
            /\ BeeProtectRegionBlock._end_addr p <= 0xFFFFFFFF;
  chk_mode : BeeProtectRegionBlock.mode p = BeeProtectRegionBlockAesMode.CTR;
  chk_counter : length (BeeProtectRegionBlock.counter p) = 16%nat;
  chk_counter_tail : drop 12 (BeeProtectRegionBlock.counter p) = zeros 4;
  chk_count : (1 <= BeeProtectRegionBlock.fac_count p <= 4)%nat;
  chk_facs : Forall (fun f => BeeFacRegion.validate f = Ok tt)
                    (BeeProtectRegionBlock.fac_regions p)
}.

(** Splits a successful sequence of checks into its steps. *)
Ltac inv_bind H :=
  repeat match type of H with
  | ?m ≫= ?f = Ok ?b =>
      let a := fresh "a" in
      let Ha := fresh "Hstep" in
      destruct m as [a|] eqn:Ha;
      [change (f a = Ok b) in H; cbv beta in H | discriminate H]
  end.

(** [m] is the least, respectively the greatest, element of [l]. *)
Definition is_min (m : Z) (l : list Z) : Prop := m ∈ l /\ Forall (fun x => m <= x) l.
Definition is_max (m : Z) (l : list Z) : Prop := m ∈ l /\ Forall (fun x => x <= m) l.

(** The derived-address invariant of a PRDB: the start address is the least
    start of its regions and the end address the greatest end. *)
Definition derived_addresses (p : BeeProtectRegionBlock.t) : Prop :=
  is_min (BeeProtectRegionBlock._start_addr p)
         (map BeeFacRegion.start_addr (BeeProtectRegionBlock.fac_regions p))
  /\ is_max (BeeProtectRegionBlock._end_addr p)
            (map BeeFacRegion.end_addr (BeeProtectRegionBlock.fac_regions p)).

(** The big-endian number spelled by a byte string. *)
Definition be_word (l : bytes) : Z :=
  fold_left (fun acc b => acc * 256 + byte_to_Z b) l 0.

(** A computation that leaves the random tape alone: its outcome is the
    same on every tape and the tape comes back unread. *)
Definition lift_result {A} (r : result A) (g : rng) : result (A * rng) :=
  match r with
  | Ok a => Ok (a, g)
  | Err e => Err e
  end.

Definition tape_independent {A} (m : rng -> result (A * rng)) : Prop :=
  exists r : result A, forall g, m g = lift_result r g.

(** The outcome of a computation without the tape it hands back. *)
Definition outcome {A} (r : result (A * rng)) : result A :=
  match r with
  | Ok (a, _) => Ok a
  | Err e => Err e
  end.

(** [start_addr] lies within the region [fac]. *)
Definition in_region (start_addr : Z) (fac : BeeFacRegion.t) : Prop :=
  BeeFacRegion.start_addr fac <= start_addr < BeeFacRegion.end_addr fac.

(** [encrypt_block] called [n] times in a row, each call on the block the
    call before returned. *)
Fixpoint encrypt_block_repeat `{CryptoBackend} (n : nat)
  (p : BeeProtectRegionBlock.t) (key : bytes) (start_addr : Z) (data : bytes)
  (g : rng) : result (bytes * rng) :=
  match n with
  | O => Ok (data, g)
  | S n' =>
      '(data, g) ← BeeProtectRegionBlock.encrypt_block p key start_addr data g;
      encrypt_block_repeat n' p key start_addr data g
  end.

(** The regions that the loop of [BeeProtectRegionBlock.parse] reads: [n]
    regions, 32 bytes apart, from [offset] on. *)
Fixpoint parse_fac_list (n : nat) (data : bytes) (offset : nat)
  : result (list BeeFacRegion.t) :=
  match n with
  | O => Ok []
  | S n' =>
      fac ← BeeFacRegion.parse data offset;
      rest ← parse_fac_list n' data (offset + BeeFacRegion._size)%nat;
      Ok (fac :: rest)
  end.

(** The data with the eight bytes of the [startAddr] and [endAddr] header
    fields (bytes 16 to 23) replaced by [w]. *)
Definition patch_addresses (data w : bytes) : bytes :=
  take 16 data ++ w ++ drop 24 data.

(** Case analysis on the checks of a validation: every branch that raises
    does so with the error of its own [raise_if]. *)
Ltac spsdk_ifs :=
  unfold raise_if;
  repeat match goal with
  | |- context [if ?c then _ else _] => destruct c; cbn [mbind result_bind]
  end.

Ltac spsdk_cases :=
  spsdk_ifs; try discriminate;
  let H := fresh in intros H; inversion H; eauto.

(** * Properties *)

(** ** Bytes and integers *)

Lemma byte_to_of_Z (z : Z) : byte_to_Z (byte_of_Z z) = z mod 256.
Proof.
  unfold byte_to_Z, byte_of_Z.
  assert (Hb : 0 <= z mod 256 < 256) by (apply Z.mod_pos_bound; lia).
  destruct (Strings.Byte.of_N (Z.to_N (z mod 256))) as [b|] eqn:E.
  - apply Strings.Byte.to_of_N in E. rewrite E. lia.
  - apply Strings.Byte.of_N_None_iff in E. lia.
Qed.

Lemma byte_to_Z_range (b : byte) : 0 <= byte_to_Z b < 256.
Proof.
  unfold byte_to_Z. pose proof (Strings.Byte.to_N_bounded b). lia.
Qed.

Lemma le_split_length (n : nat) (z : Z) : length (le_split n z) = n.
Proof. revert z; induction n as [|n IH]; intros z; simpl; [|rewrite IH]; reflexivity. Qed.

Lemma le_combine_split (n : nat) (z : Z) :
  le_combine (le_split n z) = z mod 256 ^ Z.of_nat n.
Proof.
  revert z; induction n as [|n IH]; intros z.
  - simpl. now rewrite Z.mod_1_r.
  - cbn [le_split le_combine]. rewrite IH, byte_to_of_Z.
    rewrite Nat2Z.inj_succ, Z.pow_succ_r by lia.
    rewrite Z.rem_mul_r by lia. reflexivity.
Qed.

Lemma int_to_bytes_length (o : byteorder) (n : nat) (z : Z) :
  length (int_to_bytes o n z) = n.
Proof.
  destruct o; simpl; [|rewrite length_reverse]; apply le_split_length.
Qed.

Lemma int_from_to_bytes (o : byteorder) (z : Z) :
  0 <= z <= 0xFFFFFFFF ->
  int_from_bytes o (int_to_bytes o 4 z) = z.
Proof.
  intros Hz.
  assert (E : le_combine (le_split 4 z) = z).
  { rewrite le_combine_split. apply Z.mod_small. simpl. lia. }
  destruct o; unfold int_from_bytes, int_to_bytes;
    [|rewrite reverse_involutive]; exact E.
Qed.

Lemma zeros_length (n : nat) : length (zeros n) = n.
Proof. apply length_replicate. Qed.

Lemma extend_block_length (data : bytes) (len : nat) :
  (length data <= len)%nat -> length (extend_block data len) = len.
Proof.
  intros Hl. unfold extend_block. rewrite length_app, zeros_length. lia.
Qed.

(** ** The error monad *)

Lemma raise_if_Ok (c : bool) (e : exn) (u : unit) :
  raise_if c e = Ok u -> c = false.
Proof. destruct c; simpl; [discriminate | reflexivity]. Qed.

Lemma raise_if_false (e : exn) : raise_if false e = Ok tt.
Proof. reflexivity. Qed.

(** ** [struct]: unpacking what was packed *)

Lemma pack_items_length o l vs b :
  pack_items o l vs = Ok b -> length b = calcsize_items l.
Proof.
  revert vs b; induction l as [|i l IH]; intros [|v vs] b Hp; simpl in Hp;
    try discriminate.
  - now inversion Hp.
  - destruct i; discriminate.
  - destruct i as [|n], v as [z|x]; try discriminate.
    + destruct (_ && _); [|discriminate].
      inv_bind Hp. inversion Hp; subst.
      match goal with H : pack_items _ _ _ = Ok _ |- _ => apply IH in H end.
      rewrite length_app, int_to_bytes_length. simpl. lia.
    + inv_bind Hp. inversion Hp; subst.
      match goal with H : pack_items _ _ _ = Ok _ |- _ => apply IH in H end.
      rewrite !length_app, length_take, zeros_length. simpl. lia.
Qed.

Lemma unpack_pack_items o l vs b rest :
  pack_items o l vs = Ok b -> Forall2 fits l vs ->
  unpack_items o l (b ++ rest) = vs.
Proof.
  revert vs b; induction l as [|i l IH]; intros vs b Hp Hf;
    inversion Hf as [|i' v l' vs' Hfit Hfs]; subst; simpl in Hp.
  - reflexivity.
  - destruct i as [|n], v as [z|x]; try contradiction.
    + destruct (_ && _) eqn:Hr; [|discriminate].
      inv_bind Hp. inversion Hp; subst. cbn [unpack_items].
      rewrite <- app_assoc.
      rewrite take_app_length' by (symmetry; apply int_to_bytes_length).
      rewrite drop_app_length' by (symmetry; apply int_to_bytes_length).
      apply andb_true_iff in Hr as [Hr1%Z.leb_le Hr2%Z.leb_le].
      rewrite int_from_to_bytes by lia. f_equal. eauto.
    + inv_bind Hp. inversion Hp; subst. cbn [unpack_items].
      simpl in Hfit. rewrite Hfit, Nat.sub_diag, (take_ge x n) by lia.
      change (zeros 0) with (@nil byte). cbn [app].
      rewrite <- app_assoc.
      rewrite take_app_length', drop_app_length' by (now symmetry).
      f_equal. eauto.
Qed.

(** Unpacking at the offset where a packed record sits gives the packed
    values back. *)
Lemma unpack_from_pack f vs b pre rest :
  pack f vs = Ok b -> Forall2 fits (items f) vs ->
  unpack_from f (pre ++ b ++ rest) (length pre) = Ok vs.
Proof.
  intros Hp Hf. unfold unpack_from.
  pose proof (pack_items_length _ _ _ _ Hp) as Hl.
  rewrite !length_app. unfold calcsize.
  destruct (_ <? _) eqn:E; [apply Z.ltb_lt in E; lia|].
  rewrite drop_app_length. f_equal. now apply unpack_pack_items.
Qed.

Lemma bind_Ok_l {A B} (a : A) (f : A -> result B) : Ok a ≫= f = f a.
Proof. reflexivity. Qed.

Lemma bool_decide_refl_bytes (b : bytes) : bool_decide (b = b) = true.
Proof. now apply bool_decide_eq_true_2. Qed.

Lemma base_parse_Ok (size : nat) (data : bytes) (offset : nat) :
  (offset + size <= length data)%nat ->
  BeeBaseClass_parse size data offset = Ok tt.
Proof.
  intros Hl. unfold BeeBaseClass_parse.
  destruct (Z.ltb_spec (Z.of_nat (length data) - Z.of_nat offset) (Z.of_nat size));
    [lia | reflexivity].
Qed.

Lemma base_parse_inv (size : nat) (data : bytes) (offset : nat) (u : unit) :
  BeeBaseClass_parse size data offset = Ok u ->
  (offset + size <= length data)%nat.
Proof.
  unfold BeeBaseClass_parse.
  destruct (Z.ltb_spec (Z.of_nat (length data) - Z.of_nat offset) (Z.of_nat size));
    [discriminate | lia].
Qed.

(** ** BeeFacRegion *)

Lemma mask_is_mod (x : Z) : Z.land x _ENCR_BLOCK_ADDR_MASK = x mod 1024.
Proof.
  change _ENCR_BLOCK_ADDR_MASK with (Z.ones 10).
  rewrite Z.land_ones by lia. reflexivity.
Qed.

(** What [validate] accepts. *)
Lemma fac_validate_Ok (fac : BeeFacRegion.t) :
  BeeFacRegion.validate fac = Ok tt <->
  (BeeFacRegion.start_addr fac mod 1024 = 0
   \/ BeeFacRegion.length fac mod 1024 = 0)
  /\ 0 <= BeeFacRegion.protected_level fac <= 3
  /\ 0 <= BeeFacRegion.start_addr fac
  /\ BeeFacRegion.end_addr fac <= 0xFFFFFFFF
  /\ BeeFacRegion.start_addr fac < BeeFacRegion.end_addr fac.
Proof.
  unfold BeeFacRegion.validate. rewrite !mask_is_mod.
  destruct (negb (_ =? 0) && negb (_ =? 0)) eqn:E1;
    [simpl; split; [discriminate | lia]|].
  destruct ((_ <? 0) || (_ >? 3)) eqn:E2;
    [simpl; split; [discriminate | lia]|].
  destruct ((_ <? 0) || (_ >? 0xFFFFFFFF) || (_ >=? _)) eqn:E3;
    simpl; split; try discriminate; try reflexivity; lia.
Qed.

Lemma fac_init_valid (fac : BeeFacRegion.t) :
  BeeFacRegion.validate fac = Ok tt ->
  BeeFacRegion.init (BeeFacRegion.start_addr fac) (BeeFacRegion.length fac)
                    (BeeFacRegion.protected_level fac) = Ok fac.
Proof.
  intros Hv. unfold BeeFacRegion.init. destruct fac as [s l p]. cbn [BeeFacRegion.start_addr BeeFacRegion.length BeeFacRegion.protected_level].
  rewrite Hv. reflexivity.
Qed.

Lemma fac_init_Ok (s l p : Z) (fac : BeeFacRegion.t) :
  BeeFacRegion.init s l p = Ok fac ->
  fac = BeeFacRegion.mk s l p /\ BeeFacRegion.validate fac = Ok tt.
Proof.
  unfold BeeFacRegion.init. intros Hi. inv_bind Hi.
  inversion Hi; subst. split; [reflexivity|]. now destruct a.
Qed.

Lemma fac_export_length (fac : BeeFacRegion.t) (b : bytes) :
  BeeFacRegion.export fac = Ok b -> length b = 32%nat.
Proof.
  unfold BeeFacRegion.export. intros He. inv_bind He.
  apply pack_items_length in He. exact He.
Qed.

Lemma fac_export_valid (fac : BeeFacRegion.t) (b : bytes) :
  BeeFacRegion.export fac = Ok b -> BeeFacRegion.validate fac = Ok tt.
Proof.
  unfold BeeFacRegion.export. intros He. inv_bind He. now destruct a.
Qed.

(** A valid region can be exported. *)
Lemma fac_export_total (fac : BeeFacRegion.t) :
  BeeFacRegion.validate fac = Ok tt -> exists b, BeeFacRegion.export fac = Ok b.
Proof.
  intros Hv. unfold BeeFacRegion.export. rewrite Hv, bind_Ok_l.
  apply fac_validate_Ok in Hv as (_ & Hl & Hs & He & Hlt).
  unfold pack, BeeFacRegion._FORMAT. cbn [order items pack_items].
  repeat match goal with
  | |- context [(0 <=? ?z) && (?z <=? 0xFFFFFFFF)] =>
      replace ((0 <=? z) && (z <=? 0xFFFFFFFF)) with true by lia;
      cbv beta iota
  end.
  rewrite !bind_Ok_l. eauto.
Qed.

(** Parsing finds an exported region wherever it sits in the data. *)
Lemma fac_parse_export (fac : BeeFacRegion.t) (b pre rest : bytes) :
  BeeFacRegion.export fac = Ok b ->
  BeeFacRegion.parse (pre ++ b ++ rest) (length pre) = Ok fac.
Proof.
  intros He. pose proof (fac_export_length _ _ He) as Hl.
  pose proof (fac_export_valid _ _ He) as Hv.
  unfold BeeFacRegion.export in He. rewrite Hv, bind_Ok_l in He.
  unfold BeeFacRegion.parse.
  rewrite base_parse_Ok, bind_Ok_l
    by (rewrite !length_app, Hl; change BeeFacRegion._size with 32%nat; lia).
  erewrite unpack_from_pack; [|exact He|].
  2: repeat constructor.
  rewrite bind_Ok_l. cbv beta iota.
  rewrite bool_decide_refl_bytes. cbn [negb]. rewrite raise_if_false, bind_Ok_l.
  replace (BeeFacRegion.end_addr fac - BeeFacRegion.start_addr fac)
    with (BeeFacRegion.length fac) by (unfold BeeFacRegion.end_addr; lia).
  now apply fac_init_valid.
Qed.

Lemma unpack_from_pack_0 f vs b rest :
  pack f vs = Ok b -> Forall2 fits (items f) vs ->
  unpack_from f (b ++ rest) 0 = Ok vs.
Proof. intros Hp Hf. exact (unpack_from_pack f vs b [] rest Hp Hf). Qed.

Lemma truthy_nonempty (b : bytes) : (0 < length b)%nat -> truthy (Some b) = true.
Proof. destruct b; simpl; [lia | reflexivity]. Qed.

(** ** BeeKIB *)

Lemma kib_validate_Ok (kib : BeeKIB.t) :
  BeeKIB.validate kib = Ok tt <->
  length (BeeKIB.kib_key kib) = 16%nat /\ length (BeeKIB.kib_iv kib) = 16%nat.
Proof.
  unfold BeeKIB.validate, BeeKIB._KEY_LEN.
  destruct (Nat.eqb_spec (length (BeeKIB.kib_key kib)) 16);
    destruct (Nat.eqb_spec (length (BeeKIB.kib_iv kib)) 16);
    simpl; split; intros; try discriminate; try reflexivity; try tauto; lia.
Qed.

Lemma kib_export_Ok (kib : BeeKIB.t) :
  BeeKIB.validate kib = Ok tt ->
  BeeKIB.export kib = Ok (BeeKIB.kib_key kib ++ BeeKIB.kib_iv kib).
Proof.
  intros Hv. unfold BeeKIB.export. rewrite Hv, bind_Ok_l.
  apply kib_validate_Ok in Hv as [Hk Hi].
  unfold pack, BeeKIB._FORMAT. cbn [order items pack_items].
  rewrite !bind_Ok_l, Hk, Hi, !take_ge by lia.
  cbn [Nat.sub zeros replicate app]. now rewrite app_nil_r.
Qed.

Lemma kib_export_inv (kib : BeeKIB.t) (b : bytes) :
  BeeKIB.export kib = Ok b ->
  BeeKIB.validate kib = Ok tt /\ b = BeeKIB.kib_key kib ++ BeeKIB.kib_iv kib.
Proof.
  intros He. assert (Hv : BeeKIB.validate kib = Ok tt).
  { unfold BeeKIB.export in He. inv_bind He. now destruct a. }
  split; [exact Hv|]. rewrite (kib_export_Ok _ Hv) in He. now inversion He.
Qed.

Lemma kib_parse_bytes (k iv rest : bytes) (g : rng) :
  length k = 16%nat -> length iv = 16%nat ->
  BeeKIB.parse (k ++ iv ++ rest) 0 g = Ok (BeeKIB.mk k iv, g).
Proof.
  intros Hk Hi. unfold BeeKIB.parse.
  rewrite base_parse_Ok, bind_Ok_l
    by (rewrite !length_app, Hk, Hi; change BeeKIB._size with 32%nat; lia).
  unfold unpack_from.
  replace (_ <? _) with false.
  2:{ symmetry. apply Z.ltb_ge. rewrite !length_app, Hk, Hi.
      change (calcsize BeeKIB._FORMAT) with 32%nat. lia. }
  rewrite bind_Ok_l. unfold BeeKIB._FORMAT. cbn [order items unpack_items].
  rewrite !drop_0. cbv beta iota.
  rewrite take_app_length', drop_app_length', take_app_length' by (now symmetry).
  cbv beta iota. unfold BeeKIB.init.
  rewrite !truthy_nonempty by lia. cbn [default from_option id].
  replace (BeeKIB.validate (BeeKIB.mk k iv)) with (Ok tt)
    by (symmetry; now apply kib_validate_Ok).
  reflexivity.
Qed.

Lemma kib_parse_export (kib : BeeKIB.t) (b : bytes) (g : rng) :
  BeeKIB.export kib = Ok b -> BeeKIB.parse b 0 g = Ok (kib, g).
Proof.
  intros He. apply kib_export_inv in He as [Hv ->].
  apply kib_validate_Ok in Hv as [Hk Hi].
  rewrite <- (app_nil_r (BeeKIB.kib_iv kib)).
  rewrite kib_parse_bytes by assumption. now destruct kib.
Qed.

(** ** BeeProtectRegionBlock *)

(** [update] looks at the mode, the lock options, the counter and the
    regions only. *)
Lemma prdb_update_ext (p q : BeeProtectRegionBlock.t) :
  BeeProtectRegionBlock.mode p = BeeProtectRegionBlock.mode q ->
  BeeProtectRegionBlock.lock_options p = BeeProtectRegionBlock.lock_options q ->
  BeeProtectRegionBlock.counter p = BeeProtectRegionBlock.counter q ->
  BeeProtectRegionBlock.fac_regions p = BeeProtectRegionBlock.fac_regions q ->
  BeeProtectRegionBlock.update p = BeeProtectRegionBlock.update q.
Proof.
  destruct p, q; simpl; intros; subst; reflexivity.
Qed.

Lemma prdb_update_idem (p : BeeProtectRegionBlock.t) :
  BeeProtectRegionBlock.update (BeeProtectRegionBlock.update p)
  = BeeProtectRegionBlock.update p.
Proof. now apply prdb_update_ext. Qed.

Lemma prdb_update_fac_regions (p : BeeProtectRegionBlock.t) :
  BeeProtectRegionBlock.fac_regions (BeeProtectRegionBlock.update p)
  = BeeProtectRegionBlock.fac_regions p.
Proof. reflexivity. Qed.

(** Adding regions one by one ends in the update of the whole list. *)
Lemma prdb_fold_add_fac (facs : list BeeFacRegion.t) (p : BeeProtectRegionBlock.t) :
  facs <> [] ->
  fold_left BeeProtectRegionBlock.add_fac facs p
  = BeeProtectRegionBlock.update
      (BeeProtectRegionBlock.mk
         (BeeProtectRegionBlock._start_addr p) (BeeProtectRegionBlock._end_addr p)
         (BeeProtectRegionBlock.mode p) (BeeProtectRegionBlock.lock_options p)
         (BeeProtectRegionBlock.counter p)
         (BeeProtectRegionBlock.fac_regions p ++ facs)).
Proof.
  revert p; induction facs as [|f facs IH]; intros p Hne; [congruence|].
  destruct facs as [|f' facs].
  - reflexivity.
  - cbn [fold_left] in *. rewrite IH by discriminate.
    apply prdb_update_ext; try reflexivity.
    cbn. now rewrite <- app_assoc.
Qed.

Lemma validate_facs_Forall (facs : list BeeFacRegion.t) :
  BeeProtectRegionBlock.validate_facs facs = Ok tt <->
  Forall (fun f => BeeFacRegion.validate f = Ok tt) facs.
Proof.
  induction facs as [|f facs IH]; simpl.
  - split; [constructor | reflexivity].
  - destruct (BeeFacRegion.validate f) as [[]|e] eqn:E; simpl.
    + rewrite IH. split; [now constructor | now inversion 1].
    + split; [discriminate | inversion 1; congruence].
Qed.

(** What [validate] accepts. *)
Lemma prdb_validate_Ok (p : BeeProtectRegionBlock.t) :
  BeeProtectRegionBlock.validate p = Ok tt <-> prdb_checked p.
Proof.
  unfold BeeProtectRegionBlock.validate, BeeProtectRegionBlock.FAC_REGIONS,
    BeeProtectRegionBlockAesMode.CTR.
  split.
  - intros H. inv_bind H.
    repeat match goal with
    | Hs : raise_if _ _ = Ok _ |- _ => apply raise_if_Ok in Hs
    end.
    apply validate_facs_Forall in H.
    assert (Hc : length (BeeProtectRegionBlock.counter p) = 16%nat)
      by (now apply Nat.eqb_eq, negb_false_iff).
    rewrite Hc in *.
    assert (Hn : (1 <= BeeProtectRegionBlock.fac_count p <= 4)%nat).
    { match goal with
      | Hs : (_ <=? 0)%nat || _ = false |- _ =>
          apply orb_false_iff in Hs as [Hs1%Nat.leb_gt Hs2%Nat.ltb_ge]
      end. lia. }
    match goal with
    | Hs : negb (bool_decide _) = false |- _ =>
        apply negb_false_iff, bool_decide_eq_true in Hs; cbn [Nat.sub] in Hs
    end.
    constructor; try assumption; unfold BeeProtectRegionBlockAesMode.CTR; lia.
  - intros [H1 H2 H3 H4 H5 H6 H7].
    unfold BeeProtectRegionBlockAesMode.CTR in H3.
    replace ((_ <? 0) || (_ >? 0xFFFFFFFF)) with false by lia.
    replace ((_ >? _) || (_ >? 0xFFFFFFFF)) with false by lia.
    replace (negb (_ =? 1)) with false by lia.
    rewrite H4. cbn [Nat.sub Nat.eqb]. rewrite H5, bool_decide_refl_bytes.
    replace ((_ <=? 0)%nat || (4 <? _)%nat) with false
      by (symmetry; apply orb_false_iff; split;
          [apply Nat.leb_gt | apply Nat.ltb_ge]; lia).
    cbn [negb]. rewrite !raise_if_false, !bind_Ok_l.
    now apply validate_facs_Forall.
Qed.

Lemma prdb_validate_unit (p : BeeProtectRegionBlock.t) (u : unit) :
  BeeProtectRegionBlock.validate p = Ok u ->
  BeeProtectRegionBlock.validate p = Ok tt.
Proof. now destruct u. Qed.

(** The regions are exported one after the other, 32 bytes each, and
    [parse_facs] reads them back from wherever they start. *)
Lemma export_facs_spec (facs : list BeeFacRegion.t) (res out : bytes) :
  BeeProtectRegionBlock.export_facs res facs = Ok out ->
  exists bs, out = res ++ bs /\ length bs = (32 * length facs)%nat /\
    forall rest p,
      BeeProtectRegionBlock.parse_facs (length facs) (res ++ bs ++ rest)
                                       (length res) p
      = Ok (fold_left BeeProtectRegionBlock.add_fac facs p).
Proof.
  revert res out; induction facs as [|f facs IH]; intros res out He.
  - simpl in He. inversion He; subst. exists []. rewrite app_nil_r.
    repeat split; reflexivity.
  - cbn [BeeProtectRegionBlock.export_facs] in He. inv_bind He.
    rename a into b, Hstep into Hf.
    destruct (IH _ _ He) as (bs & -> & Hl & Hp).
    pose proof (fac_export_length _ _ Hf) as Hb.
    exists (b ++ bs). rewrite <- app_assoc. split; [reflexivity|].
    split; [rewrite length_app; simpl length; lia|].
    intros rest p. cbn [length BeeProtectRegionBlock.parse_facs fold_left].
    rewrite <- (app_assoc b bs rest).
    rewrite (fac_parse_export f b res (bs ++ rest) Hf), bind_Ok_l.
    specialize (Hp rest (BeeProtectRegionBlock.add_fac p f)).
    rewrite length_app, Hb in Hp. rewrite <- app_assoc in Hp. exact Hp.
Qed.

(** Parsing the export of a PRDB gives the PRDB as [export] left it, that
    is, updated. *)
Lemma prdb_parse_export (p : BeeProtectRegionBlock.t) (b : bytes) (g : rng) :
  snd (BeeProtectRegionBlock.export p) = Ok b ->
  BeeProtectRegionBlock.parse b 0 g = Ok (BeeProtectRegionBlock.update p, g).
Proof.
  intros He. unfold BeeProtectRegionBlock.export in He. cbn [snd] in He.
  remember (BeeProtectRegionBlock.update p) as q eqn:Hq.
  inv_bind He. rename a0 into hdr, a1 into out.
  inversion He; subst b; clear He.
  match goal with Hs : BeeProtectRegionBlock.validate q = Ok _ |- _ =>
    apply prdb_validate_unit in Hs; rename Hs into Hv end.
  pose proof (proj1 (prdb_validate_Ok q) Hv) as Hc.
  match goal with Hs : pack _ _ = Ok hdr |- _ => rename Hs into Hpack end.
  match goal with Hs : BeeProtectRegionBlock.export_facs _ _ = Ok out |- _ =>
    destruct (export_facs_spec _ _ _ Hs) as (bs & -> & Hl & Hparse) end.
  pose proof (pack_items_length _ _ _ _ Hpack) as Hh.
  change (calcsize_items _) with 80%nat in Hh.
  destruct Hc as [_ _ _ Hcnt _ Hn Hfacs].
  unfold BeeProtectRegionBlock.fac_count in Hn.
  unfold extend_block. rewrite <- app_assoc.
  unfold BeeProtectRegionBlock.parse.
  rewrite base_parse_Ok, bind_Ok_l.
  2:{ rewrite !length_app, zeros_length, Hh, Hl.
      change BeeProtectRegionBlock._size with 256%nat.
      change BeeProtectRegionBlock.SIZE with 256%nat. lia. }
  rewrite (unpack_from_pack_0 _ _ _ _ Hpack), bind_Ok_l.
  2:{ repeat constructor. simpl. now rewrite length_reverse. }
  cbv beta iota. rewrite !Z.eqb_refl, bool_decide_refl_bytes.
  cbn [negb orb]. rewrite !raise_if_false, !bind_Ok_l.
  unfold BeeProtectRegionBlock.init.
  rewrite reverse_involutive, truthy_nonempty by lia.
  cbn [default from_option id].
  cbn [BeeProtectRegionBlock.mode BeeProtectRegionBlock.lock_options
       BeeProtectRegionBlock.counter BeeProtectRegionBlock.fac_regions].
  rewrite Nat2Z.id.
  change (0 + calcsize BeeProtectRegionBlock._FORMAT)%nat with 80%nat.
  unfold BeeProtectRegionBlock.fac_count. rewrite <- Hh at 1.
  rewrite Hparse, bind_Ok_l.
  rewrite prdb_fold_add_fac by (intros E; rewrite E in Hn; simpl in Hn; lia).
  cbn [BeeProtectRegionBlock.mode BeeProtectRegionBlock.lock_options
       BeeProtectRegionBlock.counter BeeProtectRegionBlock.fac_regions
       BeeProtectRegionBlock._start_addr BeeProtectRegionBlock._end_addr app].
  match goal with
  | |- context [BeeProtectRegionBlock.validate ?r] =>
      replace r with q
  end.
  2:{ rewrite Hq at 1. rewrite <- prdb_update_idem, <- Hq.
      now apply prdb_update_ext. }
  rewrite Hv. reflexivity.
Qed.

Lemma export_facs_total (facs : list BeeFacRegion.t) (res : bytes) :
  Forall (fun f => BeeFacRegion.validate f = Ok tt) facs ->
  exists out, BeeProtectRegionBlock.export_facs res facs = Ok out.
Proof.
  intros Hf; revert res; induction Hf as [|f facs Hv _ IH]; intros res.
  - now exists res.
  - destruct (fac_export_total f Hv) as [b Hb].
    cbn [BeeProtectRegionBlock.export_facs]. rewrite Hb, bind_Ok_l. apply IH.
Qed.

Lemma fold_min_le (l : list BeeFacRegion.t) (m : Z) :
  fold_left (fun m fac => Z.min m (BeeFacRegion.start_addr fac)) l m <= m.
Proof.
  revert m; induction l as [|f l IH]; intros m; simpl; [lia|].
  specialize (IH (Z.min m (BeeFacRegion.start_addr f))). lia.
Qed.

Lemma fold_max_ge (l : list BeeFacRegion.t) (m : Z) :
  m <= fold_left (fun m fac => Z.max m (BeeFacRegion.end_addr fac)) l m.
Proof.
  revert m; induction l as [|f l IH]; intros m; simpl; [lia|].
  specialize (IH (Z.max m (BeeFacRegion.end_addr f))). lia.
Qed.

Lemma fold_min_bound (l : list BeeFacRegion.t) (m lo : Z) :
  lo <= m -> Forall (fun f => lo <= BeeFacRegion.start_addr f) l ->
  lo <= fold_left (fun m fac => Z.min m (BeeFacRegion.start_addr fac)) l m.
Proof.
  intros Hm Hl; revert m Hm; induction Hl as [|f l Hf _ IH]; intros m Hm; simpl;
    [lia | apply IH; lia].
Qed.

Lemma fold_max_bound (l : list BeeFacRegion.t) (m hi : Z) :
  m <= hi -> Forall (fun f => BeeFacRegion.end_addr f <= hi) l ->
  fold_left (fun m fac => Z.max m (BeeFacRegion.end_addr fac)) l m <= hi.
Proof.
  intros Hm Hl; revert m Hm; induction Hl as [|f l Hf _ IH]; intros m Hm; simpl;
    [lia | apply IH; lia].
Qed.

(** [validate] still accepts a PRDB after [update]. *)
Lemma prdb_validate_update (p : BeeProtectRegionBlock.t) :
  BeeProtectRegionBlock.validate p = Ok tt ->
  BeeProtectRegionBlock.validate (BeeProtectRegionBlock.update p) = Ok tt.
Proof.
  rewrite !prdb_validate_Ok. intros [_ _ Hm Hc Ht Hn Hf].
  assert (Hs : Forall (fun f => 0 <= BeeFacRegion.start_addr f)
                      (BeeProtectRegionBlock.fac_regions p)).
  { eapply Forall_impl; [exact Hf|]. intros f Hv.
    apply fac_validate_Ok in Hv. lia. }
  assert (He : Forall (fun f => BeeFacRegion.end_addr f <= 0xFFFFFFFF)
                      (BeeProtectRegionBlock.fac_regions p)).
  { eapply Forall_impl; [exact Hf|]. intros f Hv.
    apply fac_validate_Ok in Hv. lia. }
  unfold BeeProtectRegionBlock.fac_count in Hn.
  constructor; try assumption;
    cbn [BeeProtectRegionBlock.update BeeProtectRegionBlock._start_addr
         BeeProtectRegionBlock._end_addr].
  - split.
    + apply fold_min_bound; [destruct (_ =? _)%nat; lia | exact Hs].
    + etransitivity; [apply fold_min_le|]. destruct (_ =? _)%nat; lia.
  - split; [|apply fold_max_bound; [lia | exact He]].
    destruct (BeeProtectRegionBlock.fac_regions p) as [|f l] eqn:E;
      [simpl in Hn; lia|].
    inversion Hf as [|? ? Hv _]; subst. apply fac_validate_Ok in Hv.
    unfold BeeProtectRegionBlock.fac_count. rewrite E.
    cbn [length Nat.eqb fold_left].
    etransitivity; [apply fold_min_le|].
    etransitivity; [|apply fold_max_ge]. lia.
Qed.

(** A PRDB that [validate] accepts after [update], with 32-bit lock
    options, exports to 256 bytes. *)
Lemma prdb_export_total (p : BeeProtectRegionBlock.t) :
  BeeProtectRegionBlock.validate (BeeProtectRegionBlock.update p) = Ok tt ->
  u32 (BeeProtectRegionBlock.lock_options p) ->
  exists b, snd (BeeProtectRegionBlock.export p) = Ok b /\ length b = 256%nat.
Proof.
  intros Hv Hlock. unfold BeeProtectRegionBlock.export. cbn [snd].
  remember (BeeProtectRegionBlock.update p) as q eqn:Hq.
  assert (Hlq : u32 (BeeProtectRegionBlock.lock_options q)) by now subst q.
  clear Hq. rewrite Hv, bind_Ok_l.
  apply prdb_validate_Ok in Hv as [Hs He Hm Hc Ht Hn Hf].
  unfold u32 in Hlq. unfold BeeProtectRegionBlockAesMode.CTR in Hm.
  destruct (pack BeeProtectRegionBlock._FORMAT _) as [hdr|e] eqn:Hpack.
  2:{ exfalso. revert Hpack.
      unfold pack, BeeProtectRegionBlock._FORMAT,
        BeeProtectRegionBlock.TAGL, BeeProtectRegionBlock.TAGH,
        BeeProtectRegionBlock.VERSION.
      cbn [order items pack_items].
      repeat match goal with
      | |- context [(0 <=? ?z) && (?z <=? 0xFFFFFFFF)] =>
          replace ((0 <=? z) && (z <=? 0xFFFFFFFF)) with true by lia;
          cbv beta iota
      end.
      rewrite !bind_Ok_l. discriminate. }
  rewrite bind_Ok_l.
  destruct (export_facs_total _ hdr Hf) as [out Hout]. rewrite Hout, bind_Ok_l.
  eexists; split; [reflexivity|].
  destruct (export_facs_spec _ _ _ Hout) as (bs & -> & Hl & _).
  apply pack_items_length in Hpack. change (calcsize_items _) with 80%nat in Hpack.
  unfold BeeProtectRegionBlock.fac_count in Hn.
  apply extend_block_length. rewrite length_app.
  change BeeProtectRegionBlock.SIZE with 256%nat. lia.
Qed.

Lemma prdb_export_update (p : BeeProtectRegionBlock.t) :
  BeeProtectRegionBlock.export (BeeProtectRegionBlock.update p)
  = BeeProtectRegionBlock.export p.
Proof.
  unfold BeeProtectRegionBlock.export. now rewrite prdb_update_idem.
Qed.

(** ** BeeRegionHeader *)

Lemma header_validate_Ok (h : BeeRegionHeader.t) :
  BeeRegionHeader.validate h = Ok tt <->
  BeeKIB.validate (BeeRegionHeader._kib h) = Ok tt
  /\ BeeProtectRegionBlock.validate (BeeRegionHeader._prdb h) = Ok tt
  /\ length (BeeRegionHeader._sw_key h) = 16%nat.
Proof.
  unfold BeeRegionHeader.validate.
  destruct (BeeKIB.validate _) as [[]|]; simpl;
    [|split; [discriminate | intros (? & _); discriminate]].
  destruct (BeeProtectRegionBlock.validate _) as [[]|]; simpl;
    [|split; [discriminate | intros (_ & ? & _); discriminate]].
  destruct (Nat.eqb_spec (length (BeeRegionHeader._sw_key h)) 16); simpl;
    split; try discriminate; try tauto; try (intros (_ & _ & ?); lia).
Qed.

Lemma slice_app_mid (pre mid post : bytes) (lo hi : nat) :
  length pre = lo -> (lo + length mid)%nat = hi ->
  slice lo hi (pre ++ mid ++ post) = mid.
Proof.
  intros <- <-. unfold slice. rewrite drop_app_length.
  replace (length pre + length mid - length pre)%nat with (length mid) by lia.
  apply take_app_length.
Qed.

Lemma slice_app_head (mid post : bytes) (hi : nat) :
  length mid = hi -> slice 0 hi (mid ++ post) = mid.
Proof. intros Hl. now apply (slice_app_mid [] mid post 0 hi). Qed.

Section HeaderCodec.
Context `{cb : CryptoBackend} {laws : CryptoBackendLaws cb}.

(** The bytes of an exported header, piece by piece. *)
Lemma header_export_Ok (h : BeeRegionHeader.t) :
  BeeRegionHeader.validate (BeeRegionHeader.update h) = Ok tt ->
  u32 (BeeProtectRegionBlock.lock_options (BeeRegionHeader._prdb h)) ->
  exists kib_data prdb_data,
    BeeKIB.export (BeeRegionHeader._kib h) = Ok kib_data
    /\ length kib_data = 32%nat
    /\ snd (BeeProtectRegionBlock.export (BeeRegionHeader._prdb h)) = Ok prdb_data
    /\ length prdb_data = 256%nat
    /\ BeeRegionHeader.export h =
       (BeeRegionHeader.update h,
        Ok (aes_ecb_encrypt (BeeRegionHeader._sw_key h) kib_data
            ++ zeros 96
            ++ aes_cbc_encrypt (BeeKIB.kib_key (BeeRegionHeader._kib h))
                               (BeeKIB.kib_iv (BeeRegionHeader._kib h)) prdb_data
            ++ zeros 128)).
Proof.
  intros Hv Hlock.
  pose proof (proj1 (header_validate_Ok _) Hv) as (Hk & Hp & Hs).
  cbn [BeeRegionHeader.update BeeRegionHeader._kib BeeRegionHeader._prdb
       BeeRegionHeader._sw_key] in Hk, Hp, Hs.
  pose proof (kib_export_Ok _ Hk) as Hke.
  pose proof (proj1 (kib_validate_Ok _) Hk) as [Hkl Hil].
  destruct (prdb_export_total (BeeRegionHeader._prdb h) Hp Hlock) as (pd & Hpd & Hpl).
  exists (BeeKIB.kib_key (BeeRegionHeader._kib h)
          ++ BeeKIB.kib_iv (BeeRegionHeader._kib h)), pd.
  assert (Hkdl : length (BeeKIB.kib_key (BeeRegionHeader._kib h)
                         ++ BeeKIB.kib_iv (BeeRegionHeader._kib h)) = 32%nat)
    by (rewrite length_app; lia).
  repeat split; try assumption.
  unfold BeeRegionHeader.export. rewrite Hv.
  cbn [BeeRegionHeader.update BeeRegionHeader._kib BeeRegionHeader._prdb
       BeeRegionHeader._sw_key].
  rewrite Hke, prdb_export_update.
  destruct (BeeProtectRegionBlock.export (BeeRegionHeader._prdb h)) as [q r] eqn:E.
  assert (Hq : q = BeeProtectRegionBlock.update (BeeRegionHeader._prdb h))
    by (unfold BeeProtectRegionBlock.export in E; now inversion E).
  cbn [snd] in Hpd. subst r q. f_equal. f_equal.
  unfold extend_block. cbn [app].
  rewrite <- !app_assoc. f_equal.
  assert (Hel : length (aes_ecb_encrypt (BeeRegionHeader._sw_key h)
                  (BeeKIB.kib_key (BeeRegionHeader._kib h)
                   ++ BeeKIB.kib_iv (BeeRegionHeader._kib h))) = 32%nat)
    by (rewrite ecb_encrypt_length; [assumption | assumption | now rewrite Hkdl]).
  assert (Hcl : length (aes_cbc_encrypt (BeeKIB.kib_key (BeeRegionHeader._kib h))
                  (BeeKIB.kib_iv (BeeRegionHeader._kib h)) pd) = 256%nat)
    by (rewrite cbc_encrypt_length; [assumption | assumption | assumption
                                     | now rewrite Hpl]).
  rewrite !length_app, zeros_length, Hel, Hcl.
  reflexivity.
Qed.

(** Parsing an exported header with its software key gives the header as
    [export] left it. *)
Lemma header_parse_export (h : BeeRegionHeader.t) (g : rng) :
  BeeRegionHeader.validate (BeeRegionHeader.update h) = Ok tt ->
  u32 (BeeProtectRegionBlock.lock_options (BeeRegionHeader._prdb h)) ->
  exists b,
    BeeRegionHeader.export h = (BeeRegionHeader.update h, Ok b)
    /\ length b = 512%nat
    /\ BeeRegionHeader.parse b 0 (BeeRegionHeader._sw_key h) g
       = Ok (BeeRegionHeader.update h, g).
Proof.
  intros Hv Hlock.
  destruct (header_export_Ok h Hv Hlock) as (kd & pd & Hke & Hkdl & Hpd & Hpl & He).
  pose proof (proj1 (header_validate_Ok _) Hv) as (Hk & Hp & Hs).
  cbn [BeeRegionHeader.update BeeRegionHeader._kib BeeRegionHeader._prdb
       BeeRegionHeader._sw_key] in Hk, Hp, Hs.
  pose proof (proj1 (kib_validate_Ok _) Hk) as [Hkl Hil].
  set (sw := BeeRegionHeader._sw_key h) in *.
  set (kib := BeeRegionHeader._kib h) in *.
  assert (Hel : length (aes_ecb_encrypt sw kd) = 32%nat)
    by (rewrite ecb_encrypt_length; [assumption | assumption | now rewrite Hkdl]).
  assert (Hcl : length (aes_cbc_encrypt (BeeKIB.kib_key kib) (BeeKIB.kib_iv kib) pd)
                = 256%nat)
    by (rewrite cbc_encrypt_length; [assumption | assumption | assumption
                                     | now rewrite Hpl]).
  eexists. split; [exact He|].
  split; [rewrite !length_app, !zeros_length, Hel, Hcl; reflexivity|].
  unfold BeeRegionHeader.parse.
  rewrite base_parse_Ok, bind_Ok_l
    by (rewrite !length_app, !zeros_length, Hel, Hcl;
        change BeeRegionHeader._size with 512%nat; lia).
  rewrite Hs. cbn [Nat.eqb negb]. rewrite raise_if_false, bind_Ok_l.
  change (0 + BeeKIB._size)%nat with 32%nat.
  change (0 + BeeRegionHeader.PRDB_OFFSET)%nat with 128%nat.
  change (128 + BeeProtectRegionBlock.SIZE)%nat with 384%nat.
  rewrite (slice_app_head (aes_ecb_encrypt sw kd) _ 32) by assumption.
  rewrite ecb_decrypt_encrypt by (try assumption; now rewrite Hkdl).
  rewrite (kib_parse_export _ _ g Hke), bind_Ok_l. cbv beta iota.
  rewrite (app_assoc (aes_ecb_encrypt sw kd) (zeros 96)).
  rewrite (slice_app_mid _ (aes_cbc_encrypt _ _ pd) _ 128 384)
    by (rewrite ?length_app, ?zeros_length; lia).
  rewrite cbc_decrypt_encrypt by (try assumption; now rewrite Hpl).
  rewrite (prdb_parse_export _ _ g Hpd), bind_Ok_l. cbv beta iota.
  cbn [BeeRegionHeader.init]. fold sw kib.
  change (BeeRegionHeader.mk (BeeProtectRegionBlock.update (BeeRegionHeader._prdb h))
                             sw kib) with (BeeRegionHeader.update h).
  rewrite Hv. reflexivity.
Qed.

End HeaderCodec.

(** ** The stand-in provider obeys the laws *)

Lemma byte_xor_involutive (a k : byte) : Toy.byte_xor (Toy.byte_xor a k) k = a.
Proof.
  unfold Toy.byte_xor. rewrite Byte.to_bits_of_bits.
  rewrite <- (Byte.of_bits_to_bits a) at 2. f_equal.
  destruct (Byte.to_bits a) as (a0 & a1 & a2 & a3 & a4 & a5 & a6 & a7).
  destruct (Byte.to_bits k) as (k0 & k1 & k2 & k3 & k4 & k5 & k6 & k7).
  cbn [Toy.xorb8].
  rewrite !xorb_assoc, !xorb_nilpotent, !xorb_false_r. reflexivity.
Qed.

Lemma xor_key_involutive (k d : bytes) : Toy.xor_key k (Toy.xor_key k d) = d.
Proof.
  revert k; induction d as [|b d IH]; intros [|kb k]; simpl; try reflexivity.
  now rewrite byte_xor_involutive, IH.
Qed.

Lemma xor_key_length (k d : bytes) : length (Toy.xor_key k d) = length d.
Proof.
  revert k; induction d as [|b d IH]; intros [|kb k]; simpl; try reflexivity.
  now rewrite IH.
Qed.

Lemma toy_laws : CryptoBackendLaws Toy.backend.
Proof.
  constructor; intros; cbn [aes_ecb_encrypt aes_ecb_decrypt aes_cbc_encrypt
                            aes_cbc_decrypt aes_ctr_encrypt Toy.backend] in *.
  - apply xor_key_involutive.
  - apply xor_key_length.
  - now rewrite !xor_key_involutive.
  - now rewrite !xor_key_length.
  - now rewrite !xor_key_length.
  - match goal with Heq : Toy.xor_key n _ = Toy.xor_key n _ |- _ =>
      apply (f_equal (Toy.xor_key n)) in Heq;
      rewrite !xor_key_involutive in Heq;
      apply (f_equal (Toy.xor_key k)) in Heq;
      rewrite !xor_key_involutive in Heq; exact Heq
    end.
Qed.

(** ** Derived addresses *)

Lemma fold_min_spec (l : list BeeFacRegion.t) (m0 : Z) :
  let r := fold_left (fun m fac => Z.min m (BeeFacRegion.start_addr fac)) l m0 in
  Forall (fun f => r <= BeeFacRegion.start_addr f) l
  /\ (r = m0 \/ r ∈ map BeeFacRegion.start_addr l).
Proof.
  revert m0; induction l as [|f l IH]; intros m0; cbn [fold_left map].
  - split; [constructor | now left].
  - destruct (IH (Z.min m0 (BeeFacRegion.start_addr f))) as [Hall Hin].
    pose proof (fold_min_le l (Z.min m0 (BeeFacRegion.start_addr f))) as Hle.
    split; [constructor; [lia | exact Hall]|].
    destruct Hin as [Heq | Hin]; [|right; apply elem_of_cons; now right].
    destruct (Z.min_spec m0 (BeeFacRegion.start_addr f)) as [[_ E] | [_ E]].
    + left. now rewrite Heq.
    + right. rewrite Heq, E. apply elem_of_cons; now left.
Qed.

Lemma fold_max_spec (l : list BeeFacRegion.t) (m0 : Z) :
  let r := fold_left (fun m fac => Z.max m (BeeFacRegion.end_addr fac)) l m0 in
  Forall (fun f => BeeFacRegion.end_addr f <= r) l
  /\ (r = m0 \/ r ∈ map BeeFacRegion.end_addr l).
Proof.
  revert m0; induction l as [|f l IH]; intros m0; cbn [fold_left map].
  - split; [constructor | now left].
  - destruct (IH (Z.max m0 (BeeFacRegion.end_addr f))) as [Hall Hin].
    pose proof (fold_max_ge l (Z.max m0 (BeeFacRegion.end_addr f))) as Hle.
    split; [constructor; [lia | exact Hall]|].
    destruct Hin as [Heq | Hin]; [|right; apply elem_of_cons; now right].
    destruct (Z.max_spec m0 (BeeFacRegion.end_addr f)) as [[_ E] | [_ E]].
    + right. rewrite Heq, E. apply elem_of_cons; now left.
    + left. now rewrite Heq.
Qed.

(** After [update] the addresses of a PRDB with valid regions are the
    derived ones. *)
Lemma update_derived (p : BeeProtectRegionBlock.t) :
  BeeProtectRegionBlock.fac_regions p <> [] ->
  Forall (fun f => BeeFacRegion.validate f = Ok tt)
         (BeeProtectRegionBlock.fac_regions p) ->
  derived_addresses (BeeProtectRegionBlock.update p).
Proof.
  intros Hne Hf. unfold derived_addresses, is_min, is_max.
  cbn [BeeProtectRegionBlock.update BeeProtectRegionBlock._start_addr
       BeeProtectRegionBlock._end_addr BeeProtectRegionBlock.fac_regions].
  unfold BeeProtectRegionBlock.fac_count.
  destruct (BeeProtectRegionBlock.fac_regions p) as [|f l] eqn:E; [congruence|].
  cbn [length Nat.eqb].
  destruct (fold_min_spec (f :: l) 0xFFFFFFFF) as [Hmin Hmin'].
  destruct (fold_max_spec (f :: l) 0) as [Hmax Hmax'].
  inversion Hf as [|? ? Hv _]; subst. apply fac_validate_Ok in Hv.
  inversion Hmin as [|? ? Hm1 _]; subst. inversion Hmax as [|? ? Hm2 _]; subst.
  repeat split.
  - destruct Hmin' as [Heq | Hin]; [|exact Hin].
    rewrite Heq in Hm1. lia.
  - rewrite Forall_fmap. exact Hmin.
  - destruct Hmax' as [Heq | Hin]; [|exact Hin].
    rewrite Heq in Hm2. lia.
  - rewrite Forall_fmap. exact Hmax.
Qed.

Lemma is_min_unique (m m' : Z) (l : list Z) : is_min m l -> is_min m' l -> m = m'.
Proof.
  intros [Hi Ha] [Hi' Ha']. rewrite Forall_forall in Ha, Ha'.
  specialize (Ha _ Hi'). specialize (Ha' _ Hi). lia.
Qed.

Lemma is_max_unique (m m' : Z) (l : list Z) : is_max m l -> is_max m' l -> m = m'.
Proof.
  intros [Hi Ha] [Hi' Ha']. rewrite Forall_forall in Ha, Ha'.
  specialize (Ha _ Hi'). specialize (Ha' _ Hi). lia.
Qed.

(** [update] changes nothing in a valid PRDB whose addresses are derived. *)
Lemma update_id_derived (p : BeeProtectRegionBlock.t) :
  BeeProtectRegionBlock.validate p = Ok tt -> derived_addresses p ->
  BeeProtectRegionBlock.update p = p.
Proof.
  intros Hv [Hmin Hmax]. apply prdb_validate_Ok in Hv as [_ _ _ _ _ Hn Hf].
  assert (Hne : BeeProtectRegionBlock.fac_regions p <> []).
  { unfold BeeProtectRegionBlock.fac_count in Hn. intros E. rewrite E in Hn.
    simpl in Hn. lia. }
  destruct (update_derived p Hne Hf) as [Hmin' Hmax'].
  rewrite prdb_update_fac_regions in Hmin', Hmax'.
  pose proof (is_min_unique _ _ _ Hmin' Hmin) as E1.
  pose proof (is_max_unique _ _ _ Hmax' Hmax) as E2.
  destruct p as [s e m lo c fs].
  cbn [BeeProtectRegionBlock._start_addr BeeProtectRegionBlock._end_addr] in E1, E2.
  unfold BeeProtectRegionBlock.update in *.
  cbn [BeeProtectRegionBlock._start_addr BeeProtectRegionBlock._end_addr
       BeeProtectRegionBlock.mode BeeProtectRegionBlock.lock_options
       BeeProtectRegionBlock.counter BeeProtectRegionBlock.fac_regions] in *.
  now rewrite E1, E2.
Qed.

(** * The claims *)

(** C5 — FacRegion alignment rule.  Constructing a FacRegion whose start and
    length are both misaligned to 1024 bytes fails with an [SPSDKError]
    (the format error of the module), whatever the other fields; when at
    least one of the two is a multiple of 1024 and the other invariants
    hold ([0 <= start < start + length <= 0xFFFFFFFF], protected level in
    [0, 3]), construction and validation succeed. *)
Theorem C5_fac_alignment (start len level : Z) :
  (start mod 1024 <> 0 /\ len mod 1024 <> 0 ->
   exists msg,
     BeeFacRegion.init start len level = Err (SPSDKError msg)
     /\ BeeFacRegion.validate (BeeFacRegion.mk start len level)
        = Err (SPSDKError msg))
  /\ (start mod 1024 = 0 \/ len mod 1024 = 0 ->
      0 <= start < start + len -> start + len <= 0xFFFFFFFF -> 0 <= level <= 3 ->
      BeeFacRegion.init start len level = Ok (BeeFacRegion.mk start len level)
      /\ BeeFacRegion.validate (BeeFacRegion.mk start len level) = Ok tt).
Proof.
  split.
  - intros [Hs Hl]. exists "Invalid configuration of the instance"%string.
    unfold BeeFacRegion.init, BeeFacRegion.validate.
    cbn [BeeFacRegion.start_addr BeeFacRegion.length]. rewrite !mask_is_mod.
    replace (negb (start mod 1024 =? 0) && negb (len mod 1024 =? 0)) with true
      by lia.
    split; reflexivity.
  - intros Hal Hs He Hl.
    assert (Hv : BeeFacRegion.validate (BeeFacRegion.mk start len level) = Ok tt).
    { apply fac_validate_Ok. unfold BeeFacRegion.end_addr.
      cbn [BeeFacRegion.start_addr BeeFacRegion.length BeeFacRegion.protected_level].
      lia. }
    split; [|exact Hv]. unfold BeeFacRegion.init. now rewrite Hv.
Qed.

(** The two inputs named by the claim: start = 0x1001 with length = 0x1001
    fails, start = 0x1000 with length = 0x1001 succeeds. *)
Lemma C5_fac_alignment_witness :
  (exists msg, BeeFacRegion.init 0x1001 0x1001 0 = Err (SPSDKError msg))
  /\ BeeFacRegion.init 0x1000 0x1001 0 = Ok (BeeFacRegion.mk 0x1000 0x1001 0).
Proof.
  split.
  - destruct (proj1 (C5_fac_alignment 0x1001 0x1001 0)) as (msg & Hi & _).
    + split; vm_compute; discriminate.
    + exists msg. exact Hi.
  - apply (proj2 (C5_fac_alignment 0x1000 0x1001 0)).
    + left. reflexivity.
    + lia.
    + lia.
    + lia.
Defined.

Section Codecs.
Context `{cb : CryptoBackend} {laws : CryptoBackendLaws cb}.

(** C1 — Round-trip of the binary codecs.  For every valid FacRegion,
    KeyInfoBlock, PRDB and RegionHeader (one that [validate] accepts; the
    lock options are a 32-bit number), the export succeeds and parsing the
    exported bytes (a header with its own software key) gives back the
    object.  [export] updates a PRDB in place before it packs it, so the
    comparison is with the object as [export] leaves it; that is the
    original object whenever its addresses were the derived ones. *)
Theorem C1_codec_roundtrip :
  (forall fac : BeeFacRegion.t,
      BeeFacRegion.validate fac = Ok tt ->
      exists b, BeeFacRegion.export fac = Ok b
                /\ BeeFacRegion.parse b 0 = Ok fac)
  /\ (forall (kib : BeeKIB.t) (g : rng),
      BeeKIB.validate kib = Ok tt ->
      exists b, BeeKIB.export kib = Ok b
                /\ BeeKIB.parse b 0 g = Ok (kib, g))
  /\ (forall (p : BeeProtectRegionBlock.t) (g : rng),
      BeeProtectRegionBlock.validate p = Ok tt ->
      u32 (BeeProtectRegionBlock.lock_options p) ->
      exists b p',
        BeeProtectRegionBlock.export p = (p', Ok b)
        /\ BeeProtectRegionBlock.parse b 0 g = Ok (p', g)
        /\ (derived_addresses p -> p' = p))
  /\ (forall (h : BeeRegionHeader.t) (g : rng),
      BeeRegionHeader.validate h = Ok tt ->
      u32 (BeeProtectRegionBlock.lock_options (BeeRegionHeader._prdb h)) ->
      exists b h',
        BeeRegionHeader.export h = (h', Ok b)
        /\ BeeRegionHeader.parse b 0 (BeeRegionHeader._sw_key h) g = Ok (h', g)
        /\ (derived_addresses (BeeRegionHeader._prdb h) -> h' = h)).
Proof.
  repeat split.
  - intros fac Hv. destruct (fac_export_total fac Hv) as [b Hb].
    exists b. split; [exact Hb|].
    rewrite <- (app_nil_r b). exact (fac_parse_export fac b [] [] Hb).
  - intros kib g Hv. exists (BeeKIB.kib_key kib ++ BeeKIB.kib_iv kib).
    pose proof (kib_export_Ok kib Hv) as He. split; [exact He|].
    now apply kib_parse_export.
  - intros p g Hv Hlock.
    destruct (prdb_export_total p (prdb_validate_update p Hv) Hlock) as (b & Hb & _).
    exists b, (BeeProtectRegionBlock.update p). repeat split.
    + unfold BeeProtectRegionBlock.export in *. cbn [snd] in Hb. now rewrite Hb.
    + now apply prdb_parse_export.
    + now apply update_id_derived.
  - intros h g Hv Hlock.
    apply header_validate_Ok in Hv as (Hk & Hp & Hs).
    assert (Hv' : BeeRegionHeader.validate (BeeRegionHeader.update h) = Ok tt).
    { apply header_validate_Ok. repeat split; try assumption.
      now apply prdb_validate_update. }
    destruct (header_parse_export h g Hv' Hlock) as (b & He & _ & Hparse).
    exists b, (BeeRegionHeader.update h). repeat split; try assumption.
    intros Hd. unfold BeeRegionHeader.update.
    rewrite (update_id_derived _ Hp Hd). now destruct h.
Qed.

(** C3 — RegionHeader wire layout.  The export of a valid RegionHeader is
    512 bytes long: bytes [0:32] are the AES-ECB encryption under the
    software key of the 32-byte KIB encoding, bytes [32:128] are zero,
    bytes [128:384] are the AES-CBC encryption under the KIB key and IV of
    the 256-byte PRDB encoding, and bytes [384:512] are zero. *)
Theorem C3_header_layout (h : BeeRegionHeader.t) :
  BeeRegionHeader.validate h = Ok tt ->
  u32 (BeeProtectRegionBlock.lock_options (BeeRegionHeader._prdb h)) ->
  exists b kib_data prdb_data,
    snd (BeeRegionHeader.export h) = Ok b
    /\ length b = 512%nat
    /\ BeeKIB.export (BeeRegionHeader._kib h) = Ok kib_data
    /\ length kib_data = 32%nat
    /\ snd (BeeProtectRegionBlock.export (BeeRegionHeader._prdb h)) = Ok prdb_data
    /\ length prdb_data = 256%nat
    /\ slice 0 32 b = aes_ecb_encrypt (BeeRegionHeader._sw_key h) kib_data
    /\ slice 32 128 b = zeros 96
    /\ slice 128 384 b
       = aes_cbc_encrypt (BeeKIB.kib_key (BeeRegionHeader._kib h))
                         (BeeKIB.kib_iv (BeeRegionHeader._kib h)) prdb_data
    /\ slice 384 512 b = zeros 128.
Proof.
  intros Hv Hlock.
  apply header_validate_Ok in Hv as (Hk & Hp & Hs).
  assert (Hv' : BeeRegionHeader.validate (BeeRegionHeader.update h) = Ok tt).
  { apply header_validate_Ok. repeat split; try assumption.
    now apply prdb_validate_update. }
  destruct (header_export_Ok h Hv' Hlock) as (kd & pd & Hke & Hkdl & Hpd & Hpl & He).
  pose proof (proj1 (kib_validate_Ok _) Hk) as [Hkl Hil].
  assert (Hel : length (aes_ecb_encrypt (BeeRegionHeader._sw_key h) kd) = 32%nat)
    by (rewrite ecb_encrypt_length; [assumption | assumption | now rewrite Hkdl]).
  assert (Hcl : length (aes_cbc_encrypt (BeeKIB.kib_key (BeeRegionHeader._kib h))
                          (BeeKIB.kib_iv (BeeRegionHeader._kib h)) pd) = 256%nat)
    by (rewrite cbc_encrypt_length;
        [assumption | assumption | assumption | now rewrite Hpl]).
  eexists _, kd, pd.
  rewrite He. cbn [snd].
  repeat split; try assumption.
  - rewrite !length_app, !zeros_length, Hel, Hcl. reflexivity.
  - now apply slice_app_head.
  - apply slice_app_mid; [assumption | now rewrite zeros_length].
  - rewrite app_assoc.
    apply slice_app_mid;
      [now rewrite length_app, zeros_length, Hel | now rewrite Hcl].
  - rewrite app_assoc, (app_assoc (_ ++ zeros 96)).
    rewrite <- (app_nil_r (zeros 128)) at 1.
    apply slice_app_mid;
      [now rewrite !length_app, zeros_length, Hel, Hcl | now rewrite zeros_length].
Qed.

End Codecs.

(** The stand-in header round-trips and has the stated layout. *)
Lemma C1_codec_roundtrip_witness :
  exists b,
    @BeeRegionHeader.export Toy.backend Toy.header = (Toy.header, Ok b)
    /\ @BeeRegionHeader.parse Toy.backend b 0 Toy.key16 Toy.tape0
       = Ok (Toy.header, Toy.tape0).
Proof.
  destruct (@C1_codec_roundtrip Toy.backend toy_laws) as (_ & _ & _ & Hh).
  destruct (Hh Toy.header Toy.tape0) as (b & h' & He & Hp & Hd).
  - vm_compute. reflexivity.
  - vm_compute. split; discriminate.
  - assert (E : h' = Toy.header).
    { apply Hd. vm_compute. repeat split.
      - apply elem_of_cons. now left.
      - repeat constructor; discriminate.
      - apply elem_of_cons. right. apply elem_of_cons. now left.
      - repeat constructor; discriminate. }
    subst h'. exists b. split; assumption.
Defined.

Lemma C3_header_layout_witness :
  exists b, snd (@BeeRegionHeader.export Toy.backend Toy.header) = Ok b
            /\ length b = 512%nat /\ slice 32 128 b = zeros 96.
Proof.
  destruct (@C3_header_layout Toy.backend toy_laws Toy.header)
    as (b & kd & pd & He & Hl & _ & _ & _ & _ & _ & Hz & _).
  - vm_compute. reflexivity.
  - vm_compute. split; discriminate.
  - exists b. repeat split; assumption.
Defined.

(** The counter field of an exported PRDB. *)
Lemma prdb_export_counter_field (p : BeeProtectRegionBlock.t) (b : bytes) :
  snd (BeeProtectRegionBlock.export p) = Ok b ->
  slice 32 48 b = reverse (BeeProtectRegionBlock.counter p).
Proof.
  intros He. unfold BeeProtectRegionBlock.export in He. cbn [snd] in He.
  remember (BeeProtectRegionBlock.update p) as q eqn:Hq.
  assert (Hcq : BeeProtectRegionBlock.counter q = BeeProtectRegionBlock.counter p)
    by now subst q.
  inv_bind He. rename a0 into hdr, a1 into out.
  inversion He; subst b; clear He.
  match goal with Hs : BeeProtectRegionBlock.validate q = Ok _ |- _ =>
    apply prdb_validate_unit, prdb_validate_Ok in Hs;
    destruct Hs as [_ _ _ Hcnt _ _ _] end.
  match goal with Hs : BeeProtectRegionBlock.export_facs _ _ = Ok out |- _ =>
    destruct (export_facs_spec _ _ _ Hs) as (bs & -> & _ & _) end.
  match goal with Hs : pack _ _ = Ok hdr |- _ => rename Hs into Hpack end.
  unfold extend_block. rewrite <- app_assoc.
  pose proof (unpack_pack_items _ _ _ _
                (bs ++ zeros (BeeProtectRegionBlock.SIZE - length (hdr ++ bs))) Hpack) as Hu.
  cbn [BeeProtectRegionBlock._FORMAT items order unpack_items] in Hu.
  rewrite !drop_drop in Hu. cbn [Nat.add] in Hu.
  assert (Hfit : Forall2 fits
            [fmt_I; fmt_I; fmt_I; fmt_I; fmt_I; fmt_I; fmt_I; fmt_I; fmt_s 16; fmt_s 32]
            [VInt BeeProtectRegionBlock.TAGL; VInt BeeProtectRegionBlock.TAGH;
             VInt BeeProtectRegionBlock.VERSION;
             VInt (Z.of_nat (BeeProtectRegionBlock.fac_count q));
             VInt (BeeProtectRegionBlock._start_addr q);
             VInt (BeeProtectRegionBlock._end_addr q);
             VInt (BeeProtectRegionBlock.mode q);
             VInt (BeeProtectRegionBlock.lock_options q);
             VBytes (reverse (BeeProtectRegionBlock.counter q)); VBytes (zeros 32)]).
  { repeat constructor. simpl. now rewrite length_reverse. }
  specialize (Hu Hfit). injection Hu as _ _ _ _ _ _ _ _ Hc _.
  unfold slice. change (48 - 32)%nat with 16%nat. rewrite Hc, Hcq. reflexivity.
Qed.

(** C6 — Counter wire quirk.  The export of a valid PRDB holds the 16-byte
    counter in reversed byte order in bytes [32:48) of the 256-byte
    encoding, and parsing reverses it back: the parsed PRDB has the
    original counter. *)
Theorem C6_counter_wire_quirk (p : BeeProtectRegionBlock.t) (g : rng) :
  BeeProtectRegionBlock.validate p = Ok tt ->
  u32 (BeeProtectRegionBlock.lock_options p) ->
  exists b q,
    snd (BeeProtectRegionBlock.export p) = Ok b
    /\ length b = 256%nat
    /\ slice 32 48 b = reverse (BeeProtectRegionBlock.counter p)
    /\ BeeProtectRegionBlock.parse b 0 g = Ok (q, g)
    /\ BeeProtectRegionBlock.counter q = BeeProtectRegionBlock.counter p.
Proof.
  intros Hv Hlock.
  destruct (prdb_export_total p (prdb_validate_update p Hv) Hlock) as (b & Hb & Hl).
  exists b, (BeeProtectRegionBlock.update p).
  repeat split; try assumption.
  - now apply prdb_export_counter_field.
  - now apply prdb_parse_export.
Qed.

(** The counter 01 02 .. 0c 00 00 00 00 is stored as 00 00 00 00 0c .. 02 01. *)
Lemma C6_counter_wire_quirk_witness :
  exists b q,
    snd (BeeProtectRegionBlock.export Toy.prdb) = Ok b
    /\ slice 32 48 b
       = [x00; x00; x00; x00; x0c; x0b; x0a; x09; x08; x07; x06; x05; x04; x03; x02; x01]
    /\ BeeProtectRegionBlock.parse b 0 Toy.tape0 = Ok (q, Toy.tape0)
    /\ BeeProtectRegionBlock.counter q = Toy.counter16.
Proof.
  destruct (C6_counter_wire_quirk Toy.prdb Toy.tape0)
    as (b & q & He & _ & Hs & Hp & Hc).
  - vm_compute. reflexivity.
  - vm_compute. split; discriminate.
  - exists b, q. repeat split; assumption.
Defined.

(** The fuse values of a 16-byte key, computed. *)
Lemma sw_key_fuses_bytes (h : BeeRegionHeader.t)
  (b0 b1 b2 b3 b4 b5 b6 b7 b8 b9 b10 b11 b12 b13 b14 b15 : byte) :
  BeeRegionHeader._sw_key h
  = [b0; b1; b2; b3; b4; b5; b6; b7; b8; b9; b10; b11; b12; b13; b14; b15] ->
  BeeRegionHeader.sw_key_fuses h
  = Ok [be_word [b12; b13; b14; b15]; be_word [b8; b9; b10; b11];
        be_word [b4; b5; b6; b7]; be_word [b0; b1; b2; b3]].
Proof.
  intros Hk. unfold BeeRegionHeader.sw_key_fuses. rewrite Hk.
  cbn [BeeRegionHeader.sw_key_fuses_loop].
  unfold BeeRegionHeader.unpack_be_word, unpack_from, slice.
  cbn [Nat.sub take drop firstn skipn length calcsize calcsize_items items
       item_size foldr order unpack_items int_from_bytes].
  change (Z.of_nat 4 - Z.of_nat 0 <? Z.of_nat (4 + 0)) with false.
  cbv beta iota. rewrite !bind_Ok_l. cbn [app]. do 2 f_equal;
    [|f_equal; [|f_equal; [|f_equal]]];
    unfold be_word; cbn [reverse rev_append le_combine fold_left]; lia.
Qed.

Lemma be_word_u32 (a b c d : byte) : u32 (be_word [a; b; c; d]).
Proof.
  unfold u32, be_word. cbn [fold_left].
  pose proof (byte_to_Z_range a). pose proof (byte_to_Z_range b).
  pose proof (byte_to_Z_range c). pose proof (byte_to_Z_range d). lia.
Qed.

(** C7 — Fuse derivation.  For a RegionHeader with a 16-byte software key,
    [sw_key_fuses] returns exactly four 32-bit values: the big-endian words
    of the key from the highest offset down, bytes 12-15 first, then 8-11,
    4-7 and 0-3. *)
Theorem C7_sw_key_fuses (h : BeeRegionHeader.t) :
  length (BeeRegionHeader._sw_key h) = 16%nat ->
  let k := BeeRegionHeader._sw_key h in
  BeeRegionHeader.sw_key_fuses h
  = Ok [be_word (slice 12 16 k); be_word (slice 8 12 k);
        be_word (slice 4 8 k); be_word (slice 0 4 k)]
  /\ u32 (be_word (slice 12 16 k)) /\ u32 (be_word (slice 8 12 k))
  /\ u32 (be_word (slice 4 8 k)) /\ u32 (be_word (slice 0 4 k)).
Proof.
  intros Hl k. subst k.
  destruct (BeeRegionHeader._sw_key h) as [|b0 [|b1 [|b2 [|b3 [|b4 [|b5 [|b6 [|b7
    [|b8 [|b9 [|b10 [|b11 [|b12 [|b13 [|b14 [|b15 [|]]]]]]]]]]]]]]]]] eqn:Hk;
    try discriminate Hl.
  unfold slice. cbn [Nat.sub take drop firstn skipn].
  split; [now apply sw_key_fuses_bytes|].
  repeat split; apply be_word_u32.
Qed.

(** The key 00 01 .. 0f gives 0x0C0D0E0F, 0x08090A0B, 0x04050607,
    0x00010203. *)
Lemma C7_sw_key_fuses_witness :
  BeeRegionHeader.sw_key_fuses Toy.header
  = Ok [0x0C0D0E0F; 0x08090A0B; 0x04050607; 0x00010203].
Proof.
  destruct (C7_sw_key_fuses Toy.header) as [Hf _].
  - reflexivity.
  - rewrite Hf. reflexivity.
Defined.

(** ** Block encryption *)

Section EncryptBlock.
Context `{cb : CryptoBackend}.

Lemma encrypt_block_facs_outside (p : BeeProtectRegionBlock.t) (key : bytes)
  (start_addr : Z) (data : bytes) (g : rng) (facs : list BeeFacRegion.t) :
  Forall (fun fac => ~ in_region start_addr fac) facs ->
  BeeProtectRegionBlock.encrypt_block_facs p key start_addr data g facs
  = Ok (data, g).
Proof.
  induction 1 as [|fac facs Hout _ IH]; cbn [BeeProtectRegionBlock.encrypt_block_facs];
    [reflexivity|].
  unfold in_region in Hout.
  replace ((BeeFacRegion.start_addr fac <=? start_addr)
           && (start_addr <? BeeFacRegion.end_addr fac)) with false by lia.
  exact IH.
Qed.

Lemma length_check_Ok (data : bytes) (e : exn) :
  (length data <= 1024)%nat ->
  raise_if (Z.of_nat (length data) >? BEE_ENCR_BLOCK_SIZE) e = Ok tt.
Proof.
  intros Hl. unfold BEE_ENCR_BLOCK_SIZE.
  replace (Z.of_nat (length data) >? 0x400) with false by lia. reflexivity.
Qed.

(** A block that starts in none of the regions comes back untouched, given
    the CTR mode and a 16-byte key. *)
Lemma encrypt_block_outside (p : BeeProtectRegionBlock.t) (key : bytes)
  (start_addr : Z) (data : bytes) (g : rng) :
  BeeProtectRegionBlock.mode p = BeeProtectRegionBlockAesMode.CTR ->
  length key = 16%nat -> (length data <= 1024)%nat ->
  Forall (fun fac => ~ in_region start_addr fac)
         (BeeProtectRegionBlock.fac_regions p) ->
  BeeProtectRegionBlock.encrypt_block p key start_addr data g = Ok (data, g).
Proof.
  intros Hm Hk Hl Hout. unfold BeeProtectRegionBlock.encrypt_block.
  rewrite length_check_Ok, bind_Ok_l by assumption.
  destruct (BeeProtectRegionBlock.is_inside_region p start_addr); [|reflexivity].
  rewrite Hm, Z.eqb_refl, Hk. cbn [negb Nat.eqb].
  rewrite !raise_if_false, !bind_Ok_l. now apply encrypt_block_facs_outside.
Qed.

(** C2 — Pass-through outside FAC regions.  For a valid PRDB (its mode is
    CTR), a 16-byte key and a block of at most 1024 bytes whose start
    address lies in none of the PRDB's FAC regions, [encrypt_block] returns
    the block unchanged, and so does every further call on the result. *)
Theorem C2_pass_through (p : BeeProtectRegionBlock.t) (key : bytes)
  (start_addr : Z) (data : bytes) (g : rng) :
  BeeProtectRegionBlock.validate p = Ok tt ->
  length key = 16%nat -> (length data <= 1024)%nat ->
  Forall (fun fac => ~ in_region start_addr fac)
         (BeeProtectRegionBlock.fac_regions p) ->
  BeeProtectRegionBlock.encrypt_block p key start_addr data g = Ok (data, g)
  /\ forall n, encrypt_block_repeat n p key start_addr data g = Ok (data, g).
Proof.
  intros Hv Hk Hl Hout. apply prdb_validate_Ok in Hv as [_ _ Hm _ _ _ _].
  pose proof (encrypt_block_outside p key start_addr data g Hm Hk Hl Hout) as He.
  split; [exact He|].
  induction n as [|n IH]; cbn [encrypt_block_repeat]; [reflexivity|].
  rewrite He, bind_Ok_l. exact IH.
Qed.

(** C9 — The membership test of [encrypt_block] is the span from the least
    region start to the greatest region end, not membership in a region.
    For a PRDB with derived addresses and a block of at most 1024 bytes:
    at a start address within the span (at or after some region's start
    and before some region's end, be it in a gap between regions) a mode
    other than CTR or a key that is not 16 bytes long raises an error; at
    a start address before every region or at or after every region's end
    the block comes back unchanged, whatever the key and the mode. *)
Theorem C9_span_membership (p : BeeProtectRegionBlock.t) (key : bytes)
  (start_addr : Z) (data : bytes) (g : rng) :
  derived_addresses p -> (length data <= 1024)%nat ->
  ((exists fac, fac ∈ BeeProtectRegionBlock.fac_regions p
                /\ BeeFacRegion.start_addr fac <= start_addr) ->
   (exists fac, fac ∈ BeeProtectRegionBlock.fac_regions p
                /\ start_addr < BeeFacRegion.end_addr fac) ->
   BeeProtectRegionBlock.mode p <> BeeProtectRegionBlockAesMode.CTR
   \/ length key <> 16%nat ->
   exists msg,
     BeeProtectRegionBlock.encrypt_block p key start_addr data g
     = Err (SPSDKError msg))
  /\ ((forall fac, fac ∈ BeeProtectRegionBlock.fac_regions p ->
                   start_addr < BeeFacRegion.start_addr fac)
      \/ (forall fac, fac ∈ BeeProtectRegionBlock.fac_regions p ->
                      BeeFacRegion.end_addr fac <= start_addr) ->
      BeeProtectRegionBlock.encrypt_block p key start_addr data g = Ok (data, g)).
Proof.
  intros [[Hsin Hsall] [Hein Heall]] Hl.
  rewrite Forall_fmap, Forall_forall in Hsall, Heall.
  apply list_elem_of_fmap in Hsin as (fs & Hfs & Hfsin).
  apply list_elem_of_fmap in Hein as (fe & Hfe & Hfein).
  unfold BeeProtectRegionBlock.encrypt_block.
  rewrite length_check_Ok, bind_Ok_l by assumption.
  unfold BeeProtectRegionBlock.is_inside_region. split.
  - intros (f1 & Hf1 & Hlo) (f2 & Hf2 & Hhi) Hbad.
    specialize (Hsall _ Hf1). specialize (Heall _ Hf2).
    unfold compose in Hsall, Heall.
    replace ((BeeProtectRegionBlock._start_addr p <=? start_addr)
             && (start_addr <? BeeProtectRegionBlock._end_addr p)) with true by lia.
    destruct (Z.eqb_spec (BeeProtectRegionBlock.mode p)
                         BeeProtectRegionBlockAesMode.CTR) as [Hm | Hm].
    + destruct Hbad as [Hbad | Hbad]; [contradiction|].
      destruct (Nat.eqb_spec (length key) 16) as [Hk | Hk]; [contradiction|].
      cbn [negb raise_if]. rewrite bind_Ok_l. eauto.
    + cbn [negb raise_if]. eauto.
  - intros [Hbefore | Hafter].
    + specialize (Hbefore _ Hfsin).
      replace ((BeeProtectRegionBlock._start_addr p <=? start_addr)
               && (start_addr <? BeeProtectRegionBlock._end_addr p)) with false by lia.
      reflexivity.
    + specialize (Hafter _ Hfein).
      replace ((BeeProtectRegionBlock._start_addr p <=? start_addr)
               && (start_addr <? BeeProtectRegionBlock._end_addr p)) with false by lia.
      reflexivity.
Qed.

End EncryptBlock.

Lemma toy_prdb_derived : derived_addresses Toy.prdb.
Proof.
  apply (update_derived
           (BeeProtectRegionBlock.mk 0 0 BeeProtectRegionBlockAesMode.CTR 7
                                     Toy.counter16 [Toy.fac1; Toy.fac2])).
  - discriminate.
  - repeat constructor.
Qed.

(** A block at 0x3000, past both stand-in regions, passes through, once
    and three times over. *)
Lemma C2_pass_through_witness :
  @BeeProtectRegionBlock.encrypt_block Toy.backend Toy.prdb Toy.key16 0x3000
     [x01; x02] Toy.tape0 = Ok ([x01; x02], Toy.tape0)
  /\ @encrypt_block_repeat Toy.backend 3 Toy.prdb Toy.key16 0x3000
       [x01; x02] Toy.tape0 = Ok ([x01; x02], Toy.tape0).
Proof.
  destruct (@C2_pass_through Toy.backend Toy.prdb Toy.key16 0x3000 [x01; x02]
              Toy.tape0) as [H1 Hn].
  - vm_compute. reflexivity.
  - reflexivity.
  - simpl. lia.
  - repeat constructor; unfold in_region; vm_compute; intros [? ?]; congruence.
  - split; [exact H1 | exact (Hn 3%nat)].
Defined.

(** The address 0x1800 lies in the gap between the stand-in regions: in no
    region, yet an empty key raises an error there, while at 0x3000 the
    block passes through with the same empty key. *)
Lemma C9_span_membership_witness :
  Forall (fun fac => ~ in_region 0x1800 fac)
         (BeeProtectRegionBlock.fac_regions Toy.prdb)
  /\ (exists msg,
        @BeeProtectRegionBlock.encrypt_block Toy.backend Toy.prdb [] 0x1800
           [x01] Toy.tape0 = Err (SPSDKError msg))
  /\ @BeeProtectRegionBlock.encrypt_block Toy.backend Toy.prdb [] 0x3000
       [x01] Toy.tape0 = Ok ([x01], Toy.tape0).
Proof.
  split; [repeat constructor; unfold in_region; vm_compute; intros [? ?]; congruence|].
  split.
  - apply (proj1 (@C9_span_membership Toy.backend Toy.prdb [] 0x1800 [x01]
                    Toy.tape0 toy_prdb_derived ltac:(simpl; lia))).
    + exists Toy.fac1. split; [apply elem_of_cons; now left | vm_compute; discriminate].
    + exists Toy.fac2. split; [apply elem_of_cons; right; apply elem_of_cons; now left
                             | vm_compute; reflexivity].
    + right. simpl. lia.
  - apply (proj2 (@C9_span_membership Toy.backend Toy.prdb [] 0x3000 [x01]
                    Toy.tape0 toy_prdb_derived ltac:(simpl; lia))).
    right. intros fac Hin.
    apply elem_of_cons in Hin as [-> | Hin]; [vm_compute; discriminate|].
    apply elem_of_cons in Hin as [-> | Hin]; [vm_compute; discriminate|].
    apply elem_of_nil in Hin. contradiction.
Defined.

(** ** Overlaps *)

(** [check_overlaps_regions] raises, and then an overlap error, exactly
    when the address lies in one of the regions. *)
Lemma check_overlaps_regions_spec (regions : list BeeFacRegion.t) (start_addr : Z) :
  (BeeNxp.check_overlaps_regions regions start_addr = Err SPSDKOverlapError
   /\ exists r, r ∈ regions /\ in_region start_addr r)
  \/ (BeeNxp.check_overlaps_regions regions start_addr = Ok tt
      /\ Forall (fun r => ~ in_region start_addr r) regions).
Proof.
  induction regions as [|r regions IH]; cbn [BeeNxp.check_overlaps_regions].
  - right. split; [reflexivity | constructor].
  - destruct ((BeeFacRegion.start_addr r <=? start_addr)
              && (start_addr <? BeeFacRegion.end_addr r)) eqn:E.
    + left. split; [reflexivity|]. exists r.
      split; [apply elem_of_cons; now left | unfold in_region; lia].
    + destruct IH as [(He & r' & Hin & Hr) | (Ho & Hall)].
      * left. split; [exact He|]. exists r'.
        split; [apply elem_of_cons; now right | exact Hr].
      * right. split; [exact Ho|]. constructor; [unfold in_region; lia | exact Hall].
Qed.

Lemma check_overlaps_spec (st : BeeNxp.store) (hs : list BeeNxp.header)
  (start_addr : Z) :
  (BeeNxp.check_overlaps st hs start_addr = Err SPSDKOverlapError
   /\ exists h r, h ∈ hs /\ r ∈ BeeNxp.fac_regions st h /\ in_region start_addr r)
  \/ (BeeNxp.check_overlaps st hs start_addr = Ok tt
      /\ forall h r, h ∈ hs -> r ∈ BeeNxp.fac_regions st h ->
                     ~ in_region start_addr r).
Proof.
  induction hs as [|h hs IH]; cbn [BeeNxp.check_overlaps].
  - right. split; [reflexivity|]. intros h r Hin. now apply elem_of_nil in Hin.
  - destruct (check_overlaps_regions_spec (BeeNxp.fac_regions st h) start_addr)
      as [(He & r & Hin & Hr) | (Ho & Hall)].
    + left. rewrite He. split; [reflexivity|]. exists h, r.
      split; [apply elem_of_cons; now left | split; assumption].
    + rewrite Ho, bind_Ok_l.
      destruct IH as [(He & h' & r & Hh & Hin & Hr) | (Ho' & Hall')].
      * left. split; [exact He|]. exists h', r.
        split; [apply elem_of_cons; now right | split; assumption].
      * right. split; [exact Ho'|]. intros h' r Hh Hin.
        apply elem_of_cons in Hh as [-> | Hh]; [|now apply (Hall' h' r)].
        rewrite Forall_forall in Hall. now apply Hall.
Qed.

(** C4 — Overlap rejection.  Adding a FacRegion to the header of any engine
    raises the overlap error if and only if the start address of the new
    region lies within a FAC region already registered on the header of
    some engine; in particular, once the region [0x1000, 0x1400) has been
    registered, adding a region that starts at 0x1200 raises the overlap
    error whichever engine it targets. *)
Theorem C4_overlap_rejection (st : BeeNxp.store) (hs : list BeeNxp.header)
  (engine_idx : nat) (fac : BeeFacRegion.t) :
  (BeeNxp.add_fac_region st hs engine_idx fac = Err SPSDKOverlapError
   <-> exists h r, h ∈ hs /\ r ∈ BeeNxp.fac_regions st h
                   /\ in_region (BeeFacRegion.start_addr fac) r)
  /\ (forall (engine_idx0 : nat) (fac0 : BeeFacRegion.t) (st' : BeeNxp.store),
        BeeFacRegion.start_addr fac0 = 0x1000 ->
        BeeFacRegion.length fac0 = 0x400 ->
        BeeNxp.add_fac_region st hs engine_idx0 fac0 = Ok st' ->
        BeeFacRegion.start_addr fac = 0x1200 ->
        BeeNxp.add_fac_region st' hs engine_idx fac = Err SPSDKOverlapError).
Proof.
  assert (Hiff : forall st0 idx f,
    BeeNxp.add_fac_region st0 hs idx f = Err SPSDKOverlapError
    <-> exists h r, h ∈ hs /\ r ∈ BeeNxp.fac_regions st0 h
                    /\ in_region (BeeFacRegion.start_addr f) r).
  { intros st0 idx f. unfold BeeNxp.add_fac_region.
    destruct (check_overlaps_spec st0 hs (BeeFacRegion.start_addr f))
      as [(He & Hex) | (Ho & Hall)].
    - rewrite He. split; [intros _; exact Hex | reflexivity].
    - rewrite Ho, bind_Ok_l. unfold BeeNxp.header_add_fac. split.
      + destruct (hs !! idx); discriminate.
      + intros (h & r & Hh & Hin & Hr). exfalso. exact (Hall h r Hh Hin Hr). }
  split; [apply Hiff|].
  intros idx0 fac0 st' Hs0 Hl0 Hadd Hs. apply Hiff.
  unfold BeeNxp.add_fac_region in Hadd. inv_bind Hadd.
  unfold BeeNxp.header_add_fac in Hadd.
  destruct (hs !! idx0) as [h|] eqn:Hh; [|discriminate].
  inversion Hadd; subst st'; clear Hadd.
  exists h, fac0. split; [now apply list_elem_of_lookup_2 in Hh|]. split.
  - unfold BeeNxp.fac_regions, BeeNxp.deref, BeeRegionHeader.fac_regions,
      BeeNxp.store_set.
    cbn [BeeRegionHeader._prdb BeeNxp.prdb_at]. rewrite Nat.eqb_refl.
    unfold BeeProtectRegionBlock.add_fac. rewrite prdb_update_fac_regions. cbn [BeeProtectRegionBlock.fac_regions].
    apply elem_of_app. right. apply elem_of_cons; now left.
  - unfold in_region, BeeFacRegion.end_addr. lia.
Qed.

(** With the two stand-in engines sharing one PRDB, registering
    [0x1000, 0x1400) on engine 0 makes a region that starts at 0x1200
    overlap on engine 1. *)
Lemma C4_overlap_rejection_witness :
  exists st',
    BeeNxp.add_fac_region Toy.store0 Toy.headers2 0 Toy.fac1 = Ok st'
    /\ BeeNxp.add_fac_region st' Toy.headers2 1 (BeeFacRegion.mk 0x1200 0x400 0)
       = Err SPSDKOverlapError.
Proof.
  destruct (BeeNxp.add_fac_region Toy.store0 Toy.headers2 0 Toy.fac1) as [st'|e] eqn:E;
    [|vm_compute in E; discriminate E].
  exists st'. split; [reflexivity|].
  apply (proj2 (C4_overlap_rejection Toy.store0 Toy.headers2 1
                  (BeeFacRegion.mk 0x1200 0x400 0)) 0%nat Toy.fac1 st');
    try reflexivity. exact E.
Defined.

(** ** Parsing a PRDB *)

Lemma parse_facs_as_list (n : nat) (data : bytes) (offset : nat)
  (p : BeeProtectRegionBlock.t) :
  BeeProtectRegionBlock.parse_facs n data offset p
  = (facs ← parse_fac_list n data offset;
     Ok (fold_left BeeProtectRegionBlock.add_fac facs p)).
Proof.
  revert offset p; induction n as [|n IH]; intros offset p;
    cbn [BeeProtectRegionBlock.parse_facs parse_fac_list]; [reflexivity|].
  destruct (BeeFacRegion.parse data offset) as [fac|e]; [|reflexivity].
  rewrite !bind_Ok_l, IH.
  destruct (parse_fac_list n data _) as [facs|e]; reflexivity.
Qed.

(** A region parser looks at the length of the data and at the bytes from
    its offset on. *)
Lemma fac_parse_ext (data data' : bytes) (offset : nat) :
  length data = length data' -> drop offset data = drop offset data' ->
  BeeFacRegion.parse data offset = BeeFacRegion.parse data' offset.
Proof.
  intros Hl Hd. unfold BeeFacRegion.parse, BeeBaseClass_parse, unpack_from.
  now rewrite Hl, Hd.
Qed.

Lemma parse_fac_list_ext (n : nat) (data data' : bytes) (offset : nat) :
  length data = length data' -> drop offset data = drop offset data' ->
  parse_fac_list n data offset = parse_fac_list n data' offset.
Proof.
  intros Hl; revert offset; induction n as [|n IH]; intros offset Hd;
    cbn [parse_fac_list]; [reflexivity|].
  rewrite (fac_parse_ext data data' offset Hl Hd).
  rewrite (IH (offset + BeeFacRegion._size)%nat); [reflexivity|].
  rewrite <- !drop_drop. now rewrite Hd.
Qed.

Lemma fold_add_fac_regions (facs : list BeeFacRegion.t) (p : BeeProtectRegionBlock.t) :
  BeeProtectRegionBlock.fac_regions (fold_left BeeProtectRegionBlock.add_fac facs p)
  = BeeProtectRegionBlock.fac_regions p ++ facs.
Proof.
  revert p; induction facs as [|f facs IH]; intros p; cbn [fold_left].
  - now rewrite app_nil_r.
  - rewrite IH. unfold BeeProtectRegionBlock.add_fac.
    rewrite prdb_update_fac_regions. cbn [BeeProtectRegionBlock.fac_regions].
    now rewrite <- app_assoc.
Qed.

Lemma patch_addresses_length (data w : bytes) :
  (24 <= length data)%nat -> length w = 8%nat ->
  length (patch_addresses data w) = length data.
Proof.
  intros Hl Hw. unfold patch_addresses.
  rewrite !length_app, length_take, length_drop. lia.
Qed.

Lemma patch_addresses_before (data w : bytes) (k n : nat) :
  (24 <= length data)%nat -> (k + n <= 16)%nat ->
  take n (drop k (patch_addresses data w)) = take n (drop k data).
Proof.
  intros Hl Hk. unfold patch_addresses.
  rewrite drop_app_le by (rewrite length_take; lia).
  rewrite take_app_le by (rewrite length_drop, length_take; lia).
  rewrite <- (take_drop 16 data) at 2.
  rewrite drop_app_le by (rewrite length_take; lia).
  rewrite take_app_le by (rewrite length_drop, length_take; lia).
  reflexivity.
Qed.

Lemma patch_addresses_after (data w : bytes) (k : nat) :
  (24 <= length data)%nat -> length w = 8%nat -> (24 <= k)%nat ->
  drop k (patch_addresses data w) = drop k data.
Proof.
  intros Hl Hw Hk. unfold patch_addresses.
  rewrite app_assoc, drop_app_ge by (rewrite length_app, length_take; lia).
  rewrite length_app, length_take, drop_drop. f_equal. lia.
Qed.

(** C10 — PRDB parse discards the serialized [startAddr]/[endAddr].  If an
    encoding parses, so does the encoding with any other eight bytes in the
    place of the two address fields, and to the same PRDB: the values read
    from the wire are overwritten when the regions are added.  A parsed
    PRDB has at least one region and its addresses are the derived ones,
    the least region start and the greatest region end. *)
Theorem C10_parse_discards_wire_addresses (data w : bytes) (g g' : rng)
  (p : BeeProtectRegionBlock.t) :
  length w = 8%nat ->
  BeeProtectRegionBlock.parse data 0 g = Ok (p, g') ->
  BeeProtectRegionBlock.parse (patch_addresses data w) 0 g = Ok (p, g')
  /\ (1 <= BeeProtectRegionBlock.fac_count p)%nat
  /\ derived_addresses p.
Proof.
  intros Hw Hp.
  assert (Hlen : (256 <= length data)%nat).
  { unfold BeeProtectRegionBlock.parse in Hp.
    destruct (BeeBaseClass_parse _ _ _) eqn:Hb; [|discriminate].
    apply base_parse_inv in Hb. change BeeProtectRegionBlock._size with 256%nat in Hb.
    lia. }
  pose proof (patch_addresses_length data w ltac:(lia) Hw) as Hl'.
  pose proof (fun k n => patch_addresses_before data w k n ltac:(lia)) as HL1.
  pose proof (fun k => patch_addresses_after data w k ltac:(lia) Hw) as HL2.
  revert Hp. unfold BeeProtectRegionBlock.parse.
  rewrite !base_parse_Ok, !bind_Ok_l
    by (change BeeProtectRegionBlock._size with 256%nat; lia).
  unfold unpack_from. rewrite Hl'.
  destruct (_ <? _); [discriminate|]. rewrite !bind_Ok_l.
  cbn [BeeProtectRegionBlock._FORMAT items order unpack_items].
  rewrite !drop_drop, !drop_0. cbn [Nat.add].
  rewrite (HL1 4 4)%nat, (HL1 8 4)%nat, (HL1 12 4)%nat, (HL2 24)%nat,
    (HL2 28)%nat, (HL2 32)%nat, (HL2 48)%nat by lia.
  pose proof (HL1 0 4 ltac:(lia))%nat as HL0. rewrite !drop_0 in HL0. rewrite HL0.
  cbv beta iota. intros Hp. inv_bind Hp.
  unfold BeeProtectRegionBlock.init in *.
  rewrite truthy_nonempty in *
    by (rewrite length_reverse, length_take, length_drop; lia).
  cbn [default from_option id BeeProtectRegionBlock.mode
       BeeProtectRegionBlock.lock_options BeeProtectRegionBlock.counter
       BeeProtectRegionBlock.fac_regions] in *.
  change (0 + calcsize (Format LittleEndian
            [fmt_I; fmt_I; fmt_I; fmt_I; fmt_I; fmt_I; fmt_I; fmt_I; fmt_s 16; fmt_s 32]))%nat
    with 80%nat in *.
  rewrite parse_facs_as_list in *.
  rewrite (parse_fac_list_ext _ (patch_addresses data w) data 80 Hl' (HL2 80%nat ltac:(lia))).
  inv_bind Hp. rename a2 into res.
  match goal with Hs : parse_fac_list _ _ _ ≫= _ = Ok res |- _ =>
    rename Hs into Hfacs end.
  inv_bind Hfacs. rename a2 into facs.
  inversion Hfacs; subst res; clear Hfacs.
  inv_bind Hp. inversion Hp; subst p g'; clear Hp.
  match goal with Hs : BeeProtectRegionBlock.validate _ = Ok _ |- _ =>
    apply prdb_validate_unit in Hs; rename Hs into Hv end.
  pose proof (proj1 (prdb_validate_Ok _) Hv) as [_ _ _ _ _ Hn Hf].
  unfold BeeProtectRegionBlock.fac_count in *.
  rewrite fold_add_fac_regions in Hn, Hf.
  cbn [BeeProtectRegionBlock.fac_regions app] in Hn, Hf.
  assert (Hne : facs <> []) by (intros ->; simpl in Hn; lia).
  match goal with Hs : parse_fac_list _ _ _ = Ok facs |- _ =>
    change (calcsize BeeProtectRegionBlock._FORMAT) with 80%nat in Hs;
    rewrite !bind_Ok_l, Hs, !bind_Ok_l end.
  rewrite !prdb_fold_add_fac in * by exact Hne.
  cbn [BeeProtectRegionBlock.mode BeeProtectRegionBlock.lock_options
       BeeProtectRegionBlock.counter BeeProtectRegionBlock.fac_regions
       BeeProtectRegionBlock._start_addr BeeProtectRegionBlock._end_addr app] in *.
  match goal with
  | |- context [BeeProtectRegionBlock.validate (BeeProtectRegionBlock.update ?r')] =>
      match type of Hv with
      | BeeProtectRegionBlock.validate (BeeProtectRegionBlock.update ?r) = _ =>
          assert (E : BeeProtectRegionBlock.update r' = BeeProtectRegionBlock.update r)
            by (now apply prdb_update_ext)
      end
  end.
  rewrite E, Hv, bind_Ok_l. split; [reflexivity|]. split.
  - rewrite prdb_update_fac_regions. cbn [BeeProtectRegionBlock.fac_regions]. lia.
  - apply update_derived; cbn [BeeProtectRegionBlock.fac_regions]; assumption.
Qed.

(** The stand-in encoding parses to the same PRDB with 0xff in all eight
    bytes of the two address fields. *)
Lemma C10_parse_discards_wire_addresses_witness :
  BeeProtectRegionBlock.parse (patch_addresses Toy.prdb_bytes (replicate 8 xff)) 0
                              Toy.tape0 = Ok (Toy.prdb, Toy.tape0)
  /\ slice 16 24 (patch_addresses Toy.prdb_bytes (replicate 8 xff)) = replicate 8 xff
  /\ derived_addresses Toy.prdb.
Proof.
  destruct (C10_parse_discards_wire_addresses Toy.prdb_bytes (replicate 8 xff)
              Toy.tape0 Toy.tape0 Toy.prdb) as (H1 & _ & H3).
  - reflexivity.
  - vm_compute. reflexivity.
  - split; [exact H1|]. split; [vm_compute; reflexivity | exact H3].
Defined.

(** ** The random tape *)

Lemma prdb_parse_tape (data : bytes) (offset : nat) (g g0 : rng) :
  BeeProtectRegionBlock.parse data offset g
  = lift_result (outcome (BeeProtectRegionBlock.parse data offset g0)) g.
Proof.
  unfold BeeProtectRegionBlock.parse.
  destruct (BeeBaseClass_parse _ _ _) as [[]|e] eqn:Hb; [|reflexivity].
  apply base_parse_inv in Hb. change BeeProtectRegionBlock._size with 256%nat in Hb.
  rewrite !bind_Ok_l. unfold unpack_from.
  destruct (_ <? _); [reflexivity|]. rewrite !bind_Ok_l.
  cbn [BeeProtectRegionBlock._FORMAT items order unpack_items]. cbv beta iota.
  repeat match goal with
  | |- context [raise_if ?c ?e] =>
      destruct (raise_if c e) as [[]|]; [rewrite !bind_Ok_l | reflexivity]
  end.
  unfold BeeProtectRegionBlock.init.
  rewrite truthy_nonempty
    by (rewrite length_reverse, length_take, !length_drop; lia).
  cbv beta iota.
  destruct (BeeProtectRegionBlock.parse_facs _ _ _ _) as [res|e]; [|reflexivity].
  rewrite !bind_Ok_l.
  destruct (BeeProtectRegionBlock.validate res) as [[]|]; reflexivity.
Qed.

Lemma kib_parse_tape (data : bytes) (offset : nat) (g g0 : rng) :
  BeeKIB.parse data offset g = lift_result (outcome (BeeKIB.parse data offset g0)) g.
Proof.
  unfold BeeKIB.parse.
  destruct (BeeBaseClass_parse _ _ _) as [[]|e] eqn:Hb; [|reflexivity].
  apply base_parse_inv in Hb. change BeeKIB._size with 32%nat in Hb.
  rewrite !bind_Ok_l. unfold unpack_from.
  destruct (_ <? _); [reflexivity|]. rewrite !bind_Ok_l.
  cbn [BeeKIB._FORMAT items order unpack_items]. cbv beta iota.
  unfold BeeKIB.init.
  rewrite !truthy_nonempty by (rewrite length_take, !length_drop; lia).
  cbv beta iota.
  destruct (BeeKIB.validate _) as [[]|]; reflexivity.
Qed.

Lemma tape_independent_of_outcome {A} (m : rng -> result (A * rng)) :
  (forall g g0, m g = lift_result (outcome (m g0)) g) -> tape_independent m.
Proof.
  intros Hm. exists (outcome (m (fun _ => x00))). intros g. apply Hm.
Qed.

Lemma tape_independent_outcome {A} (m : rng -> result (A * rng)) (g1 g2 : rng) :
  tape_independent m -> outcome (m g1) = outcome (m g2).
Proof.
  intros [r Hr]. rewrite (Hr g1), (Hr g2). now destruct r.
Qed.

Lemma align_block_aligned (data : bytes) (g : rng) :
  (length data mod 16 = 0)%nat -> align_block_fill_random data 16 g = (data, g).
Proof.
  intros Hl. unfold align_block_fill_random. rewrite Hl. reflexivity.
Qed.

Lemma split_data_aligned (data : bytes) :
  (length data mod 16 = 0)%nat ->
  Forall (fun b => (length b mod 16 = 0)%nat) (split_data data 1024).
Proof.
  intros Hl. unfold split_data. rewrite Forall_fmap, Forall_forall.
  intros i _. unfold compose. rewrite length_take, length_drop.
  apply Nat.Div0.mod_divides in Hl as [q Hq]. rewrite Hq.
  destruct (Nat.min_spec 1024 (16 * q - i * 1024)) as [[_ E] | [_ E]]; rewrite E.
  - reflexivity.
  - replace (16 * q - i * 1024)%nat with ((q - i * 64) * 16)%nat by lia.
    apply Nat.Div0.mod_mul.
Qed.

Section Determinism.
Context `{cb : CryptoBackend} {laws : CryptoBackendLaws cb}.

Lemma header_parse_tape (data : bytes) (offset : nat) (sw_key : bytes) (g g0 : rng) :
  BeeRegionHeader.parse data offset sw_key g
  = lift_result (outcome (BeeRegionHeader.parse data offset sw_key g0)) g.
Proof.
  unfold BeeRegionHeader.parse.
  destruct (BeeBaseClass_parse _ _ _) as [[]|e]; [|reflexivity].
  rewrite !bind_Ok_l.
  destruct (raise_if _ _) as [[]|]; [|reflexivity]. rewrite !bind_Ok_l.
  rewrite (kib_parse_tape _ 0 g g0).
  destruct (BeeKIB.parse _ 0 g0) as [[kib g1]|e]; [|reflexivity].
  cbn [outcome lift_result]. rewrite !bind_Ok_l. cbv beta iota.
  rewrite (prdb_parse_tape _ 0 g g1).
  destruct (BeeProtectRegionBlock.parse _ 0 g1) as [[prdb g2]|e]; [|reflexivity].
  cbn [outcome lift_result BeeRegionHeader.init]. rewrite !bind_Ok_l. cbv beta iota.
  destruct (BeeRegionHeader.validate _) as [[]|]; reflexivity.
Qed.

Lemma Counter_value_length (nonce : bytes) (v : Z) (o : byteorder) :
  length nonce = 16%nat -> length (Counter_value nonce v o) = 16%nat.
Proof.
  intros Hn. unfold Counter_value.
  rewrite length_app, length_take, int_to_bytes_length. lia.
Qed.

(** A block of whole AES blocks needs no padding: the tape is not read, and
    with a 16-byte key and counter the result is as long as the block. *)
Lemma encrypt_block_facs_aligned (p : BeeProtectRegionBlock.t) (key : bytes)
  (start_addr : Z) (data : bytes) (facs : list BeeFacRegion.t) :
  (length data mod 16 = 0)%nat ->
  exists r : result bytes,
    (forall g, BeeProtectRegionBlock.encrypt_block_facs p key start_addr data g facs
               = lift_result r g)
    /\ (length key = 16%nat ->
        length (BeeProtectRegionBlock.counter p) = 16%nat ->
        forall d, r = Ok d -> length d = length data).
Proof.
  intros Hl. induction facs as [|fac facs IH];
    cbn [BeeProtectRegionBlock.encrypt_block_facs].
  - exists (Ok data). split; [reflexivity | now inversion 3].
  - destruct ((_ <=? _) && (_ <? _)); [|exact IH].
    destruct (raise_if _ _) as [[]|e].
    + exists (Ok (aes_ctr_encrypt key data
                    (Counter_value (BeeProtectRegionBlock.counter p)
                                   (Z.shiftr start_addr 4) BigEndian))).
      split.
      * intros g. rewrite bind_Ok_l, align_block_aligned by exact Hl. reflexivity.
      * intros Hk Hc d Hd. inversion Hd.
        apply ctr_encrypt_length; [exact Hk | now apply Counter_value_length].
    + exists (Err e). split; [reflexivity | discriminate].
Qed.

Lemma encrypt_block_aligned (p : BeeProtectRegionBlock.t) (key : bytes)
  (start_addr : Z) (data : bytes) :
  (length data mod 16 = 0)%nat ->
  exists r : result bytes,
    (forall g, BeeProtectRegionBlock.encrypt_block p key start_addr data g
               = lift_result r g)
    /\ (length (BeeProtectRegionBlock.counter p) = 16%nat ->
        forall d, r = Ok d -> length d = length data).
Proof.
  intros Hl. unfold BeeProtectRegionBlock.encrypt_block.
  destruct (raise_if (_ >? _) _) as [[]|e];
    [|exists (Err e); split; [reflexivity | discriminate]].
  destruct (BeeProtectRegionBlock.is_inside_region p start_addr);
    [|exists (Ok data); split; [reflexivity | now inversion 2]].
  destruct (raise_if (negb (_ =? _)) _) as [[]|e];
    [|exists (Err e); split; [reflexivity | discriminate]].
  destruct (Nat.eqb_spec (length key) 16) as [Hk | Hk]; cbn [negb raise_if];
    [|eexists (Err _); split; [reflexivity | discriminate]].
  destruct (encrypt_block_facs_aligned p key start_addr data
              (BeeProtectRegionBlock.fac_regions p) Hl) as (r & Hr & Hd).
  exists r. split; [exact Hr | exact (Hd Hk)].
Qed.

Lemma encrypt_chain_aligned (hs : list BeeRegionHeader.t) (base_address : Z)
  (block : bytes) :
  Forall (fun h => length (BeeProtectRegionBlock.counter (BeeRegionHeader._prdb h))
                   = 16%nat) hs ->
  (length block mod 16 = 0)%nat ->
  exists r : result bytes,
    forall g, BeeNxp.encrypt_chain hs base_address block g = lift_result r g.
Proof.
  intros Hc; revert block; induction Hc as [|h hs Hh _ IH]; intros block Hl;
    cbn [BeeNxp.encrypt_chain].
  - now exists (Ok block).
  - unfold BeeRegionHeader.encrypt_block.
    destruct (encrypt_block_aligned (BeeRegionHeader._prdb h)
                (BeeRegionHeader._sw_key h) base_address block Hl)
      as ([d|e] & Hr & Hd).
    + destruct (IH d) as [r' Hr']; [rewrite (Hd Hh d eq_refl); exact Hl|].
      exists r'. intros g. rewrite Hr. cbn [lift_result]. rewrite bind_Ok_l. apply Hr'.
    + exists (Err e). intros g. now rewrite Hr.
Qed.

Lemma export_blocks_aligned (hs : list BeeRegionHeader.t) (blocks : list bytes)
  (base_address : Z) (encrypted_data : bytes) :
  Forall (fun h => length (BeeProtectRegionBlock.counter (BeeRegionHeader._prdb h))
                   = 16%nat) hs ->
  Forall (fun b => (length b mod 16 = 0)%nat) blocks ->
  exists r : result bytes,
    forall g, BeeNxp.export_blocks hs blocks base_address encrypted_data g
              = lift_result r g.
Proof.
  intros Hc Hb; revert base_address encrypted_data;
    induction Hb as [|block blocks Hl _ IH]; intros base_address encrypted_data;
    cbn [BeeNxp.export_blocks].
  - now exists (Ok encrypted_data).
  - destruct (encrypt_chain_aligned hs base_address block Hc Hl) as ([d|e] & Hr).
    + destruct (IH (base_address + Z.of_nat (length d)) (encrypted_data ++ d))
        as [r' Hr'].
      exists r'. intros g. rewrite Hr. cbn [lift_result]. rewrite bind_Ok_l. apply Hr'.
    + exists (Err e). intros g. now rewrite Hr.
Qed.

(** C8, as the code has it — parsing reads no random bytes: the
    outcome of each of the three parsers that build objects with random
    defaults is the same on every tape, since the key, IV and counter
    they pass on are never empty.  [encrypt_block] is deterministic on a
    block of whole AES blocks (a length that is a multiple of 16), and so
    is [export_image] on an image of such a length under headers with
    16-byte counters: only the padding of a shorter block is drawn from
    the random source.  (The exports take no random source at all.) *)
Theorem C8_determinism :
  (forall data offset,
      tape_independent (BeeProtectRegionBlock.parse data offset))
  /\ (forall data offset, tape_independent (BeeKIB.parse data offset))
  /\ (forall data offset sw_key,
      tape_independent (BeeRegionHeader.parse data offset sw_key))
  /\ (forall p key start_addr data,
      (length data mod 16 = 0)%nat ->
      tape_independent (BeeProtectRegionBlock.encrypt_block p key start_addr data))
  /\ (forall bee : BeeNxp.t,
      Forall (fun h => length (BeeProtectRegionBlock.counter
                                 (BeeNxp.prdb_at (BeeNxp.objects bee) (BeeNxp._prdb h)))
                       = 16%nat) (BeeNxp.headers bee) ->
      (length (BeeNxp.input_image bee) mod 16 = 0)%nat ->
      tape_independent (BeeNxp.export_image bee)).
Proof.
  repeat split.
  - intros data offset. apply tape_independent_of_outcome. intros g g0.
    apply prdb_parse_tape.
  - intros data offset. apply tape_independent_of_outcome. intros g g0.
    apply kib_parse_tape.
  - intros data offset sw_key. apply tape_independent_of_outcome. intros g g0.
    apply header_parse_tape.
  - intros p key start_addr data Hl.
    destruct (encrypt_block_aligned p key start_addr data Hl) as (r & Hr & _).
    now exists r.
  - intros bee Hc Hl. unfold BeeNxp.export_image.
    apply export_blocks_aligned; [|now apply split_data_aligned].
    rewrite Forall_fmap. exact Hc.
Qed.

(** A block that is not made of whole AES blocks, inside a region: the
    cipher text depends on the random bytes of the padding. *)
Lemma encrypt_block_depends_on_tape (p : BeeProtectRegionBlock.t) (key : bytes)
  (start_addr : Z) (data : bytes) (fac : BeeFacRegion.t)
  (rest : list BeeFacRegion.t) (g1 g2 : rng) :
  BeeProtectRegionBlock.fac_regions p = fac :: rest ->
  in_region start_addr fac ->
  start_addr + Z.of_nat (length data) <= BeeFacRegion.end_addr fac ->
  BeeProtectRegionBlock.is_inside_region p start_addr = true ->
  BeeProtectRegionBlock.mode p = BeeProtectRegionBlockAesMode.CTR ->
  length (BeeProtectRegionBlock.counter p) = 16%nat ->
  length key = 16%nat -> (length data <= 1024)%nat ->
  (length data mod 16 <> 0)%nat ->
  g1 0%nat <> g2 0%nat ->
  outcome (BeeProtectRegionBlock.encrypt_block p key start_addr data g1)
  <> outcome (BeeProtectRegionBlock.encrypt_block p key start_addr data g2).
Proof.
  intros Hf Hin Hend Hins Hm Hc16 Hk Hl Hna Hg.
  unfold BeeProtectRegionBlock.encrypt_block.
  rewrite length_check_Ok, !bind_Ok_l, Hins, Hm, Z.eqb_refl, Hk by assumption.
  cbn [negb Nat.eqb]. rewrite !raise_if_false, !bind_Ok_l, Hf.
  cbn [BeeProtectRegionBlock.encrypt_block_facs]. unfold in_region in Hin.
  replace ((BeeFacRegion.start_addr fac <=? start_addr)
           && (start_addr <? BeeFacRegion.end_addr fac)) with true by lia.
  replace (start_addr + Z.of_nat (length data) >? BeeFacRegion.end_addr fac)
    with false by lia.
  rewrite !raise_if_false, !bind_Ok_l.
  unfold align_block_fill_random, random_bytes.
  pose proof (Nat.mod_upper_bound (length data) 16 ltac:(lia)) as Hub.
  rewrite (Nat.mod_small (16 - length data mod 16) 16) by lia.
  destruct (16 - length data mod 16)%nat as [|n] eqn:En; [lia|].
  cbn [Nat.eqb outcome seq map]. intros Heq. inversion Heq as [Hc].
  apply ctr_encrypt_inj in Hc;
    [|exact Hk | now apply Counter_value_length
     |rewrite !length_app; simpl; now rewrite !length_map].
  apply app_inv_head in Hc. inversion Hc. contradiction.
Qed.

End Determinism.

(** The stand-in image is made of whole AES blocks: its export is the same
    on both tapes. *)
Lemma C8_determinism_witness :
  outcome (@BeeNxp.export_image Toy.backend Toy.bee Toy.tape0)
  = outcome (@BeeNxp.export_image Toy.backend Toy.bee Toy.tape1).
Proof.
  destruct (@C8_determinism Toy.backend toy_laws) as (_ & _ & _ & _ & Hi).
  apply tape_independent_outcome. apply Hi.
  - repeat constructor.
  - reflexivity.
Defined.

(** C8, as the claim states it, fails: the one-byte block at 0x1000, inside
    the first stand-in region, is encrypted to different bytes on the two
    tapes, all key and counter material being the same. *)
Lemma C8_determinism_counterexample :
  outcome (@BeeProtectRegionBlock.encrypt_block Toy.backend Toy.prdb Toy.key16
             0x1000 [x01] Toy.tape0)
  <> outcome (@BeeProtectRegionBlock.encrypt_block Toy.backend Toy.prdb Toy.key16
                0x1000 [x01] Toy.tape1).
Proof.
  apply (@encrypt_block_depends_on_tape Toy.backend toy_laws Toy.prdb Toy.key16
           0x1000 [x01] Toy.fac1 [Toy.fac2]);
    try reflexivity; try (simpl; lia); try discriminate.
  split; vm_compute; [discriminate | reflexivity].
Qed.

(** * Further properties of the module *)

(** ** Packing what was unpacked *)

Lemma byte_of_to_Z (b : byte) : byte_of_Z (byte_to_Z b) = b.
Proof.
  unfold byte_of_Z, byte_to_Z.
  pose proof (Strings.Byte.to_N_bounded b) as Hb.
  rewrite Z.mod_small by lia. rewrite N2Z.id.
  now rewrite Strings.Byte.of_to_N.
Qed.

Lemma byte_of_Z_mod (z : Z) : byte_of_Z (z mod 256) = byte_of_Z z.
Proof.
  unfold byte_of_Z. now rewrite Z.mod_mod by lia.
Qed.

Lemma le_split_combine (l : bytes) : le_split (length l) (le_combine l) = l.
Proof.
  induction l as [|b l IH]; cbn [length le_split le_combine]; [reflexivity|].
  pose proof (byte_to_Z_range b) as Hb.
  f_equal.
  - rewrite <- byte_of_Z_mod.
    replace ((byte_to_Z b + 256 * le_combine l) mod 256) with (byte_to_Z b).
    + apply byte_of_to_Z.
    + replace (byte_to_Z b + 256 * le_combine l)
        with (byte_to_Z b + le_combine l * 256) by lia.
      rewrite Z_mod_plus_full. symmetry. now apply Z.mod_small.
  - replace ((byte_to_Z b + 256 * le_combine l) / 256) with (le_combine l);
      [exact IH|].
    replace (byte_to_Z b + 256 * le_combine l)
      with (byte_to_Z b + le_combine l * 256) by lia.
    rewrite Z_div_plus_full by lia.
    rewrite (Z.div_small (byte_to_Z b)) by lia. lia.
Qed.

Lemma le_combine_bound (l : bytes) : 0 <= le_combine l < 256 ^ Z.of_nat (length l).
Proof.
  rewrite <- (le_split_combine l) at 1 2. rewrite le_combine_split.
  apply Z.mod_pos_bound. apply Z.pow_pos_nonneg; lia.
Qed.

Lemma int_from_bytes_u32 (o : byteorder) (l : bytes) :
  length l = 4%nat -> 0 <= int_from_bytes o l <= 0xFFFFFFFF.
Proof.
  intros Hl. destruct o; unfold int_from_bytes.
  - pose proof (le_combine_bound l) as Hb. rewrite Hl in Hb.
    change (256 ^ Z.of_nat 4) with 4294967296 in Hb. lia.
  - pose proof (le_combine_bound (reverse l)) as Hb.
    rewrite length_reverse, Hl in Hb.
    change (256 ^ Z.of_nat 4) with 4294967296 in Hb. lia.
Qed.

Lemma int_to_from_bytes (o : byteorder) (l : bytes) :
  length l = 4%nat -> int_to_bytes o 4 (int_from_bytes o l) = l.
Proof.
  intros Hl. destruct o; unfold int_to_bytes, int_from_bytes.
  - rewrite <- Hl. apply le_split_combine.
  - rewrite <- (length_reverse l) in Hl. rewrite <- Hl, le_split_combine.
    apply reverse_involutive.
Qed.

(** Packing the values unpacked from a buffer gives the bytes that were
    read. *)
Lemma pack_unpack_items (o : byteorder) (l : list item) (data : bytes) :
  (calcsize_items l <= length data)%nat ->
  pack_items o l (unpack_items o l data) = Ok (take (calcsize_items l) data).
Proof.
  revert data; induction l as [|i l IH]; intros data Hl;
    cbn [unpack_items pack_items].
  - reflexivity.
  - change (calcsize_items (i :: l)) with (item_size i + calcsize_items l)%nat in *.
    destruct i as [|n]; cbn [item_size] in *.
    + assert (H4 : length (take 4 data) = 4%nat) by (rewrite length_take; lia).
      pose proof (int_from_bytes_u32 o _ H4) as Hr.
      replace ((0 <=? int_from_bytes o (take 4 data))
               && (int_from_bytes o (take 4 data) <=? 0xFFFFFFFF)) with true by lia.
      rewrite IH by (rewrite length_drop; lia).
      rewrite bind_Ok_l, int_to_from_bytes by exact H4.
      now rewrite take_take_drop.
    + rewrite IH by (rewrite length_drop; lia).
      rewrite bind_Ok_l, take_take, Nat.min_id, length_take.
      replace (n - n `min` length data)%nat with 0%nat by lia.
      cbn [zeros replicate app]. now rewrite take_take_drop.
Qed.

Lemma fac_parse_then_export (data : bytes) (offset : nat) (fac : BeeFacRegion.t) :
  BeeFacRegion.parse data offset = Ok fac ->
  BeeFacRegion.validate fac = Ok tt
  /\ BeeFacRegion.export fac = Ok (slice offset (offset + 32) data).
Proof.
  intros Hp. unfold BeeFacRegion.parse in Hp.
  destruct (BeeBaseClass_parse _ _ _) as [[]|] eqn:Hb; [|discriminate].
  apply base_parse_inv in Hb. change BeeFacRegion._size with 32%nat in Hb.
  rewrite bind_Ok_l in Hp. unfold unpack_from in Hp.
  destruct (_ <? _); [discriminate|]. rewrite bind_Ok_l in Hp.
  pose proof (pack_unpack_items LittleEndian (items BeeFacRegion._FORMAT)
                (drop offset data)) as Hpk.
  change (calcsize_items (items BeeFacRegion._FORMAT)) with 32%nat in Hpk.
  specialize (Hpk ltac:(rewrite length_drop; lia)).
  cbn [BeeFacRegion._FORMAT items order unpack_items] in Hp, Hpk.
  cbv beta iota in Hp. inv_bind Hp.
  match goal with Hs : raise_if _ _ = Ok _ |- _ =>
    apply raise_if_Ok, negb_false_iff, bool_decide_eq_true in Hs;
    rename Hs into Hres end.
  apply fac_init_Ok in Hp as [-> Hv]. split; [exact Hv|].
  unfold BeeFacRegion.export. rewrite Hv, bind_Ok_l.
  unfold BeeFacRegion.end_addr.
  cbn [BeeFacRegion.start_addr BeeFacRegion.length BeeFacRegion.protected_level].
  match goal with |- context [VInt (?s + (?e - ?s))] =>
    replace (s + (e - s)) with e by lia end.
  rewrite <- Hres. unfold slice.
  replace (offset + 32 - offset)%nat with 32%nat by lia. exact Hpk.
Qed.

(** X1 — A region that parses is valid, and exporting it gives back the 32
    bytes it was read from. *)
Theorem X1_fac_export_parse (data : bytes) (offset : nat) (fac : BeeFacRegion.t) :
  BeeFacRegion.parse data offset = Ok fac ->
  BeeFacRegion.validate fac = Ok tt
  /\ BeeFacRegion.export fac = Ok (slice offset (offset + 32) data).
Proof. apply fac_parse_then_export. Qed.

Lemma X1_fac_export_parse_witness :
  BeeFacRegion.export Toy.fac2
  = Ok (slice 112 144 Toy.prdb_bytes).
Proof.
  apply (X1_fac_export_parse Toy.prdb_bytes 112 Toy.fac2).
  vm_compute. reflexivity.
Defined.

(** X2 — A key block that parses is valid, reads no random bytes, and
    exporting it gives back the 32 bytes it was read from. *)
Theorem X2_kib_export_parse (data : bytes) (offset : nat) (g g' : rng)
  (kib : BeeKIB.t) :
  BeeKIB.parse data offset g = Ok (kib, g') ->
  g' = g
  /\ BeeKIB.validate kib = Ok tt
  /\ BeeKIB.export kib = Ok (slice offset (offset + 32) data).
Proof.
  intros Hp. unfold BeeKIB.parse in Hp.
  destruct (BeeBaseClass_parse _ _ _) as [[]|] eqn:Hb; [|discriminate].
  apply base_parse_inv in Hb. change BeeKIB._size with 32%nat in Hb.
  rewrite bind_Ok_l in Hp. unfold unpack_from in Hp.
  destruct (_ <? _); [discriminate|]. rewrite bind_Ok_l in Hp.
  pose proof (pack_unpack_items LittleEndian (items BeeKIB._FORMAT)
                (drop offset data)) as Hpk.
  change (calcsize_items (items BeeKIB._FORMAT)) with 32%nat in Hpk.
  specialize (Hpk ltac:(rewrite length_drop; lia)).
  cbn [BeeKIB._FORMAT items order unpack_items] in Hp, Hpk.
  cbv beta iota in Hp. unfold BeeKIB.init in Hp.
  rewrite !truthy_nonempty in Hp by (rewrite length_take, ?length_drop; lia).
  cbv beta iota in Hp. cbn [default from_option id] in Hp.
  inv_bind Hp. inversion Hp; subst kib g'; clear Hp.
  match goal with Hs : BeeKIB.validate _ = Ok _ |- _ =>
    destruct a; rename Hs into Hv end.
  split; [reflexivity|]. split; [exact Hv|].
  unfold BeeKIB.export. rewrite Hv, bind_Ok_l.
  cbn [BeeKIB.kib_key BeeKIB.kib_iv]. unfold slice.
  replace (offset + 32 - offset)%nat with 32%nat by lia. exact Hpk.
Qed.

Lemma X2_kib_export_parse_witness :
  BeeKIB.export Toy.kib = Ok (slice 3 35 ([x07; x07; x07] ++ Toy.kib_bytes)).
Proof.
  apply (X2_kib_export_parse ([x07; x07; x07] ++ Toy.kib_bytes) 3
           Toy.tape0 Toy.tape0 Toy.kib).
  vm_compute. reflexivity.
Defined.

(** ** What [BeeProtectRegionBlock.parse] accepts *)

(** The steps of a successful parse, with [d] the data from the offset
    on. *)
Lemma prdb_parse_inv (data : bytes) (offset : nat) (g g' : rng)
  (p : BeeProtectRegionBlock.t) :
  BeeProtectRegionBlock.parse data offset g = Ok (p, g') ->
  let d := drop offset data in
  (offset + 256 <= length data)%nat /\ g' = g
  /\ le_combine (take 4 d) = BeeProtectRegionBlock.TAGL
  /\ le_combine (take 4 (drop 4 d)) = BeeProtectRegionBlock.TAGH
  /\ le_combine (take 4 (drop 8 d)) = BeeProtectRegionBlock.VERSION
  /\ take 32 (drop 48 d) = zeros 32
  /\ exists facs,
       parse_fac_list (Z.to_nat (le_combine (take 4 (drop 12 d)))) data
                      (offset + 80) = Ok facs
       /\ p = fold_left BeeProtectRegionBlock.add_fac facs
                (BeeProtectRegionBlock.mk
                   (le_combine (take 4 (drop 16 d))) (le_combine (take 4 (drop 20 d)))
                   (le_combine (take 4 (drop 24 d))) (le_combine (take 4 (drop 28 d)))
                   (reverse (take 16 (drop 32 d))) [])
       /\ BeeProtectRegionBlock.validate p = Ok tt.
Proof.
  intros Hp d. unfold BeeProtectRegionBlock.parse in Hp.
  destruct (BeeBaseClass_parse _ _ _) as [[]|] eqn:Hb; [|discriminate].
  apply base_parse_inv in Hb. change BeeProtectRegionBlock._size with 256%nat in Hb.
  rewrite bind_Ok_l in Hp. unfold unpack_from in Hp.
  destruct (_ <? _); [discriminate|]. rewrite bind_Ok_l in Hp.
  fold d in Hp.
  assert (Hd : (256 <= length d)%nat) by (unfold d; rewrite length_drop; lia).
  clearbody d.
  cbn [BeeProtectRegionBlock._FORMAT items order unpack_items] in Hp.
  rewrite !drop_drop in Hp. cbn [Nat.add] in Hp. cbv beta iota in Hp.
  inv_bind Hp.
  repeat match goal with
  | Hs : raise_if _ _ = Ok _ |- _ => apply raise_if_Ok in Hs
  end.
  unfold BeeProtectRegionBlock.init in Hp.
  rewrite truthy_nonempty in Hp
    by (rewrite length_reverse, length_take, length_drop; lia).
  cbn [default from_option id BeeProtectRegionBlock.mode
       BeeProtectRegionBlock.lock_options BeeProtectRegionBlock.counter
       BeeProtectRegionBlock.fac_regions] in Hp.
  change (offset + calcsize (Format LittleEndian
            [fmt_I; fmt_I; fmt_I; fmt_I; fmt_I; fmt_I; fmt_I; fmt_I; fmt_s 16; fmt_s 32]))%nat
    with (offset + 80)%nat in Hp.
  rewrite parse_facs_as_list in Hp. inv_bind Hp.
  match goal with Hs : parse_fac_list _ _ _ ≫= _ = Ok _ |- _ =>
    rename Hs into Hfacs end.
  inv_bind Hfacs. inversion Hfacs; subst; clear Hfacs.
  inv_bind Hp. inversion Hp; subst; clear Hp.
  match goal with Hs : BeeProtectRegionBlock.validate _ = Ok _ |- _ =>
    apply prdb_validate_unit in Hs; rename Hs into Hv end.
  match goal with Hs : negb (_ =? BeeProtectRegionBlock.TAGL) || _ = false |- _ =>
    apply orb_false_iff in Hs as [Ht1%negb_false_iff%Z.eqb_eq Ht2%negb_false_iff%Z.eqb_eq]
  end.
  match goal with Hs : negb (_ =? BeeProtectRegionBlock.VERSION) = false |- _ =>
    apply negb_false_iff, Z.eqb_eq in Hs; rename Hs into Hver end.
  match goal with Hs : negb (bool_decide _) = false |- _ =>
    apply negb_false_iff, bool_decide_eq_true in Hs; rename Hs into Hres end.
  repeat split; try assumption; try lia.
  eexists. split; [eassumption|]. split; [reflexivity | exact Hv].
Qed.

Lemma le_combine_inv (l : bytes) (v : Z) :
  length l = 4%nat -> le_combine l = v -> l = le_split 4 v.
Proof. intros Hl <-. rewrite <- Hl. symmetry. apply le_split_combine. Qed.

(** X3 — What a PRDB parser accepts.  If parsing succeeds, no random byte
    was read and the PRDB passes [validate]; the data, from the offset on,
    starts with the two tags and the version, holds the number of regions
    (1 to 4) in bytes [12:16), the mode CTR in bytes [24:28), the counter
    reversed in bytes [32:48) with zeros in the first four of them, and
    zeros in the reserved bytes [48:80). *)
Theorem X3_prdb_parse_accepts (data : bytes) (offset : nat) (g g' : rng)
  (p : BeeProtectRegionBlock.t) :
  BeeProtectRegionBlock.parse data offset g = Ok (p, g') ->
  let d := drop offset data in
  g' = g
  /\ BeeProtectRegionBlock.validate p = Ok tt
  /\ slice 0 12 d = [x54; x41; x47; x5f; x45; x48; x44; x52; x00; x00; x01; x56]
  /\ slice 12 16 d = le_split 4 (Z.of_nat (BeeProtectRegionBlock.fac_count p))
  /\ (1 <= BeeProtectRegionBlock.fac_count p <= 4)%nat
  /\ slice 24 28 d = [x01; x00; x00; x00]
  /\ BeeProtectRegionBlock.counter p = reverse (slice 32 48 d)
  /\ slice 32 36 d = zeros 4
  /\ slice 48 80 d = zeros 32.
Proof.
  intros Hp d.
  destruct (prdb_parse_inv _ _ _ _ _ Hp)
    as (Hlen & Hg & Ht1 & Ht2 & Hver & Hres & facs & Hfacs & -> & Hv).
  fold d in Ht1, Ht2, Hver, Hres, Hfacs, Hv |- *.
  assert (Hd : (256 <= length d)%nat) by (unfold d; rewrite length_drop; lia).
  clearbody d.
  pose proof (proj1 (prdb_validate_Ok _) Hv) as [_ _ Hm Hc Hct Hn _].
  split; [exact Hg|]. split; [exact Hv|]. clear Hv.
  unfold BeeProtectRegionBlock.fac_count in *.
  rewrite fold_add_fac_regions in Hn |- *.
  cbn [BeeProtectRegionBlock.fac_regions app] in Hn |- *.
  assert (Hne : facs <> []) by (intros ->; simpl in Hn; lia).
  rewrite prdb_fold_add_fac in Hm, Hc, Hct |- * by exact Hne.
  cbn [BeeProtectRegionBlock.update BeeProtectRegionBlock.mode
       BeeProtectRegionBlock.counter BeeProtectRegionBlock.fac_regions] in Hm, Hc, Hct |- *.
  assert (Hcount : length facs
                   = Z.to_nat (le_combine (take 4 (drop 12 d)))).
  { clear - Hfacs. revert Hfacs. generalize (offset + 80)%nat.
    generalize (Z.to_nat (le_combine (take 4 (drop 12 d)))).
    intros n; revert facs; induction n as [|n IH]; intros facs off Hf;
      cbn [parse_fac_list] in Hf.
    - now inversion Hf.
    - inv_bind Hf. inversion Hf; subst. cbn [length]. f_equal. eauto. }
  assert (L : forall k, (k + 4 <= 256)%nat -> length (take 4 (drop k d)) = 4%nat)
    by (intros k Hk; rewrite length_take, length_drop; lia).
  unfold slice. rewrite ?drop_0.
  change (12 - 0)%nat with 12%nat. change (16 - 12)%nat with 4%nat.
  change (28 - 24)%nat with 4%nat. change (48 - 32)%nat with 16%nat.
  change (36 - 32)%nat with 4%nat. change (80 - 48)%nat with 32%nat.
  split.
  { change (take 12 d) with (take (4 + 8) d). rewrite <- take_take_drop.
    change (take 8 (drop 4 d)) with (take (4 + 4) (drop 4 d)).
    rewrite <- take_take_drop, drop_drop. cbn [Nat.add].
    pose proof (L 0%nat ltac:(lia)) as L0. rewrite drop_0 in L0.
    rewrite (le_combine_inv _ _ L0 Ht1), (le_combine_inv _ _ (L 4%nat ltac:(lia)) Ht2),
      (le_combine_inv _ _ (L 8%nat ltac:(lia)) Hver).
    reflexivity. }
  split.
  { rewrite Hcount, Z2Nat.id by apply le_combine_bound.
    now apply le_combine_inv; [apply L; lia|]. }
  split; [exact Hn|]. split.
  { now rewrite (le_combine_inv _ _ (L 24%nat ltac:(lia)) Hm). }
  split; [reflexivity|]. split; [|exact Hres].
  rewrite drop_reverse, length_take, length_drop in Hct.
  replace (16 `min` (length d - 32) - 12)%nat with 4%nat in Hct by lia.
  rewrite take_take in Hct. cbn [Nat.min] in Hct.
  apply (f_equal reverse) in Hct. rewrite reverse_involutive in Hct.
  rewrite Hct. reflexivity.
Qed.

Lemma X3_prdb_parse_accepts_witness :
  slice 0 12 (drop 3 ([x07; x07; x07] ++ Toy.prdb_bytes))
  = [x54; x41; x47; x5f; x45; x48; x44; x52; x00; x00; x01; x56].
Proof.
  destruct (X3_prdb_parse_accepts ([x07; x07; x07] ++ Toy.prdb_bytes) 3
              Toy.tape0 Toy.tape0 Toy.prdb) as (_ & _ & Hm & _).
  - vm_compute. reflexivity.
  - exact Hm.
Defined.

(** ** The layout of an exported PRDB *)

Lemma parse_fac_list_lookup (n : nat) (data : bytes) (offset : nat)
  (facs : list BeeFacRegion.t) (i : nat) (fac : BeeFacRegion.t) :
  parse_fac_list n data offset = Ok facs -> facs !! i = Some fac ->
  BeeFacRegion.parse data (offset + 32 * i) = Ok fac.
Proof.
  revert offset facs i; induction n as [|n IH]; intros offset facs i Hp Hi;
    cbn [parse_fac_list] in Hp.
  - inversion Hp; subst. discriminate Hi.
  - inv_bind Hp. inversion Hp; subst; clear Hp. destruct i as [|i].
    + cbn in Hi. inversion Hi; subst.
      replace (offset + 32 * 0)%nat with offset by lia. assumption.
    + cbn in Hi.
      replace (offset + 32 * S i)%nat with (offset + BeeFacRegion._size + 32 * i)%nat
        by (change BeeFacRegion._size with 32%nat; lia).
      eauto.
Qed.

Lemma export_facs_parse_list (facs : list BeeFacRegion.t) (res out rest : bytes) :
  BeeProtectRegionBlock.export_facs res facs = Ok out ->
  parse_fac_list (length facs) (out ++ rest) (length res) = Ok facs.
Proof.
  intros He. destruct (export_facs_spec _ _ _ He) as (bs & -> & _ & Hp).
  pose (p0 := BeeProtectRegionBlock.mk 0 0 0 0 [] []).
  specialize (Hp rest p0). rewrite parse_facs_as_list in Hp.
  rewrite <- app_assoc.
  destruct (parse_fac_list _ _ _) as [facs'|e]; [|discriminate].
  rewrite bind_Ok_l in Hp. inversion Hp as [Hf].
  apply (f_equal BeeProtectRegionBlock.fac_regions) in Hf.
  rewrite !fold_add_fac_regions in Hf. cbn in Hf. now subst.
Qed.

(** X4 — The layout of an exported PRDB.  The 256 bytes start with the two
    tags and the version, followed by the number of regions, the
    recomputed start and end addresses, the mode and the lock options, all
    little-endian 32-bit; region [i] sits, in its own 32-byte encoding, at
    bytes [80 + 32 i : 112 + 32 i), and all bytes after the last region
    are zero. *)
Theorem X4_prdb_export_layout (p : BeeProtectRegionBlock.t) (b : bytes) :
  snd (BeeProtectRegionBlock.export p) = Ok b ->
  length b = 256%nat
  /\ slice 0 12 b = [x54; x41; x47; x5f; x45; x48; x44; x52; x00; x00; x01; x56]
  /\ slice 12 16 b = le_split 4 (Z.of_nat (BeeProtectRegionBlock.fac_count p))
  /\ slice 16 20 b
     = le_split 4 (BeeProtectRegionBlock._start_addr (BeeProtectRegionBlock.update p))
  /\ slice 20 24 b
     = le_split 4 (BeeProtectRegionBlock._end_addr (BeeProtectRegionBlock.update p))
  /\ slice 24 28 b = [x01; x00; x00; x00]
  /\ slice 28 32 b = le_split 4 (BeeProtectRegionBlock.lock_options p)
  /\ (forall i fac,
        BeeProtectRegionBlock.fac_regions p !! i = Some fac ->
        BeeFacRegion.export fac = Ok (slice (80 + 32 * i) (80 + 32 * i + 32) b))
  /\ drop (80 + 32 * BeeProtectRegionBlock.fac_count p) b
     = zeros (176 - 32 * BeeProtectRegionBlock.fac_count p).
Proof.
  intros He. pose proof (prdb_parse_export p b (fun _ => x00) He) as Hparse.
  unfold BeeProtectRegionBlock.export in He. cbn [snd] in He.
  remember (BeeProtectRegionBlock.update p) as q eqn:Hq.
  assert (Hfq : BeeProtectRegionBlock.fac_regions q = BeeProtectRegionBlock.fac_regions p)
    by now subst q.
  assert (Hlq : BeeProtectRegionBlock.lock_options q = BeeProtectRegionBlock.lock_options p)
    by now subst q.
  clear Hq.
  inv_bind He. rename a0 into hdr, a1 into out.
  inversion He; subst b; clear He.
  match goal with Hs : BeeProtectRegionBlock.validate q = Ok _ |- _ =>
    apply prdb_validate_unit, prdb_validate_Ok in Hs;
    destruct Hs as [_ _ Hm Hcnt _ Hn _] end.
  match goal with Hs : BeeProtectRegionBlock.export_facs _ _ = Ok out |- _ =>
    rename Hs into Hfacs end.
  match goal with Hs : pack _ _ = Ok hdr |- _ => rename Hs into Hpack end.
  pose proof (pack_items_length _ _ _ _ Hpack) as Hh.
  change (calcsize_items _) with 80%nat in Hh.
  destruct (export_facs_spec _ _ _ Hfacs) as (bs & Hout & Hl & _).
  unfold BeeProtectRegionBlock.fac_count in *. rewrite Hfq in *.
  set (n := length (BeeProtectRegionBlock.fac_regions p)) in *.
  set (tail := zeros (BeeProtectRegionBlock.SIZE - length out)).
  unfold extend_block. fold tail.
  assert (Hlen : length (out ++ tail) = 256%nat).
  { unfold tail. rewrite length_app, zeros_length. subst out.
    rewrite length_app, Hh, Hl. change BeeProtectRegionBlock.SIZE with 256%nat. lia. }
  pose proof (unpack_pack_items _ _ _ _ (bs ++ tail) Hpack) as Hu.
  cbn [BeeProtectRegionBlock._FORMAT items order unpack_items] in Hu.
  rewrite !drop_drop in Hu. cbn [Nat.add] in Hu.
  assert (Hfit : Forall2 fits
            [fmt_I; fmt_I; fmt_I; fmt_I; fmt_I; fmt_I; fmt_I; fmt_I; fmt_s 16; fmt_s 32]
            [VInt BeeProtectRegionBlock.TAGL; VInt BeeProtectRegionBlock.TAGH;
             VInt BeeProtectRegionBlock.VERSION; VInt (Z.of_nat n);
             VInt (BeeProtectRegionBlock._start_addr q);
             VInt (BeeProtectRegionBlock._end_addr q);
             VInt (BeeProtectRegionBlock.mode q);
             VInt (BeeProtectRegionBlock.lock_options q);
             VBytes (reverse (BeeProtectRegionBlock.counter q)); VBytes (zeros 32)]).
  { repeat constructor. simpl. now rewrite length_reverse. }
  specialize (Hu Hfit). rewrite app_assoc, <- Hout in Hu.
  injection Hu as H0 H4 H8 H12 H16 H20 H24 H28 _ _.
  cbn [int_from_bytes] in *.
  assert (L : forall k, (k + 4 <= 256)%nat ->
                        length (take 4 (drop k (out ++ tail))) = 4%nat)
    by (intros k Hk; rewrite length_take, length_drop; lia).
  pose proof (L 0%nat ltac:(lia)) as L0. rewrite drop_0 in L0.
  unfold slice. rewrite ?drop_0.
  change (12 - 0)%nat with 12%nat. change (16 - 12)%nat with 4%nat.
  change (20 - 16)%nat with 4%nat. change (24 - 20)%nat with 4%nat.
  change (28 - 24)%nat with 4%nat. change (32 - 28)%nat with 4%nat.
  split; [exact Hlen|]. split.
  { change (take 12 (out ++ tail)) with (take (4 + 8) (out ++ tail)).
    rewrite <- take_take_drop.
    change (take 8 (drop 4 (out ++ tail))) with (take (4 + 4) (drop 4 (out ++ tail))).
    rewrite <- take_take_drop, drop_drop. cbn [Nat.add].
    rewrite (le_combine_inv _ _ L0 H0), (le_combine_inv _ _ (L 4%nat ltac:(lia)) H4),
      (le_combine_inv _ _ (L 8%nat ltac:(lia)) H8).
    reflexivity. }
  split; [apply le_combine_inv; [apply L; lia | exact H12]|].
  split; [apply le_combine_inv; [apply L; lia | exact H16]|].
  split; [apply le_combine_inv; [apply L; lia | exact H20]|].
  split; [rewrite (le_combine_inv _ _ (L 24%nat ltac:(lia)) H24), Hm; reflexivity|].
  split; [rewrite <- Hlq; apply le_combine_inv; [apply L; lia | exact H28]|].
  split.
  - intros i fac Hi.
    pose proof (export_facs_parse_list _ _ _ tail Hfacs) as Hpl.
    rewrite Hh in Hpl.
    pose proof (parse_fac_list_lookup _ _ _ _ i fac Hpl Hi) as Hpf.
    apply fac_parse_then_export in Hpf as [_ Hpf]. exact Hpf.
  - subst out. rewrite <- app_assoc.
    rewrite drop_app_ge by lia. rewrite Hh.
    replace (80 + 32 * n - 80)%nat with (length bs) by lia.
    rewrite drop_app_length. unfold tail.
    rewrite length_app, Hh, Hl. change BeeProtectRegionBlock.SIZE with 256%nat.
    f_equal; lia.
Qed.

Lemma X4_prdb_export_layout_witness :
  BeeFacRegion.export Toy.fac2 = Ok (slice 112 144 Toy.prdb_bytes)
  /\ drop 144 Toy.prdb_bytes = zeros 112.
Proof.
  destruct (X4_prdb_export_layout Toy.prdb Toy.prdb_bytes)
    as (_ & _ & _ & _ & _ & _ & _ & Hr & Hz).
  - vm_compute. reflexivity.
  - split; [exact (Hr 1%nat Toy.fac2 eq_refl) | exact Hz].
Defined.

(** ** Adding regions to a PRDB *)

Lemma add_fac_fac_regions (p : BeeProtectRegionBlock.t) (fac : BeeFacRegion.t) :
  BeeProtectRegionBlock.fac_regions (BeeProtectRegionBlock.add_fac p fac)
  = BeeProtectRegionBlock.fac_regions p ++ [fac].
Proof. reflexivity. Qed.

(** The address range of a derived span is a 32-bit range. *)
Lemma derived_range (p : BeeProtectRegionBlock.t) :
  derived_addresses p ->
  Forall (fun f => BeeFacRegion.validate f = Ok tt)
         (BeeProtectRegionBlock.fac_regions p) ->
  0 <= BeeProtectRegionBlock._start_addr p
  /\ BeeProtectRegionBlock._start_addr p < BeeProtectRegionBlock._end_addr p
  /\ BeeProtectRegionBlock._end_addr p <= 0xFFFFFFFF.
Proof.
  intros [[Hsin Hsall] [Hein Heall]] Hf.
  rewrite Forall_fmap, Forall_forall in Hsall, Heall. rewrite Forall_forall in Hf.
  apply list_elem_of_fmap in Hsin as (fs & Hfs & Hfsin).
  apply list_elem_of_fmap in Hein as (fe & Hfe & Hfein).
  pose proof (proj1 (fac_validate_Ok _) (Hf _ Hfsin)) as Hvs.
  pose proof (proj1 (fac_validate_Ok _) (Hf _ Hfein)) as Hve.
  pose proof (Hsall _ Hfein) as H1. pose proof (Heall _ Hfsin) as H2.
  unfold compose in H1, H2. lia.
Qed.

Lemma add_fac_properties (p : BeeProtectRegionBlock.t) (fac : BeeFacRegion.t) :
  Forall (fun f => BeeFacRegion.validate f = Ok tt)
         (BeeProtectRegionBlock.fac_regions p) ->
  BeeFacRegion.validate fac = Ok tt ->
  let p' := BeeProtectRegionBlock.add_fac p fac in
  derived_addresses p'
  /\ BeeProtectRegionBlock.is_inside_region p' (BeeFacRegion.start_addr fac) = true
  /\ (derived_addresses p ->
      forall a, BeeProtectRegionBlock.is_inside_region p a = true ->
                BeeProtectRegionBlock.is_inside_region p' a = true).
Proof.
  intros Hf Hv p'. subst p'.
  assert (Hf' : Forall (fun f => BeeFacRegion.validate f = Ok tt)
                       (BeeProtectRegionBlock.fac_regions p ++ [fac]))
    by (apply Forall_app; split; [exact Hf | now repeat constructor]).
  assert (Hd : derived_addresses (BeeProtectRegionBlock.add_fac p fac)).
  { apply update_derived; cbn [BeeProtectRegionBlock.fac_regions];
      [now destruct (BeeProtectRegionBlock.fac_regions p) | exact Hf']. }
  split; [exact Hd|].
  destruct Hd as [[_ Hsall] [_ Heall]].
  rewrite add_fac_fac_regions, Forall_fmap, Forall_forall in Hsall, Heall.
  unfold BeeProtectRegionBlock.is_inside_region. split.
  - assert (Hin : fac ∈ BeeProtectRegionBlock.fac_regions p ++ [fac])
      by (apply elem_of_app; right; apply elem_of_cons; now left).
    pose proof (Hsall _ Hin) as H1. pose proof (Heall _ Hin) as H2.
    unfold compose in H1, H2. apply fac_validate_Ok in Hv. lia.
  - intros [[Hsin _] [Hein _]] a Ha.
    apply list_elem_of_fmap in Hsin as (fs & Hfs & Hfsin).
    apply list_elem_of_fmap in Hein as (fe & Hfe & Hfein).
    assert (H1 := Hsall fs ltac:(apply elem_of_app; now left)).
    assert (H2 := Heall fe ltac:(apply elem_of_app; now left)).
    unfold compose in H1, H2. lia.
Qed.

(** X5 — Adding a region keeps the span in step.  After [add_fac] of a
    valid region to a PRDB with valid regions, the region is the last of
    the list, the start and end addresses are the least start and the
    greatest end of all regions, the start of the new region lies within
    the span, and the span has not shrunk. *)
Theorem X5_add_fac_span (p : BeeProtectRegionBlock.t) (fac : BeeFacRegion.t) :
  Forall (fun f => BeeFacRegion.validate f = Ok tt)
         (BeeProtectRegionBlock.fac_regions p) ->
  BeeFacRegion.validate fac = Ok tt ->
  let p' := BeeProtectRegionBlock.add_fac p fac in
  BeeProtectRegionBlock.fac_regions p' = BeeProtectRegionBlock.fac_regions p ++ [fac]
  /\ derived_addresses p'
  /\ BeeProtectRegionBlock.is_inside_region p' (BeeFacRegion.start_addr fac) = true
  /\ (derived_addresses p ->
      forall a, BeeProtectRegionBlock.is_inside_region p a = true ->
                BeeProtectRegionBlock.is_inside_region p' a = true).
Proof.
  intros Hf Hv p'. split; [reflexivity|]. now apply add_fac_properties.
Qed.

Lemma X5_add_fac_span_witness :
  derived_addresses (BeeProtectRegionBlock.add_fac Toy.prdb
                       (BeeFacRegion.mk 0x400 0x400 0))
  /\ BeeProtectRegionBlock.is_inside_region
       (BeeProtectRegionBlock.add_fac Toy.prdb (BeeFacRegion.mk 0x400 0x400 0))
       0x1800 = true.
Proof.
  destruct (X5_add_fac_span Toy.prdb (BeeFacRegion.mk 0x400 0x400 0))
    as (_ & Hd & _ & Hmono).
  - repeat constructor.
  - reflexivity.
  - split; [exact Hd|]. apply Hmono; [exact toy_prdb_derived | reflexivity].
Defined.

(** [validate] on a PRDB whose regions are valid and whose addresses are
    derived: what is left to check. *)
Lemma prdb_validate_derived (p : BeeProtectRegionBlock.t) :
  derived_addresses p ->
  Forall (fun f => BeeFacRegion.validate f = Ok tt)
         (BeeProtectRegionBlock.fac_regions p) ->
  BeeProtectRegionBlock.mode p = BeeProtectRegionBlockAesMode.CTR ->
  length (BeeProtectRegionBlock.counter p) = 16%nat ->
  drop 12 (BeeProtectRegionBlock.counter p) = zeros 4 ->
  BeeProtectRegionBlock.validate p
  = (_ ← raise_if ((BeeProtectRegionBlock.fac_count p <=? 0)%nat
                   || (4 <? BeeProtectRegionBlock.fac_count p)%nat)
                  (SPSDKError "Invalid FAC regions");
     Ok tt).
Proof.
  intros Hd Hf Hm Hc Ht. destruct (derived_range p Hd Hf) as (H0 & H1 & H2).
  unfold BeeProtectRegionBlock.validate, BeeProtectRegionBlock.FAC_REGIONS.
  replace ((_ <? 0) || (_ >? 0xFFFFFFFF)) with false by lia.
  replace ((_ >? _) || (_ >? 0xFFFFFFFF)) with false by lia.
  rewrite Hm, Z.eqb_refl, Hc. cbn [Nat.sub Nat.eqb negb].
  rewrite Ht, bool_decide_refl_bytes. cbn [negb].
  rewrite !raise_if_false, !bind_Ok_l.
  destruct (raise_if _ _) as [[]|]; [|reflexivity].
  rewrite !bind_Ok_l. now apply validate_facs_Forall.
Qed.

(** X6 — The limit of four regions is checked by [validate], not by
    [add_fac].  Adding a valid region to a valid PRDB gives a valid PRDB
    when it had fewer than four regions; with four regions the PRDB with
    the fifth is rejected by [validate] and by [export]. *)
Theorem X6_add_fac_limit (p : BeeProtectRegionBlock.t) (fac : BeeFacRegion.t) :
  BeeProtectRegionBlock.validate p = Ok tt ->
  BeeFacRegion.validate fac = Ok tt ->
  let p' := BeeProtectRegionBlock.add_fac p fac in
  ((BeeProtectRegionBlock.fac_count p < 4)%nat ->
   BeeProtectRegionBlock.validate p' = Ok tt)
  /\ (BeeProtectRegionBlock.fac_count p = 4%nat ->
      BeeProtectRegionBlock.validate p' = Err (SPSDKError "Invalid FAC regions")
      /\ snd (BeeProtectRegionBlock.export p') = Err (SPSDKError "Invalid FAC regions")).
Proof.
  intros Hv Hfv p'. apply prdb_validate_Ok in Hv as [_ _ Hm Hc Ht Hn Hf].
  destruct (add_fac_properties p fac Hf Hfv) as (Hd & _ & _). fold p' in Hd.
  assert (Hf' : Forall (fun f => BeeFacRegion.validate f = Ok tt)
                       (BeeProtectRegionBlock.fac_regions p'))
    by (apply Forall_app; split; [exact Hf | now repeat constructor]).
  pose proof (prdb_validate_derived p' Hd Hf' Hm Hc Ht) as Hval.
  assert (Hcount : BeeProtectRegionBlock.fac_count p'
                   = S (BeeProtectRegionBlock.fac_count p)).
  { unfold BeeProtectRegionBlock.fac_count, p'.
    rewrite add_fac_fac_regions, length_app. simpl. lia. }
  rewrite Hcount in Hval. unfold BeeProtectRegionBlock.fac_count in *. split.
  - intros Hlt. rewrite Hval.
    replace ((_ <=? 0)%nat || (4 <? _)%nat) with false; [reflexivity|].
    symmetry. apply orb_false_iff. split; [apply Nat.leb_gt | apply Nat.ltb_ge]; lia.
  - intros H4. rewrite H4 in Hval. split; [exact Hval|].
    unfold BeeProtectRegionBlock.export. cbn [snd].
    replace (BeeProtectRegionBlock.update p') with p'
      by (unfold p', BeeProtectRegionBlock.add_fac; now rewrite prdb_update_idem).
    now rewrite Hval.
Qed.

Lemma X6_add_fac_limit_witness :
  BeeProtectRegionBlock.validate
    (BeeProtectRegionBlock.add_fac Toy.prdb (BeeFacRegion.mk 0x400 0x400 0)) = Ok tt.
Proof.
  apply (proj1 (X6_add_fac_limit Toy.prdb (BeeFacRegion.mk 0x400 0x400 0)
                  eq_refl eq_refl)).
  vm_compute. lia.
Defined.

(** ** Encrypting a block inside a region *)

Section EncryptInside.
Context `{cb : CryptoBackend}.

(** The region loop skips the regions that do not hold the address. *)
Lemma encrypt_block_facs_skip (p : BeeProtectRegionBlock.t) (key : bytes)
  (start_addr : Z) (data : bytes) (g : rng) (pre post : list BeeFacRegion.t) :
  Forall (fun fac => ~ in_region start_addr fac) pre ->
  BeeProtectRegionBlock.encrypt_block_facs p key start_addr data g (pre ++ post)
  = BeeProtectRegionBlock.encrypt_block_facs p key start_addr data g post.
Proof.
  induction 1 as [|fac pre Hout _ IH]; [reflexivity|].
  cbn [app BeeProtectRegionBlock.encrypt_block_facs]. unfold in_region in Hout.
  replace ((BeeFacRegion.start_addr fac <=? start_addr)
           && (start_addr <? BeeFacRegion.end_addr fac)) with false by lia.
  exact IH.
Qed.

Lemma derived_inside (p : BeeProtectRegionBlock.t) (fac : BeeFacRegion.t)
  (start_addr : Z) :
  derived_addresses p -> fac ∈ BeeProtectRegionBlock.fac_regions p ->
  in_region start_addr fac ->
  BeeProtectRegionBlock.is_inside_region p start_addr = true.
Proof.
  intros [[_ Hsall] [_ Heall]] Hin Hr.
  rewrite Forall_fmap, Forall_forall in Hsall, Heall.
  pose proof (Hsall _ Hin) as H1. pose proof (Heall _ Hin) as H2.
  unfold compose in H1, H2. unfold in_region in Hr.
  unfold BeeProtectRegionBlock.is_inside_region. lia.
Qed.

Lemma encrypt_block_in_region (p : BeeProtectRegionBlock.t) (key : bytes)
  (start_addr : Z) (data : bytes) (g : rng) (fac : BeeFacRegion.t)
  (pre post : list BeeFacRegion.t) :
  derived_addresses p ->
  BeeProtectRegionBlock.mode p = BeeProtectRegionBlockAesMode.CTR ->
  length key = 16%nat -> (length data <= 1024)%nat ->
  BeeProtectRegionBlock.fac_regions p = pre ++ fac :: post ->
  Forall (fun f => ~ in_region start_addr f) pre ->
  in_region start_addr fac ->
  BeeProtectRegionBlock.encrypt_block p key start_addr data g
  = (_ ← raise_if (start_addr + Z.of_nat (length data) >? BeeFacRegion.end_addr fac)
                  (SPSDKError "Invalid range of region");
     let '(data, g) := align_block_fill_random data 16 g in
     Ok (aes_ctr_encrypt key data
           (Counter_value (BeeProtectRegionBlock.counter p) (Z.shiftr start_addr 4)
                          BigEndian), g)).
Proof.
  intros Hd Hm Hk Hl Hf Hpre Hin.
  assert (Hins : BeeProtectRegionBlock.is_inside_region p start_addr = true).
  { apply (derived_inside p fac); try assumption.
    rewrite Hf. apply elem_of_app. right. apply elem_of_cons. now left. }
  unfold BeeProtectRegionBlock.encrypt_block.
  rewrite length_check_Ok, bind_Ok_l, Hins, Hm, Z.eqb_refl, Hk by assumption.
  cbn [negb Nat.eqb]. rewrite !raise_if_false, !bind_Ok_l, Hf.
  rewrite encrypt_block_facs_skip by exact Hpre.
  cbn [BeeProtectRegionBlock.encrypt_block_facs]. unfold in_region in Hin.
  replace ((BeeFacRegion.start_addr fac <=? start_addr)
           && (start_addr <? BeeFacRegion.end_addr fac)) with true by lia.
  reflexivity.
Qed.

(** X7 — A block must end within the region it starts in.  For a PRDB with
    derived addresses in CTR mode and a 16-byte key: when the first region
    of the list that holds the start address ends before the end of the
    block, [encrypt_block] raises "Invalid range of region" (whether or
    not a later region holds the rest of the block). *)
Theorem X7_encrypt_block_range (p : BeeProtectRegionBlock.t) (key : bytes)
  (start_addr : Z) (data : bytes) (g : rng) (fac : BeeFacRegion.t)
  (pre post : list BeeFacRegion.t) :
  derived_addresses p ->
  BeeProtectRegionBlock.mode p = BeeProtectRegionBlockAesMode.CTR ->
  length key = 16%nat -> (length data <= 1024)%nat ->
  BeeProtectRegionBlock.fac_regions p = pre ++ fac :: post ->
  Forall (fun f => ~ in_region start_addr f) pre ->
  in_region start_addr fac ->
  BeeFacRegion.end_addr fac < start_addr + Z.of_nat (length data) ->
  BeeProtectRegionBlock.encrypt_block p key start_addr data g
  = Err (SPSDKError "Invalid range of region").
Proof.
  intros Hd Hm Hk Hl Hf Hpre Hin Hend.
  rewrite (encrypt_block_in_region p key start_addr data g fac pre post)
    by assumption.
  replace (start_addr + Z.of_nat (length data) >? BeeFacRegion.end_addr fac)
    with true by lia.
  reflexivity.
Qed.

End EncryptInside.

(** A block of two bytes at 0x13ff, the last address of the first stand-in
    region. *)
Lemma X7_encrypt_block_range_witness :
  @BeeProtectRegionBlock.encrypt_block Toy.backend Toy.prdb Toy.key16 0x13ff
     [x01; x02] Toy.tape0 = Err (SPSDKError "Invalid range of region").
Proof.
  apply (@X7_encrypt_block_range Toy.backend Toy.prdb Toy.key16 0x13ff [x01; x02]
           Toy.tape0 Toy.fac1 [] [Toy.fac2]);
    try reflexivity; try exact toy_prdb_derived.
  - simpl. lia.
  - constructor.
  - unfold in_region. vm_compute. split; [discriminate | reflexivity].
Defined.

Section EncryptLength.
Context `{cb : CryptoBackend} {laws : CryptoBackendLaws cb}.

(** X8 — The cipher text of a block inside a region.  For a valid PRDB and
    a 16-byte key, a block of at most 1024 bytes that lies within the first
    region holding its start address is padded with random bytes to a
    multiple of 16 bytes and encrypted in one AES-CTR call under the
    counter value of its address; the result is as long as the padded
    block and a block of whole AES blocks keeps its length. *)
Theorem X8_encrypt_block_inside (p : BeeProtectRegionBlock.t) (key : bytes)
  (start_addr : Z) (data : bytes) (g : rng) (fac : BeeFacRegion.t)
  (pre post : list BeeFacRegion.t) :
  BeeProtectRegionBlock.validate p = Ok tt -> derived_addresses p ->
  length key = 16%nat -> (length data <= 1024)%nat ->
  BeeProtectRegionBlock.fac_regions p = pre ++ fac :: post ->
  Forall (fun f => ~ in_region start_addr f) pre ->
  in_region start_addr fac ->
  start_addr + Z.of_nat (length data) <= BeeFacRegion.end_addr fac ->
  let k := ((16 - length data mod 16) mod 16)%nat in
  let padded := data ++ fst (random_bytes k g) in
  exists out g',
    BeeProtectRegionBlock.encrypt_block p key start_addr data g = Ok (out, g')
    /\ out = aes_ctr_encrypt key padded
               (Counter_value (BeeProtectRegionBlock.counter p)
                              (Z.shiftr start_addr 4) BigEndian)
    /\ (forall i, g' i = g (k + i)%nat)
    /\ length out = (length data + k)%nat
    /\ (length out mod 16 = 0)%nat.
Proof.
  intros Hv Hd Hk Hl Hf Hpre Hin Hend k padded.
  apply prdb_validate_Ok in Hv as [_ _ Hm Hc _ _ _].
  rewrite (encrypt_block_in_region p key start_addr data g fac pre post)
    by assumption.
  replace (start_addr + Z.of_nat (length data) >? BeeFacRegion.end_addr fac)
    with false by lia.
  rewrite raise_if_false, bind_Ok_l. unfold align_block_fill_random.
  fold k. subst padded. unfold random_bytes. cbn [fst].
  assert (Hmod : ((length data + k) mod 16 = 0)%nat).
  { subst k. pose proof (Nat.mod_upper_bound (length data) 16 ltac:(lia)) as Hub.
    rewrite (Nat.div_mod_eq (length data) 16) at 1.
    destruct (length data mod 16)%nat as [|m] eqn:Em.
    - rewrite Nat.Div0.mod_same. rewrite !Nat.add_0_r, Nat.mul_comm.
      apply Nat.Div0.mod_mul.
    - rewrite (Nat.mod_small (16 - S m)) by lia.
      replace (16 * (length data / 16) + S m + (16 - S m))%nat
        with ((length data / 16 + 1) * 16)%nat by lia.
      apply Nat.Div0.mod_mul. }
  assert (Hlen : forall d, length (aes_ctr_encrypt key d
                    (Counter_value (BeeProtectRegionBlock.counter p)
                                   (Z.shiftr start_addr 4) BigEndian)) = length d).
  { intros d. apply ctr_encrypt_length; [exact Hk|]. now apply Counter_value_length. }
  destruct (k =? 0)%nat eqn:Ek.
  - apply Nat.eqb_eq in Ek. rewrite Ek in *. cbn [seq map]. rewrite app_nil_r.
    eexists _, _. split; [reflexivity|]. split; [reflexivity|].
    split; [reflexivity|]. rewrite Hlen. split; [lia|].
    now rewrite Nat.add_0_r in Hmod.
  - eexists _, _. split; [reflexivity|]. split; [reflexivity|].
    split; [reflexivity|]. rewrite Hlen, length_app, length_map, length_seq.
    split; [reflexivity | exact Hmod].
Qed.

End EncryptLength.

(** A block of one byte at 0x1000 becomes a cipher text of 16 bytes, and 15
    bytes of the tape are used. *)
Lemma X8_encrypt_block_inside_witness :
  exists out g',
    @BeeProtectRegionBlock.encrypt_block Toy.backend Toy.prdb Toy.key16 0x1000
       [x01] Toy.tape1 = Ok (out, g')
    /\ length out = 16%nat.
Proof.
  destruct (@X8_encrypt_block_inside Toy.backend toy_laws Toy.prdb Toy.key16
              0x1000 [x01] Toy.tape1 Toy.fac1 [] [Toy.fac2])
    as (out & g' & He & _ & _ & Hl & _);
    try reflexivity; try exact toy_prdb_derived.
  - simpl. lia.
  - constructor.
  - unfold in_region. vm_compute. split; [discriminate | reflexivity].
  - vm_compute. discriminate.
  - exists out, g'. split; [exact He | exact Hl].
Defined.

(** ** Fuse values *)

Lemma be_word_int_from_bytes (a b c d : byte) :
  be_word [a; b; c; d] = int_from_bytes BigEndian [a; b; c; d].
Proof.
  unfold be_word, int_from_bytes. cbn [fold_left reverse rev_append le_combine]. lia.
Qed.

Lemma sw_key_fuses_long (h : BeeRegionHeader.t)
  (b0 b1 b2 b3 b4 b5 b6 b7 b8 b9 b10 b11 b12 b13 b14 b15 : byte) (rest : bytes) :
  BeeRegionHeader._sw_key h
  = [b0; b1; b2; b3; b4; b5; b6; b7; b8; b9; b10; b11; b12; b13; b14; b15] ++ rest ->
  BeeRegionHeader.sw_key_fuses h
  = Ok [be_word [b12; b13; b14; b15]; be_word [b8; b9; b10; b11];
        be_word [b4; b5; b6; b7]; be_word [b0; b1; b2; b3]].
Proof.
  intros Hk. unfold BeeRegionHeader.sw_key_fuses. rewrite Hk.
  cbn [BeeRegionHeader.sw_key_fuses_loop].
  unfold BeeRegionHeader.unpack_be_word, unpack_from, slice.
  cbn [Nat.sub take drop firstn skipn length calcsize calcsize_items items
       item_size foldr order unpack_items int_from_bytes app].
  rewrite !take_0. cbn [length].
  change (Z.of_nat 4 - Z.of_nat 0 <? Z.of_nat (4 + 0)) with false.
  cbv beta iota. rewrite !bind_Ok_l. cbn [app]. do 2 f_equal;
    [|f_equal; [|f_equal; [|f_equal]]];
    unfold be_word; cbn [reverse rev_append le_combine fold_left]; lia.
Qed.

Lemma sw_key_fuses_short (h : BeeRegionHeader.t) :
  (length (BeeRegionHeader._sw_key h) < 16)%nat ->
  BeeRegionHeader.sw_key_fuses h = Err struct_error.
Proof.
  intros Hl. unfold BeeRegionHeader.sw_key_fuses.
  cbn [BeeRegionHeader.sw_key_fuses_loop].
  assert (E : BeeRegionHeader.unpack_be_word
                (slice (16 - 4) 16 (BeeRegionHeader._sw_key h)) = Err struct_error).
  { unfold BeeRegionHeader.unpack_be_word, unpack_from.
    replace (_ <? _) with true; [reflexivity|].
    symmetry. apply Z.ltb_lt. unfold slice.
    rewrite length_take, length_drop.
    change (calcsize (Format BigEndian [fmt_I])) with 4%nat. lia. }
  now rewrite E.
Qed.

(** X9 — [sw_key_fuses] needs 16 bytes of key.  A software key shorter
    than 16 bytes raises [struct.error]; of a key of 16 bytes or more the
    first 16 bytes give the four words and the bytes after them are
    ignored. *)
Theorem X9_sw_key_fuses_length (h : BeeRegionHeader.t) :
  let k := BeeRegionHeader._sw_key h in
  ((length k < 16)%nat -> BeeRegionHeader.sw_key_fuses h = Err struct_error)
  /\ ((16 <= length k)%nat ->
      BeeRegionHeader.sw_key_fuses h
      = Ok [be_word (slice 12 16 k); be_word (slice 8 12 k);
            be_word (slice 4 8 k); be_word (slice 0 4 k)]).
Proof.
  intros k. subst k. split; [apply sw_key_fuses_short|]. intros Hl.
  destruct (BeeRegionHeader._sw_key h) as [|b0 [|b1 [|b2 [|b3 [|b4 [|b5 [|b6 [|b7
    [|b8 [|b9 [|b10 [|b11 [|b12 [|b13 [|b14 [|b15 rest]]]]]]]]]]]]]]]] eqn:Hk;
    try (simpl in Hl; lia).
  unfold slice. cbn [Nat.sub take drop firstn skipn].
  now apply (sw_key_fuses_long h b0 b1 b2 b3 b4 b5 b6 b7 b8 b9 b10 b11 b12 b13
               b14 b15 rest).
Qed.

Lemma X9_sw_key_fuses_length_witness :
  BeeRegionHeader.sw_key_fuses
    (BeeRegionHeader.mk Toy.prdb (take 15 Toy.key16) Toy.kib) = Err struct_error
  /\ BeeRegionHeader.sw_key_fuses
       (BeeRegionHeader.mk Toy.prdb (Toy.key16 ++ [xff]) Toy.kib)
     = Ok [0x0C0D0E0F; 0x08090A0B; 0x04050607; 0x00010203].
Proof.
  split.
  - apply (proj1 (X9_sw_key_fuses_length
                    (BeeRegionHeader.mk Toy.prdb (take 15 Toy.key16) Toy.kib))).
    simpl. lia.
  - rewrite (proj2 (X9_sw_key_fuses_length
                      (BeeRegionHeader.mk Toy.prdb (Toy.key16 ++ [xff]) Toy.kib)));
      [reflexivity | simpl; lia].
Defined.

(** X10 — The fuse values determine the key.  For a 16-byte software key,
    writing the four fuse values in reverse order as big-endian 32-bit
    words gives the key back. *)
Theorem X10_sw_key_from_fuses (h : BeeRegionHeader.t) (fuses : list Z) :
  length (BeeRegionHeader._sw_key h) = 16%nat ->
  BeeRegionHeader.sw_key_fuses h = Ok fuses ->
  concat (map (int_to_bytes BigEndian 4) (reverse fuses)) = BeeRegionHeader._sw_key h.
Proof.
  intros Hl Hf.
  destruct (BeeRegionHeader._sw_key h) as [|b0 [|b1 [|b2 [|b3 [|b4 [|b5 [|b6 [|b7
    [|b8 [|b9 [|b10 [|b11 [|b12 [|b13 [|b14 [|b15 [|]]]]]]]]]]]]]]]]] eqn:Hk;
    try discriminate Hl.
  rewrite (sw_key_fuses_long h b0 b1 b2 b3 b4 b5 b6 b7 b8 b9 b10 b11 b12 b13 b14
             b15 []) in Hf by (now rewrite Hk).
  inversion Hf; subst fuses; clear Hf.
  cbn [reverse rev_append map concat]. rewrite !be_word_int_from_bytes.
  rewrite !int_to_from_bytes by reflexivity. reflexivity.
Qed.

Lemma X10_sw_key_from_fuses_witness :
  concat (map (int_to_bytes BigEndian 4)
              (reverse [0x0C0D0E0F; 0x08090A0B; 0x04050607; 0x00010203]))
  = Toy.key16.
Proof.
  apply (X10_sw_key_from_fuses Toy.header); reflexivity.
Defined.

(** ** Parsing and building headers *)

Section HeaderParse.
Context `{cb : CryptoBackend}.

(** X11 — What [BeeRegionHeader.parse] checks, and in which order.  Data
    with fewer than 512 bytes after the offset is rejected first, then a
    software key that is not 16 bytes long; a header that parses passes
    [validate], carries the software key it was parsed with, and no random
    byte was read. *)
Theorem X11_header_parse_checks (data : bytes) (offset : nat) (sw_key : bytes)
  (g : rng) :
  ((length data < offset + 512)%nat ->
   BeeRegionHeader.parse data offset sw_key g
   = Err (SPSDKError "Insufficient size of the data"))
  /\ ((offset + 512 <= length data)%nat -> length sw_key <> 16%nat ->
      BeeRegionHeader.parse data offset sw_key g = Err (SPSDKError "Invalid sw key"))
  /\ (forall h g',
        BeeRegionHeader.parse data offset sw_key g = Ok (h, g') ->
        g' = g /\ BeeRegionHeader.validate h = Ok tt
        /\ BeeRegionHeader._sw_key h = sw_key).
Proof.
  unfold BeeRegionHeader.parse, BeeBaseClass_parse.
  change BeeRegionHeader._size with 512%nat.
  split; [|split].
  - intros Hl.
    destruct (Z.ltb_spec (Z.of_nat (length data) - Z.of_nat offset) (Z.of_nat 512));
      [reflexivity | lia].
  - intros Hl Hk.
    destruct (Z.ltb_spec (Z.of_nat (length data) - Z.of_nat offset) (Z.of_nat 512));
      [lia|].
    rewrite raise_if_false, bind_Ok_l.
    destruct (Nat.eqb_spec (length sw_key) 16); [contradiction | reflexivity].
  - intros h g' Hp.
    assert (Hg : g' = g).
    { pose proof (header_parse_tape data offset sw_key g g) as E.
      unfold BeeRegionHeader.parse, BeeBaseClass_parse in E.
      change BeeRegionHeader._size with 512%nat in E.
      rewrite Hp in E. cbn in E. now inversion E. }
    split; [exact Hg|].
    inv_bind Hp. destruct a1 as [kib g1]. inv_bind Hp. destruct a1 as [prdb g2].
    cbn [BeeRegionHeader.init] in Hp. inv_bind Hp.
    inversion Hp; subst h; clear Hp.
    match goal with Hs : BeeRegionHeader.validate _ = Ok ?u |- _ =>
      destruct u; split; [exact Hs | reflexivity] end.
Qed.

End HeaderParse.

Lemma X11_header_parse_checks_witness :
  @BeeRegionHeader.parse Toy.backend Toy.prdb_bytes 0 (take 15 Toy.key16) Toy.tape0
  = Err (SPSDKError "Insufficient size of the data")
  /\ @BeeRegionHeader.parse Toy.backend (Toy.prdb_bytes ++ Toy.prdb_bytes) 0
       (take 15 Toy.key16) Toy.tape0 = Err (SPSDKError "Invalid sw key").
Proof.
  split.
  - apply (proj1 (@X11_header_parse_checks Toy.backend Toy.prdb_bytes 0
                    (take 15 Toy.key16) Toy.tape0)).
    vm_compute. lia.
  - apply (proj1 (proj2 (@X11_header_parse_checks Toy.backend
                           (Toy.prdb_bytes ++ Toy.prdb_bytes) 0
                           (take 15 Toy.key16) Toy.tape0))).
    + vm_compute. lia.
    + vm_compute. lia.
Defined.

Lemma random_bytes_length (n : nat) (g : rng) : length (fst (random_bytes n g)) = n.
Proof. unfold random_bytes. cbn [fst]. now rewrite length_map, length_seq. Qed.

Lemma map_seq_shift (g : rng) (k n s : nat) :
  map (fun i => g (k + i)%nat) (seq s n) = map g (seq (k + s) n).
Proof.
  revert s. induction n as [|n IH]; intros s; [reflexivity|].
  cbn [seq map]. f_equal. rewrite IH. now rewrite Nat.add_succ_r.
Qed.

(** X12 — A header built from defaults.  The constructor without arguments
    draws a 12-byte counter prefix, a 16-byte software key and a 16-byte
    KIB key and IV from the random source, 60 bytes in that order.  Such a
    header is rejected by [validate] for having no FAC region, and passes
    [validate] once a valid region has been added. *)
Theorem X12_default_header (g : rng) (fac : BeeFacRegion.t) :
  BeeFacRegion.validate fac = Ok tt ->
  let '(h, g') := BeeRegionHeader.init None None None g in
  BeeProtectRegionBlock.counter (BeeRegionHeader._prdb h)
    = map g (seq 0 12) ++ zeros 4
  /\ BeeRegionHeader._sw_key h = map g (seq 12 16)
  /\ BeeKIB.kib_key (BeeRegionHeader._kib h) = map g (seq 28 16)
  /\ BeeKIB.kib_iv (BeeRegionHeader._kib h) = map g (seq 44 16)
  /\ (forall i, g' i = g (60 + i)%nat)
  /\ BeeRegionHeader.validate h = Err (SPSDKError "Invalid FAC regions")
  /\ BeeRegionHeader.validate (BeeRegionHeader.add_fac h fac) = Ok tt.
Proof.
  intros Hv.
  cbn [BeeRegionHeader.init BeeProtectRegionBlock.init BeeKIB.init truthy
       random_bytes BeeRegionHeader._prdb BeeRegionHeader._sw_key
       BeeRegionHeader._kib BeeProtectRegionBlock.counter BeeKIB.kib_key
       BeeKIB.kib_iv].
  assert (S1 : forall k, map (fun i => g (k + i)%nat) (seq 0 16) = map g (seq k 16)).
  { intros k. rewrite (map_seq_shift g k 16 0). now rewrite Nat.add_0_r. }
  split; [reflexivity|]. split; [exact (S1 12%nat)|].
  split; [exact (S1 28%nat)|]. split; [exact (S1 44%nat)|].
  split; [intros i; f_equal; lia|].
  assert (Hk : forall (f : nat -> byte), length (map f (seq 0 16)) = 16%nat)
    by (intros f; now rewrite length_map, length_seq).
  split.
  - unfold BeeRegionHeader.validate, BeeKIB.validate, BeeKIB._KEY_LEN.
    cbn [BeeRegionHeader._kib BeeKIB.kib_key BeeKIB.kib_iv BeeRegionHeader._prdb].
    rewrite !Hk. reflexivity.
  - apply header_validate_Ok.
    cbn [BeeRegionHeader.add_fac BeeRegionHeader._kib BeeRegionHeader._prdb
         BeeRegionHeader._sw_key].
    split; [apply kib_validate_Ok; cbn [BeeKIB.kib_key BeeKIB.kib_iv]; now rewrite !Hk|].
    split; [|apply Hk].
    match goal with |- BeeProtectRegionBlock.validate (BeeProtectRegionBlock.add_fac ?p _) = _ =>
      destruct (add_fac_properties p fac ltac:(constructor) Hv) as (Hd & _ & _);
      rewrite (prdb_validate_derived _ Hd)
    end; try reflexivity.
    repeat constructor. exact Hv.
Qed.

Lemma X12_default_header_witness :
  BeeRegionHeader.validate
    (BeeRegionHeader.add_fac (fst (BeeRegionHeader.init None None None Toy.tape1))
                             Toy.fac1) = Ok tt.
Proof.
  pose proof (X12_default_header Toy.tape1 Toy.fac1 eq_refl) as H.
  destruct (BeeRegionHeader.init None None None Toy.tape1) as [h g'].
  destruct H as (_ & _ & _ & _ & _ & _ & H). exact H.
Defined.

(** ** Regions registered on the engines *)

Lemma deref_store_set_same (st : BeeNxp.store) (r : BeeNxp.ref)
  (p : BeeProtectRegionBlock.t) (h : BeeNxp.header) :
  BeeNxp._prdb h = r ->
  BeeNxp.deref (BeeNxp.store_set r p st) h
  = BeeRegionHeader.mk p (BeeNxp._sw_key h) (BeeNxp._kib h).
Proof.
  intros <-. unfold BeeNxp.deref, BeeNxp.store_set. cbn [BeeNxp.prdb_at].
  now rewrite Nat.eqb_refl.
Qed.

Lemma deref_store_set_other (st : BeeNxp.store) (r : BeeNxp.ref)
  (p : BeeProtectRegionBlock.t) (h : BeeNxp.header) :
  BeeNxp._prdb h <> r ->
  BeeNxp.deref (BeeNxp.store_set r p st) h = BeeNxp.deref st h.
Proof.
  intros Hne. unfold BeeNxp.deref, BeeNxp.store_set. cbn [BeeNxp.prdb_at].
  destruct (Nat.eqb_spec (BeeNxp._prdb h) r); [contradiction | reflexivity].
Qed.

Lemma add_fac_region_Ok (st : BeeNxp.store) (hs : list BeeNxp.header)
  (engine_idx : nat) (h : BeeNxp.header) (fac : BeeFacRegion.t) :
  hs !! engine_idx = Some h ->
  (forall h' r, h' ∈ hs -> r ∈ BeeNxp.fac_regions st h' ->
                ~ in_region (BeeFacRegion.start_addr fac) r) ->
  BeeNxp.add_fac_region st hs engine_idx fac
  = Ok (BeeNxp.store_set (BeeNxp._prdb h)
          (BeeProtectRegionBlock.add_fac (BeeNxp.prdb_at st (BeeNxp._prdb h)) fac)
          st).
Proof.
  intros Hh Hout. unfold BeeNxp.add_fac_region.
  destruct (check_overlaps_spec st hs (BeeFacRegion.start_addr fac))
    as [(_ & h' & r & Hin & Hr & Hov) | (Ho & _)].
  - exfalso. exact (Hout h' r Hin Hr Hov).
  - rewrite Ho, bind_Ok_l. unfold BeeNxp.header_add_fac. now rewrite Hh.
Qed.

Lemma add_fac_region_inv (st st' : BeeNxp.store) (hs : list BeeNxp.header)
  (engine_idx : nat) (fac : BeeFacRegion.t) :
  BeeNxp.add_fac_region st hs engine_idx fac = Ok st' ->
  exists h, hs !! engine_idx = Some h
    /\ st' = BeeNxp.store_set (BeeNxp._prdb h)
               (BeeProtectRegionBlock.add_fac (BeeNxp.prdb_at st (BeeNxp._prdb h)) fac)
               st.
Proof.
  unfold BeeNxp.add_fac_region, BeeNxp.header_add_fac. intros Ha. inv_bind Ha.
  destruct (hs !! engine_idx) as [h|]; [|discriminate Ha].
  exists h. split; [reflexivity|]. now inversion Ha.
Qed.

(** X13 — Only the start address of a new region is checked, and the
    region lands on every header that shares the PRDB object.  When the
    start address of the new region lies in no region registered on any
    header, [add_fac_region] accepts it, wherever the new region ends; the
    region is then the last region of every header that holds the same
    PRDB object as the addressed header, and the headers with another PRDB
    object are as before. *)
Theorem X13_add_fac_region_shared (st : BeeNxp.store) (hs : list BeeNxp.header)
  (engine_idx : nat) (h : BeeNxp.header) (fac : BeeFacRegion.t) :
  hs !! engine_idx = Some h ->
  (forall h' r, h' ∈ hs -> r ∈ BeeNxp.fac_regions st h' ->
                ~ in_region (BeeFacRegion.start_addr fac) r) ->
  exists st',
    BeeNxp.add_fac_region st hs engine_idx fac = Ok st'
    /\ (forall h', BeeNxp._prdb h' = BeeNxp._prdb h ->
          BeeNxp.fac_regions st' h' = BeeNxp.fac_regions st h' ++ [fac])
    /\ (forall h', BeeNxp._prdb h' <> BeeNxp._prdb h ->
          BeeNxp.deref st' h' = BeeNxp.deref st h').
Proof.
  intros Hh Hout. eexists. split; [exact (add_fac_region_Ok st hs engine_idx h fac Hh Hout)|]. split.
  - intros h' Hr. unfold BeeNxp.fac_regions.
    rewrite deref_store_set_same by assumption.
    unfold BeeRegionHeader.fac_regions, BeeNxp.deref.
    cbn [BeeRegionHeader._prdb]. rewrite add_fac_fac_regions. now rewrite Hr.
  - intros h' Hr. now apply deref_store_set_other.
Qed.

(** On the two engines that share the PRDB with the region [0x1000, 0x1400),
    the region [0xC00, 0x1800) is accepted and shows on the other engine. *)
Lemma X13_add_fac_region_shared_witness :
  exists st',
    BeeNxp.add_fac_region
      (BeeNxp.store_set 0%nat (BeeProtectRegionBlock.add_fac Toy.prdb0 Toy.fac1)
                        Toy.store0)
      Toy.headers2 1 (BeeFacRegion.mk 0xC00 0xC00 0) = Ok st'
    /\ BeeNxp.fac_regions st' (BeeNxp.Header 0%nat Toy.key16 Toy.kib)
       = [Toy.fac1; BeeFacRegion.mk 0xC00 0xC00 0].
Proof.
  destruct (X13_add_fac_region_shared
              (BeeNxp.store_set 0%nat
                 (BeeProtectRegionBlock.add_fac Toy.prdb0 Toy.fac1) Toy.store0)
              Toy.headers2 1 (BeeNxp.Header 0%nat (reverse Toy.key16) Toy.kib)
              (BeeFacRegion.mk 0xC00 0xC00 0) eq_refl) as (st' & Ha & Hs & _).
  - intros h' r Hh Hr.
    destruct (check_overlaps_spec
                (BeeNxp.store_set 0%nat
                   (BeeProtectRegionBlock.add_fac Toy.prdb0 Toy.fac1) Toy.store0)
                Toy.headers2 0xC00) as [(He & _) | (_ & Hall)].
    + vm_compute in He. discriminate He.
    + exact (Hall h' r Hh Hr).
  - exists st'. split; [exact Ha|].
    rewrite (Hs (BeeNxp.Header 0%nat Toy.key16 Toy.kib) eq_refl). reflexivity.
Defined.

(** ** Loading a configuration *)

Section LoadConfig.
Context `{cb : CryptoBackend}.

Lemma add_fac_region_out_of_range (st : BeeNxp.store) (hs : list BeeNxp.header)
  (engine_idx : nat) (fac : BeeFacRegion.t) :
  (length hs <= engine_idx)%nat ->
  exists e, BeeNxp.add_fac_region st hs engine_idx fac = Err e
    /\ (BeeNxp.check_overlaps st hs (BeeFacRegion.start_addr fac) = Ok tt ->
        e = IndexError).
Proof.
  intros Hl. unfold BeeNxp.add_fac_region, BeeNxp.header_add_fac.
  rewrite (lookup_ge_None_2 hs engine_idx Hl).
  destruct (BeeNxp.check_overlaps st hs _) as [[]|e].
  - exists IndexError. split; reflexivity.
  - exists e. split; [reflexivity | discriminate].
Qed.

Lemma load_regions_out_of_range (st : BeeNxp.store) (hs : list BeeNxp.header)
  (engine_idx : nat) (regions : list (Z * Z * Z)) :
  (length hs <= engine_idx)%nat -> regions <> [] ->
  exists e, BeeNxp.load_regions st hs engine_idx regions = Err e.
Proof.
  intros Hl Hne. destruct regions as [|[[s l] lv] rest]; [contradiction|].
  cbn [BeeNxp.load_regions].
  destruct (BeeFacRegion.init s l lv) as [fac|e]; [|now exists e].
  rewrite bind_Ok_l.
  destruct (add_fac_region_out_of_range st hs engine_idx fac Hl) as (e & He & _).
  rewrite He. now exists e.
Qed.

Lemma load_engines_out_of_range (engines : list BeeNxp.bee_engine) :
  forall (st : BeeNxp.store) (hs : list BeeNxp.header) (engine_idx k : nat)
         (e : BeeNxp.bee_engine),
    engines !! k = Some e -> BeeNxp.protected_region e <> [] ->
    (length hs <= engine_idx + k)%nat ->
    exists err, BeeNxp.load_engines st hs engine_idx engines = Err err.
Proof.
  induction engines as [|e0 engines IH]; intros st hs idx k e Hk Hne Hl;
    [discriminate Hk|].
  cbn [BeeNxp.load_engines]. destruct k as [|k].
  - injection Hk as ->.
    destruct (load_regions_out_of_range st hs idx (BeeNxp.protected_region e))
      as [err He]; [lia | exact Hne |].
    rewrite He. now exists err.
  - destruct (BeeNxp.load_regions st hs idx _) as [st1|err]; [|now exists err].
    rewrite bind_Ok_l. apply (IH st1 hs (S idx) k e Hk Hne). lia.
Qed.

Lemma load_headers_length (prdb : BeeNxp.ref) (kib : BeeKIB.t)
  (engines : list BeeNxp.bee_engine) (idxs : list nat) :
  forall (st : BeeNxp.store) (hs : list BeeNxp.header) (g : rng) st' hs' g',
    BeeNxp.load_headers prdb kib engines idxs st hs g = Ok (st', hs', g') ->
    length hs' = (length hs + length idxs)%nat.
Proof.
  induction idxs as [|i idxs IH]; intros st hs g st' hs' g' Hl;
    cbn [BeeNxp.load_headers] in Hl.
  - inversion Hl; subst. cbn [length]. lia.
  - destruct (engines !! i) as [e|]; [|discriminate Hl].
    destruct (BeeNxp.header_path e) as [bin|].
    + inv_bind Hl. destruct a as [ehdr g1].
      destruct (BeeNxp.alloc _ st) as [r st1].
      apply IH in Hl. rewrite length_app in Hl. cbn [length] in *. lia.
    + apply IH in Hl. rewrite length_app in Hl. cbn [length] in *. lia.
Qed.

(** X14 — Regions can only be configured under the first entries of
    [bee_engine], as many as engines are selected.  The headers are
    indexed by their position in the selection and the regions by the
    position of their engine entry, so a configuration with a protected
    region under an entry at or beyond the number of selected engines —
    the second entry under the selection "engine1", say — never loads. *)
Theorem X14_regions_beyond_selection (cfg : BeeNxp.config) (g : rng) (k : nat)
  (e : BeeNxp.bee_engine) :
  BeeNxp.cfg_bee_engine cfg !! k = Some e ->
  BeeNxp.protected_region e <> [] ->
  (length (BeeNxp.engine_selections (BeeNxp.cfg_engine_selection cfg)) <= k)%nat ->
  exists err, BeeNxp.load_from_config cfg g = Err err.
Proof.
  intros Hk Hne Hl. unfold BeeNxp.load_from_config.
  destruct (BeeProtectRegionBlock.init _ _ _ g) as [p g1].
  destruct (BeeKIB.init None None g1) as [kb g2].
  destruct (BeeNxp.alloc p _) as [r st0].
  destruct (BeeNxp.load_headers r kb _ _ st0 [] g2) as [[[st1 hs] g3]|err] eqn:Hh;
    [|now exists err].
  rewrite bind_Ok_l. apply load_headers_length in Hh. cbn [length] in Hh.
  destruct (load_engines_out_of_range (BeeNxp.cfg_bee_engine cfg) st1 hs 0 k e
              Hk Hne) as [err He]; [lia|].
  rewrite He. now exists err.
Qed.

Lemma load_headers_count (prdb : BeeNxp.ref) (kib : BeeKIB.t)
  (engines : list BeeNxp.bee_engine) (idxs : list nat) :
  forall (st : BeeNxp.store) (hs : list BeeNxp.header) (g : rng),
    (forall j e, j ∈ idxs -> engines !! j = Some e -> BeeNxp.header_path e = None) ->
    (exists i, i ∈ idxs /\ (length engines <= i)%nat) ->
    BeeNxp.load_headers prdb kib engines idxs st hs g
    = Err (SPSDKError "The count of BEE engines is invalid").
Proof.
  induction idxs as [|i idxs IH]; intros st hs g Hplain (j & Hj & Hlen).
  - now apply elem_of_nil in Hj.
  - cbn [BeeNxp.load_headers].
    destruct (engines !! i) as [e|] eqn:Hi; [|reflexivity].
    rewrite (Hplain i e (list_elem_of_here _ _) Hi).
    apply IH.
    + intros j' e' Hj'. apply Hplain. now apply list_elem_of_further.
    + exists j. split; [|exact Hlen].
      apply elem_of_cons in Hj as [-> | Hj]; [|exact Hj].
      apply lookup_ge_None_2 in Hlen. congruence.
Qed.

(** X15 — Too few engine entries.  When a selected engine has no entry in
    [bee_engine] and the entries of the selected engines name no header
    file, [load_from_config] fails with the [SPSDKError] "The count of BEE
    engines is invalid", whatever regions are configured. *)
Theorem X15_engine_count (cfg : BeeNxp.config) (g : rng) :
  (forall j e, j ∈ BeeNxp.engine_selections (BeeNxp.cfg_engine_selection cfg) ->
               BeeNxp.cfg_bee_engine cfg !! j = Some e ->
               BeeNxp.header_path e = None) ->
  (exists i, i ∈ BeeNxp.engine_selections (BeeNxp.cfg_engine_selection cfg)
             /\ (length (BeeNxp.cfg_bee_engine cfg) <= i)%nat) ->
  BeeNxp.load_from_config cfg g
  = Err (SPSDKError "The count of BEE engines is invalid").
Proof.
  intros Hplain Hi. unfold BeeNxp.load_from_config.
  destruct (BeeProtectRegionBlock.init _ _ _ g) as [p g1].
  destruct (BeeKIB.init None None g1) as [kb g2].
  destruct (BeeNxp.alloc p _) as [r st0].
  now rewrite load_headers_count.
Qed.

End LoadConfig.

(** Under "engine1" a region in the second engine entry cannot be loaded. *)
Lemma X14_regions_beyond_selection_witness :
  exists err,
    @BeeNxp.load_from_config Toy.backend
      (BeeNxp.Config [] BeeNxp.engine1
         [BeeNxp.BeeEngine Toy.key16 None [];
          BeeNxp.BeeEngine Toy.key16 None [(0x1000, 0x400, 1)]] 0)
      Toy.tape0 = Err err.
Proof.
  apply (@X14_regions_beyond_selection Toy.backend _ Toy.tape0 1%nat
           (BeeNxp.BeeEngine Toy.key16 None [(0x1000, 0x400, 1)])).
  - reflexivity.
  - discriminate.
  - cbn. lia.
Defined.

(** The selection "both" with a single engine entry. *)
Lemma X15_engine_count_witness :
  @BeeNxp.load_from_config Toy.backend
    (BeeNxp.Config [] BeeNxp.both
       [BeeNxp.BeeEngine Toy.key16 None [(0x1000, 0x400, 1)]] 0)
    Toy.tape0
  = Err (SPSDKError "The count of BEE engines is invalid").
Proof.
  apply (@X15_engine_count Toy.backend).
  - intros j e Hj He. cbn in Hj, He.
    destruct j as [|[|j]]; [now inversion He | discriminate He | discriminate He].
  - exists 1%nat. split; [|cbn; lia].
    cbn. apply list_elem_of_further, list_elem_of_here.
Defined.

Section LoadShared.
Context `{cb : CryptoBackend}.

Lemma load_headers_plain (prdb : BeeNxp.ref) (kib : BeeKIB.t)
  (engines : list BeeNxp.bee_engine) (idxs : list nat) :
  forall (st : BeeNxp.store) (hs : list BeeNxp.header) (g : rng) st' hs' g',
    (forall j e, j ∈ idxs -> engines !! j = Some e -> BeeNxp.header_path e = None) ->
    BeeNxp.load_headers prdb kib engines idxs st hs g = Ok (st', hs', g') ->
    st' = st /\ g' = g
    /\ exists new,
         hs' = hs ++ new
         /\ Forall2 (fun i h => exists e, engines !! i = Some e
                                 /\ h = BeeNxp.Header prdb (BeeNxp.user_key e) kib)
                    idxs new.
Proof.
  induction idxs as [|i idxs IH]; intros st hs g st' hs' g' Hplain Hl;
    cbn [BeeNxp.load_headers] in Hl.
  - inversion Hl; subst. repeat split. exists []. rewrite app_nil_r.
    split; [reflexivity | constructor].
  - destruct (engines !! i) as [e|] eqn:Hi; [|discriminate Hl].
    rewrite (Hplain i e (list_elem_of_here _ _) Hi) in Hl.
    apply IH in Hl as (-> & -> & new & -> & HF).
    + repeat split. exists (BeeNxp.Header prdb (BeeNxp.user_key e) kib :: new).
      rewrite <- app_assoc. split; [reflexivity|].
      constructor; [|exact HF]. now exists e.
    + intros j' e' Hj'. apply Hplain. now apply list_elem_of_further.
Qed.

Lemma load_regions_shared (r : BeeNxp.ref) (hs : list BeeNxp.header)
  (engine_idx : nat) (regions : list (Z * Z * Z)) :
  forall st st',
    Forall (fun h => BeeNxp._prdb h = r) hs ->
    BeeNxp.load_regions st hs engine_idx regions = Ok st' ->
    let facs := map (fun '(s, l, lv) => BeeFacRegion.mk s l lv) regions in
    Forall (fun fac => BeeFacRegion.validate fac = Ok tt) facs
    /\ BeeNxp.prdb_at st' r
       = fold_left BeeProtectRegionBlock.add_fac facs (BeeNxp.prdb_at st r).
Proof.
  induction regions as [|[[s l] lv] rest IH]; intros st st' Hr Hl;
    cbn [BeeNxp.load_regions] in Hl.
  - inversion Hl; subst. split; [constructor | reflexivity].
  - inv_bind Hl. apply fac_init_Ok in Hstep as [-> Hv].
    apply add_fac_region_inv in Hstep0 as (h & Hh & ->).
    assert (Hhr : BeeNxp._prdb h = r).
    { rewrite Forall_forall in Hr. apply Hr. now apply list_elem_of_lookup_2 in Hh. }
    rewrite Hhr in *.
    apply IH in Hl as [HF ->]; [|exact Hr].
    cbn zeta. cbn [map fold_left]. split; [now constructor|].
    unfold BeeNxp.store_set. cbn [BeeNxp.prdb_at]. now rewrite Nat.eqb_refl.
Qed.

Lemma load_engines_shared (r : BeeNxp.ref) (hs : list BeeNxp.header)
  (engines : list BeeNxp.bee_engine) :
  forall st st' engine_idx,
    Forall (fun h => BeeNxp._prdb h = r) hs ->
    BeeNxp.load_engines st hs engine_idx engines = Ok st' ->
    let facs := map (fun '(s, l, lv) => BeeFacRegion.mk s l lv)
                    (concat (map BeeNxp.protected_region engines)) in
    Forall (fun fac => BeeFacRegion.validate fac = Ok tt) facs
    /\ BeeNxp.prdb_at st' r
       = fold_left BeeProtectRegionBlock.add_fac facs (BeeNxp.prdb_at st r).
Proof.
  induction engines as [|e engines IH]; intros st st' idx Hr Hl;
    cbn [BeeNxp.load_engines] in Hl.
  - inversion Hl; subst. split; [constructor | reflexivity].
  - inv_bind Hl. apply (load_regions_shared r) in Hstep as [HF1 E1]; [|exact Hr].
    apply IH in Hl as [HF2 E2]; [|exact Hr].
    cbn zeta. cbn [map concat]. rewrite map_app, fold_left_app. split.
    + apply Forall_app. split; assumption.
    + now rewrite E2, E1.
Qed.

Lemma prdb_fold_counter (facs : list BeeFacRegion.t) (p : BeeProtectRegionBlock.t) :
  BeeProtectRegionBlock.counter (fold_left BeeProtectRegionBlock.add_fac facs p)
  = BeeProtectRegionBlock.counter p.
Proof.
  revert p; induction facs as [|f facs IH]; intros p; cbn [fold_left];
    [reflexivity|].
  now rewrite IH.
Qed.

(** X16 — What a configuration without header files loads to.  When none
    of the selected engines names a header file and [load_from_config]
    returns, there is one header per selected engine, with that engine
    entry's user key; all of them hold the one PRDB object and the one KIB
    made at the start (12 random bytes for the counter, then 16 for the
    KIB key and 16 for the IV), so every header carries all the regions of
    all the engine entries, in the order of the configuration, whatever
    entry they were written under.  All these regions are valid. *)
Theorem X16_load_from_config_shared (cfg : BeeNxp.config) (g g' : rng)
  (bee : BeeNxp.t) :
  (forall j e, j ∈ BeeNxp.engine_selections (BeeNxp.cfg_engine_selection cfg) ->
               BeeNxp.cfg_bee_engine cfg !! j = Some e ->
               BeeNxp.header_path e = None) ->
  BeeNxp.load_from_config cfg g = Ok (bee, g') ->
  let facs := map (fun '(s, l, lv) => BeeFacRegion.mk s l lv)
                  (concat (map BeeNxp.protected_region (BeeNxp.cfg_bee_engine cfg))) in
  let kib := BeeKIB.mk (map g (seq 12 16)) (map g (seq 28 16)) in
  Forall2 (fun i h => exists e, BeeNxp.cfg_bee_engine cfg !! i = Some e
                        /\ h = BeeNxp.Header 0%nat (BeeNxp.user_key e) kib)
          (BeeNxp.engine_selections (BeeNxp.cfg_engine_selection cfg))
          (BeeNxp.headers bee)
  /\ (forall h, h ∈ BeeNxp.headers bee ->
        BeeNxp.fac_regions (BeeNxp.objects bee) h = facs
        /\ BeeProtectRegionBlock.counter
             (BeeNxp.prdb_at (BeeNxp.objects bee) (BeeNxp._prdb h))
           = map g (seq 0 12) ++ zeros 4)
  /\ Forall (fun fac => BeeFacRegion.validate fac = Ok tt) facs
  /\ BeeNxp.input_image bee = BeeNxp.cfg_input_binary cfg
  /\ BeeNxp.base_address bee = BeeNxp.cfg_base_address cfg
  /\ (forall i, g' i = g (44 + i)%nat).
Proof.
  intros Hplain Hl facs kib. unfold BeeNxp.load_from_config in Hl.
  cbn [BeeProtectRegionBlock.init BeeKIB.init truthy random_bytes BeeNxp.alloc
       BeeNxp.next_ref BeeNxp.prdb_at] in Hl.
  inv_bind Hl. destruct a as [[st1 hs] g1]. inv_bind Hl.
  inversion Hl; subst bee g'; clear Hl.
  cbn [BeeNxp.headers BeeNxp.objects BeeNxp.input_image BeeNxp.base_address].
  apply load_headers_plain in Hstep as (-> & -> & new & -> & HF); [|exact Hplain].
  cbn [app] in *.
  assert (Hshare : Forall (fun h => BeeNxp._prdb h = 0%nat) new).
  { clear -HF. induction HF as [|i h idxs new (e & _ & ->) _ IH]; now constructor. }
  apply (load_engines_shared 0%nat) in Hstep0 as [HFv E]; [|exact Hshare].
  cbn [BeeNxp.prdb_at Nat.eqb] in E.
  assert (Hkib : forall k, map (fun i => g (k + i)%nat) (seq 0 16) = map g (seq k 16)).
  { intros k. rewrite (map_seq_shift g k 16 0). now rewrite Nat.add_0_r. }
  split; [|split; [|split; [exact HFv|]]].
  - clear -HF Hkib. induction HF as [|i h idxs new (e & He & ->) _ IH];
      constructor; [|exact IH].
    exists e. split; [exact He|]. unfold kib. rewrite (Hkib 12%nat).
    replace (map (fun i0 => g (12 + (16 + i0))%nat) (seq 0 16))
      with (map g (seq 28 16)); [reflexivity|].
    rewrite <- (Hkib 28%nat). apply map_ext. intros i0. f_equal; lia.
  - intros h Hh. rewrite Forall_forall in Hshare. rewrite (Hshare h Hh).
    unfold BeeNxp.fac_regions, BeeNxp.deref, BeeRegionHeader.fac_regions.
    cbn [BeeRegionHeader._prdb]. rewrite (Hshare h Hh), E.
    rewrite fold_add_fac_regions, prdb_fold_counter. split; reflexivity.
  - repeat split.
Qed.

End LoadShared.

(** The selection "both" with a region under each of two engine entries:
    either header carries both regions. *)
Lemma X16_load_from_config_shared_witness :
  exists bee g',
    @BeeNxp.load_from_config Toy.backend
      (BeeNxp.Config [x01; x02] BeeNxp.both
         [BeeNxp.BeeEngine Toy.key16 None [(0x1000, 0x400, 1)];
          BeeNxp.BeeEngine (reverse Toy.key16) None [(0x2000, 0x401, 3)]] 0x1000)
      Toy.tape1 = Ok (bee, g')
    /\ forall h, h ∈ BeeNxp.headers bee ->
         BeeNxp.fac_regions (BeeNxp.objects bee) h = [Toy.fac1; Toy.fac2].
Proof.
  eexists. eexists. split.
  - vm_compute. reflexivity.
  - intros h Hh.
    refine (proj1 (proj1 (proj2
      (@X16_load_from_config_shared Toy.backend
         (BeeNxp.Config [x01; x02] BeeNxp.both
            [BeeNxp.BeeEngine Toy.key16 None [(0x1000, 0x400, 1)];
             BeeNxp.BeeEngine (reverse Toy.key16) None [(0x2000, 0x401, 3)]] 0x1000)
         Toy.tape1 _ _ _ eq_refl)) h Hh)).
    intros j e Hj He.
    destruct j as [|[|j]]; cbn in He; [| |discriminate He];
      injection He as <-; reflexivity.
Defined.

(** ** Exporting the image *)

Lemma split_data_nil : split_data [] 1024 = [].
Proof. reflexivity. Qed.

Lemma split_data_cons (data : bytes) :
  data <> [] ->
  split_data data 1024 = take 1024 data :: split_data (drop 1024 data) 1024.
Proof.
  intros Hne. unfold split_data. rewrite length_drop.
  assert (Hpos : (0 < length data)%nat) by (destruct data; [contradiction | cbn; lia]).
  assert (E : ((length data + 1024 - 1) / 1024
               = S ((length data - 1024 + 1024 - 1) / 1024))%nat).
  { destruct (Nat.le_gt_cases (length data) 1024) as [Hle | Hgt].
    - replace (length data - 1024 + 1024 - 1)%nat with 1023%nat by lia.
      symmetry. apply (Nat.div_unique _ 1024 1 (length data - 1)); lia.
    - replace (length data + 1024 - 1)%nat
        with ((length data - 1024 + 1024 - 1) + 1 * 1024)%nat by lia.
      rewrite Nat.div_add by lia. lia. }
  rewrite E. cbn [seq map]. rewrite drop_0. f_equal.
  rewrite <- seq_shift, map_map. apply map_ext. intros i.
  rewrite drop_drop. f_equal.
Qed.

Section ExportImage.
Context `{cb : CryptoBackend}.

Lemma encrypt_chain_outside (hs : list BeeRegionHeader.t) (a : Z) (block : bytes)
  (g : rng) :
  (length block <= 1024)%nat ->
  Forall (fun h => BeeRegionHeader.is_inside_region h a = false) hs ->
  BeeNxp.encrypt_chain hs a block g = Ok (block, g).
Proof.
  intros Hl. induction 1 as [|h hs Hout _ IH]; cbn [BeeNxp.encrypt_chain];
    [reflexivity|].
  unfold BeeRegionHeader.encrypt_block, BeeProtectRegionBlock.encrypt_block.
  rewrite length_check_Ok, bind_Ok_l by exact Hl.
  unfold BeeRegionHeader.is_inside_region in Hout. rewrite Hout, bind_Ok_l.
  exact IH.
Qed.

Lemma export_blocks_outside (hs : list BeeRegionHeader.t) :
  forall (n : nat) (data : bytes) (base : Z) (acc : bytes) (g : rng),
    (length data <= n)%nat ->
    (forall k, (k * 1024 < length data)%nat ->
       Forall (fun h => BeeRegionHeader.is_inside_region h
                          (base + 1024 * Z.of_nat k) = false) hs) ->
    BeeNxp.export_blocks hs (split_data data 1024) base acc g
    = Ok (acc ++ data, g).
Proof.
  induction n as [|n IH]; intros data base acc g Hn Hout.
  - destruct data; [|cbn in Hn; lia]. rewrite split_data_nil.
    cbn [BeeNxp.export_blocks]. now rewrite app_nil_r.
  - destruct data as [|b data'] eqn:Hd.
    { rewrite split_data_nil. cbn [BeeNxp.export_blocks]. now rewrite app_nil_r. }
    rewrite <- Hd in *. assert (Hne : data <> []) by (rewrite Hd; discriminate).
    assert (Hpos : (0 < length data)%nat) by (rewrite Hd; cbn; lia).
    rewrite (split_data_cons data Hne). cbn [BeeNxp.export_blocks].
    rewrite encrypt_chain_outside.
    + rewrite bind_Ok_l. rewrite IH.
      * now rewrite <- app_assoc, take_drop.
      * rewrite length_drop. lia.
      * intros k Hk. rewrite length_drop in Hk.
        rewrite length_take.
        replace (base + Z.of_nat (1024 `min` length data) + 1024 * Z.of_nat k)
          with (base + 1024 * Z.of_nat (S k)) by lia.
        apply Hout. lia.
    + rewrite length_take. lia.
    + specialize (Hout 0%nat ltac:(lia)).
      now replace (base + 1024 * Z.of_nat 0) with base in Hout by lia.
Qed.

(** X17 — An image outside every engine's span is exported as it is.  When
    no block of the image, taken every 1024 bytes from the base address,
    starts within the span from start to end address of any header's
    PRDB, [export_image] returns the input image and reads no random byte,
    whatever the keys, the modes and the length of the image. *)
Theorem X17_export_image_outside (bee : BeeNxp.t) (g : rng) :
  (forall h k, h ∈ BeeNxp.headers bee ->
     (k * 1024 < length (BeeNxp.input_image bee))%nat ->
     BeeRegionHeader.is_inside_region (BeeNxp.deref (BeeNxp.objects bee) h)
       (BeeNxp.base_address bee + 1024 * Z.of_nat k) = false) ->
  BeeNxp.export_image bee g = Ok (BeeNxp.input_image bee, g).
Proof.
  intros Hout. unfold BeeNxp.export_image.
  change (Z.to_nat BEE_ENCR_BLOCK_SIZE) with 1024%nat.
  rewrite (export_blocks_outside _ (length (BeeNxp.input_image bee)));
    [reflexivity | lia |].
  intros k Hk. rewrite Forall_fmap, Forall_forall. intros h Hh.
  unfold compose. now apply Hout.
Qed.

End ExportImage.

(** The image of [Toy.bee], 2000 bytes long, placed at 0x2800, behind the
    regions of its engine. *)
Lemma X17_export_image_outside_witness :
  @BeeNxp.export_image Toy.backend
    (BeeNxp.mk (BeeNxp.objects Toy.bee) (BeeNxp.headers Toy.bee)
               (replicate 2000 x01) 0x2800) Toy.tape1
  = Ok (replicate 2000 x01, Toy.tape1).
Proof.
  apply (@X17_export_image_outside Toy.backend
           (BeeNxp.mk (BeeNxp.objects Toy.bee) (BeeNxp.headers Toy.bee)
                      (replicate 2000 x01) 0x2800) Toy.tape1).
  intros h k Hh Hk. cbn [BeeNxp.headers BeeNxp.input_image BeeNxp.objects
                         BeeNxp.base_address Toy.bee] in *.
  apply list_elem_of_singleton in Hh as ->.
  rewrite length_replicate in Hk.
  unfold BeeRegionHeader.is_inside_region, BeeProtectRegionBlock.is_inside_region.
  change (BeeProtectRegionBlock._end_addr _) with 0x2401.
  change (BeeProtectRegionBlock._start_addr _) with 0x1000. lia.
Defined.

Section ExportLength.
Context `{cb : CryptoBackend} {laws : CryptoBackendLaws cb}.

Lemma encrypt_chain_length (hs : list BeeRegionHeader.t) (a : Z) :
  Forall (fun h => length (BeeProtectRegionBlock.counter (BeeRegionHeader._prdb h))
                   = 16%nat) hs ->
  forall (block : bytes) (g : rng) (out : bytes) (g' : rng),
    (length block mod 16 = 0)%nat ->
    BeeNxp.encrypt_chain hs a block g = Ok (out, g') ->
    length out = length block /\ g' = g.
Proof.
  induction 1 as [|h hs Hc _ IH]; intros block g out g' Hl He;
    cbn [BeeNxp.encrypt_chain] in He.
  - now inversion He.
  - unfold BeeRegionHeader.encrypt_block in He.
    destruct (encrypt_block_aligned (BeeRegionHeader._prdb h)
                (BeeRegionHeader._sw_key h) a block Hl) as (r & Hr & Hlen).
    rewrite Hr in He. destruct r as [d|e]; [|discriminate He].
    cbn [lift_result] in He. rewrite bind_Ok_l in He.
    pose proof (Hlen Hc d eq_refl) as Hd.
    apply IH in He as [Ho ->]; [|now rewrite Hd].
    split; [congruence | reflexivity].
Qed.

Lemma export_blocks_length (hs : list BeeRegionHeader.t) :
  Forall (fun h => length (BeeProtectRegionBlock.counter (BeeRegionHeader._prdb h))
                   = 16%nat) hs ->
  forall (n : nat) (data : bytes) (base : Z) (acc : bytes) (g : rng)
         (out : bytes) (g' : rng),
    (length data <= n)%nat -> (length data mod 16 = 0)%nat ->
    BeeNxp.export_blocks hs (split_data data 1024) base acc g = Ok (out, g') ->
    length out = (length acc + length data)%nat /\ g' = g.
Proof.
  intros Hc. induction n as [|n IH]; intros data base acc g out g' Hn Hl He.
  - destruct data; [|cbn in Hn; lia]. rewrite split_data_nil in He.
    cbn [BeeNxp.export_blocks] in He. inversion He; subst. cbn [length]. split; [lia | reflexivity].
  - destruct data as [|b data'] eqn:Hd.
    { rewrite split_data_nil in He. cbn [BeeNxp.export_blocks] in He.
      inversion He; subst. cbn [length]. split; [lia | reflexivity]. }
    rewrite <- Hd in *. assert (Hne : data <> []) by (rewrite Hd; discriminate).
    assert (Hpos : (0 < length data)%nat) by (rewrite Hd; cbn; lia).
    rewrite (split_data_cons data Hne) in He. cbn [BeeNxp.export_blocks] in He.
    inv_bind He. destruct a as [d g1].
    apply Nat.Div0.mod_divides in Hl as [q Hq].
    assert (Hb : (length (take 1024 data) mod 16 = 0)%nat).
    { rewrite length_take, Hq.
      destruct (Nat.min_spec 1024 (16 * q)) as [[_ E] | [_ E]]; rewrite E.
      - reflexivity.
      - rewrite Nat.mul_comm. apply Nat.Div0.mod_mul. }
    apply (encrypt_chain_length hs base Hc) in Hstep as [Hd1 ->]; [|exact Hb].
    apply IH in He as [Ho ->].
    + split; [|reflexivity]. rewrite Ho, length_app, Hd1, length_take, length_drop.
      lia.
    + rewrite length_drop. lia.
    + rewrite length_drop, Hq.
      replace (16 * q - 1024)%nat with ((q - 64) * 16)%nat by lia.
      apply Nat.Div0.mod_mul.
Qed.

(** X18 — Exporting an image of whole AES blocks keeps its length.  For
    headers with 16-byte counters and an image whose length is a multiple
    of 16, the image [export_image] returns is as long as the input image,
    and no random byte has been read. *)
Theorem X18_export_image_length (bee : BeeNxp.t) (g g' : rng) (out : bytes) :
  Forall (fun h => length (BeeProtectRegionBlock.counter
                             (BeeNxp.prdb_at (BeeNxp.objects bee) (BeeNxp._prdb h)))
                   = 16%nat) (BeeNxp.headers bee) ->
  (length (BeeNxp.input_image bee) mod 16 = 0)%nat ->
  BeeNxp.export_image bee g = Ok (out, g') ->
  length out = length (BeeNxp.input_image bee) /\ g' = g.
Proof.
  intros Hc Hl He. unfold BeeNxp.export_image in He.
  change (Z.to_nat BEE_ENCR_BLOCK_SIZE) with 1024%nat in He.
  assert (Hc' : Forall (fun h => length (BeeProtectRegionBlock.counter
                                          (BeeRegionHeader._prdb h)) = 16%nat)
                       (map (BeeNxp.deref (BeeNxp.objects bee)) (BeeNxp.headers bee))).
  { apply Forall_fmap. exact Hc. }
  apply (export_blocks_length _ Hc' (length (BeeNxp.input_image bee))) in He;
    [exact He | apply Nat.le_refl | exact Hl].
Qed.

End ExportLength.

(** The 32 bytes of [Toy.bee] lie in the first region: they come back
    encrypted, 32 bytes long. *)
Lemma X18_export_image_length_witness :
  exists out,
    @BeeNxp.export_image Toy.backend Toy.bee Toy.tape1 = Ok (out, Toy.tape1)
    /\ length out = 32%nat /\ out <> BeeNxp.input_image Toy.bee.
Proof.
  destruct (@BeeNxp.export_image Toy.backend Toy.bee Toy.tape1)
    as [[out g']|] eqn:He; [|vm_compute in He; discriminate He].
  destruct (@X18_export_image_length Toy.backend toy_laws Toy.bee Toy.tape1 g' out)
    as [Hlen ->].
  - repeat constructor.
  - reflexivity.
  - exact He.
  - exists out. split; [reflexivity|]. split; [exact Hlen|].
    vm_compute in He. injection He as <-. discriminate.
Defined.

(** ** Exporting the headers *)

Lemma Forall2_impl_elem {A B} (P Q : A -> B -> Prop) (l : list A) (k : list B) :
  Forall2 P l k -> (forall x y, x ∈ l -> P x y -> Q x y) -> Forall2 Q l k.
Proof.
  induction 1 as [|x y l k HP _ IH]; intros HPQ; constructor.
  - apply HPQ; [apply list_elem_of_here | exact HP].
  - apply IH. intros x' y' Hin. apply HPQ. now apply list_elem_of_further.
Qed.

Section ExportHeaders.
Context `{cb : CryptoBackend} {laws : CryptoBackendLaws cb}.

Lemma header_export_updated (p : BeeProtectRegionBlock.t) (k : bytes)
  (kb : BeeKIB.t) :
  BeeRegionHeader.export (BeeRegionHeader.mk (BeeProtectRegionBlock.update p) k kb)
  = BeeRegionHeader.export (BeeRegionHeader.mk p k kb).
Proof.
  unfold BeeRegionHeader.export, BeeRegionHeader.update.
  cbn [BeeRegionHeader._prdb BeeRegionHeader._sw_key BeeRegionHeader._kib].
  now rewrite prdb_update_idem.
Qed.

Lemma export_headers_loop_spec (st0 : BeeNxp.store) (hs : list BeeNxp.header) :
  forall (st : BeeNxp.store) (acc : list bytes),
    (forall r, BeeNxp.prdb_at st r = BeeNxp.prdb_at st0 r
               \/ BeeNxp.prdb_at st r
                  = BeeProtectRegionBlock.update (BeeNxp.prdb_at st0 r)) ->
    Forall (fun h => BeeRegionHeader.validate (BeeNxp.deref st0 h) = Ok tt
                     /\ u32 (BeeProtectRegionBlock.lock_options
                               (BeeNxp.prdb_at st0 (BeeNxp._prdb h)))) hs ->
    exists st' blobs,
      BeeNxp.export_headers_loop st hs acc = Ok (st', acc ++ blobs)
      /\ (forall r, r ∈ map BeeNxp._prdb hs ->
            BeeNxp.prdb_at st' r
            = BeeProtectRegionBlock.update (BeeNxp.prdb_at st0 r))
      /\ (forall r, r ∉ map BeeNxp._prdb hs ->
            BeeNxp.prdb_at st' r = BeeNxp.prdb_at st r)
      /\ Forall2 (fun h b =>
                    length b = 512%nat
                    /\ snd (BeeRegionHeader.export (BeeNxp.deref st0 h)) = Ok b
                    /\ forall g, BeeRegionHeader.parse b 0 (BeeNxp._sw_key h) g
                                 = Ok (BeeRegionHeader.update (BeeNxp.deref st0 h), g))
                 hs blobs.
Proof.
  induction hs as [|h hs IH]; intros st acc Hrel Hv.
  - exists st, []. cbn [BeeNxp.export_headers_loop]. rewrite app_nil_r.
    split; [reflexivity|]. split; [|split; [reflexivity | constructor]].
    intros r Hr. now apply elem_of_nil in Hr.
  - apply Forall_cons in Hv as [[Hvh Hlock] Hv].
    assert (Hvu : BeeRegionHeader.validate
                    (BeeRegionHeader.update (BeeNxp.deref st0 h)) = Ok tt).
    { apply header_validate_Ok in Hvh as (Hk & Hp & Hs).
      apply header_validate_Ok. repeat split; try assumption.
      now apply prdb_validate_update. }
    destruct (header_parse_export (BeeNxp.deref st0 h) (fun _ => x00) Hvu Hlock)
      as (b & He & Hbl & _).
    assert (Hexp : BeeRegionHeader.export (BeeNxp.deref st h)
                   = BeeRegionHeader.export (BeeNxp.deref st0 h)).
    { unfold BeeNxp.deref. destruct (Hrel (BeeNxp._prdb h)) as [-> | ->];
        [reflexivity | apply header_export_updated]. }
    cbn [BeeNxp.export_headers_loop]. rewrite Hexp, He. rewrite bind_Ok_l.
    cbn [BeeRegionHeader.update BeeRegionHeader._prdb BeeNxp.deref].
    set (st1 := BeeNxp.store_set (BeeNxp._prdb h)
                  (BeeProtectRegionBlock.update (BeeNxp.prdb_at st0 (BeeNxp._prdb h)))
                  st).
    assert (Hrel1 : forall r, BeeNxp.prdb_at st1 r = BeeNxp.prdb_at st0 r
                    \/ BeeNxp.prdb_at st1 r
                       = BeeProtectRegionBlock.update (BeeNxp.prdb_at st0 r)).
    { intros r. unfold st1, BeeNxp.store_set. cbn [BeeNxp.prdb_at].
      destruct (Nat.eqb_spec r (BeeNxp._prdb h)) as [-> | _];
        [now right | apply Hrel]. }
    destruct (IH st1 (acc ++ [b]) Hrel1 Hv) as (st' & blobs & Hl & Ha & Hb & HF).
    exists st', (b :: blobs). rewrite Hl, <- app_assoc.
    split; [reflexivity|]. split; [|split].
    + intros r Hr. cbn [map] in Hr.
      destruct (decide (r ∈ map BeeNxp._prdb hs)) as [Hin | Hnin];
        [now apply Ha|].
      apply elem_of_cons in Hr as [-> | Hr]; [|contradiction].
      rewrite (Hb _ Hnin). unfold st1, BeeNxp.store_set. cbn [BeeNxp.prdb_at].
      now rewrite Nat.eqb_refl.
    + intros r Hr. cbn [map] in Hr. apply not_elem_of_cons in Hr as [Hne Hnin].
      rewrite (Hb _ Hnin). unfold st1, BeeNxp.store_set. cbn [BeeNxp.prdb_at].
      destruct (Nat.eqb_spec r (BeeNxp._prdb h)); [contradiction | reflexivity].
    + constructor; [|exact HF]. split; [exact Hbl|]. split; [now rewrite He|].
      intros g.
      destruct (header_parse_export (BeeNxp.deref st0 h) g Hvu Hlock)
        as (b' & He' & _ & Hp').
      rewrite He in He'. injection He' as <-. exact Hp'.
Qed.

(** X19 — [export_headers] on valid headers.  When every header of the
    image object is valid (the lock options are a 32-bit number), the
    export gives one 512-byte encoding per header, in order, each the
    encoding that header gives on its own, also when headers share a PRDB
    object; parsing an encoding with the software key of its header gives
    back that header as the export leaves it. *)
Theorem X19_export_headers (bee : BeeNxp.t) :
  Forall (fun h =>
            BeeRegionHeader.validate (BeeNxp.deref (BeeNxp.objects bee) h) = Ok tt
            /\ u32 (BeeProtectRegionBlock.lock_options
                      (BeeNxp.prdb_at (BeeNxp.objects bee) (BeeNxp._prdb h))))
         (BeeNxp.headers bee) ->
  exists st' blobs,
    BeeNxp.export_headers bee = Ok (st', blobs)
    /\ Forall2 (fun h b =>
                  length b = 512%nat
                  /\ snd (BeeRegionHeader.export
                            (BeeNxp.deref (BeeNxp.objects bee) h)) = Ok b
                  /\ forall g, BeeRegionHeader.parse b 0 (BeeNxp._sw_key h) g
                               = Ok (BeeNxp.deref st' h, g))
               (BeeNxp.headers bee) blobs.
Proof.
  intros Hv.
  destruct (export_headers_loop_spec (BeeNxp.objects bee) (BeeNxp.headers bee)
              (BeeNxp.objects bee) [] (fun r => or_introl eq_refl) Hv)
    as (st' & blobs & Hl & Ha & _ & HF).
  exists st', blobs. split; [exact Hl|].
  apply (Forall2_impl_elem _ _ _ _ HF). intros h b Hh (Hbl & He & Hp).
  split; [exact Hbl|]. split; [exact He|]. intros g. rewrite Hp.
  unfold BeeNxp.deref at 2. rewrite Ha by (apply list_elem_of_fmap; now exists h).
  reflexivity.
Qed.

End ExportHeaders.

(** Two engines that share the PRDB of [Toy.prdb]. *)
Lemma X19_export_headers_witness :
  exists st' blobs,
    @BeeNxp.export_headers Toy.backend
      (BeeNxp.mk (BeeNxp.objects Toy.bee) Toy.headers2 [] 0) = Ok (st', blobs)
    /\ length blobs = 2%nat
    /\ Forall (fun b => length b = 512%nat) blobs.
Proof.
  destruct (@X19_export_headers Toy.backend toy_laws
              (BeeNxp.mk (BeeNxp.objects Toy.bee) Toy.headers2 [] 0))
    as (st' & blobs & He & HF).
  - repeat constructor; try (vm_compute; reflexivity); vm_compute; discriminate.
  - exists st', blobs. split; [exact He|]. split.
    + apply Forall2_length in HF. now rewrite <- HF.
    + clear He. induction HF as [|h b hs bs (Hl & _) _ IH]; constructor; assumption.
Defined.

Section SharedEngines.
Context `{cb : CryptoBackend} {laws : CryptoBackendLaws cb}.

(** X20 — Engines that hold the same PRDB encrypt a block one after the
    other.  For headers with 16-byte keys that all hold one valid PRDB
    with derived addresses, a block of whole AES blocks that starts in a
    region of the PRDB and ends within it is encrypted by [encrypt_chain]
    once per header, in the order of the headers, each time under that
    header's key and the same counter value; no random byte is read. *)
Theorem X20_shared_prdb_chain (p : BeeProtectRegionBlock.t)
  (hs : list BeeRegionHeader.t) (start_addr : Z) (data : bytes) (g : rng)
  (fac : BeeFacRegion.t) (pre post : list BeeFacRegion.t) :
  BeeProtectRegionBlock.validate p = Ok tt -> derived_addresses p ->
  Forall (fun h => BeeRegionHeader._prdb h = p
                   /\ length (BeeRegionHeader._sw_key h) = 16%nat) hs ->
  (length data <= 1024)%nat -> (length data mod 16 = 0)%nat ->
  BeeProtectRegionBlock.fac_regions p = pre ++ fac :: post ->
  Forall (fun f => ~ in_region start_addr f) pre ->
  in_region start_addr fac ->
  start_addr + Z.of_nat (length data) <= BeeFacRegion.end_addr fac ->
  BeeNxp.encrypt_chain hs start_addr data g
  = Ok (fold_left
          (fun d h =>
             aes_ctr_encrypt (BeeRegionHeader._sw_key h) d
               (Counter_value (BeeProtectRegionBlock.counter p)
                              (Z.shiftr start_addr 4) BigEndian))
          hs data, g).
Proof.
  intros Hv Hd Hhs Hl Hal Hf Hpre Hin Hend.
  apply prdb_validate_Ok in Hv as [_ _ Hm Hc _ _ _].
  revert data Hl Hal Hend.
  induction Hhs as [|h hs [Hp Hk] _ IH]; intros data Hl Hal Hend;
    cbn [BeeNxp.encrypt_chain fold_left]; [reflexivity|].
  unfold BeeRegionHeader.encrypt_block. rewrite Hp.
  rewrite (encrypt_block_in_region p (BeeRegionHeader._sw_key h) start_addr data g
             fac pre post) by assumption.
  replace (start_addr + Z.of_nat (length data) >? BeeFacRegion.end_addr fac)
    with false by lia.
  rewrite raise_if_false, bind_Ok_l, align_block_aligned by exact Hal.
  rewrite bind_Ok_l.
  assert (Hlen : length (aes_ctr_encrypt (BeeRegionHeader._sw_key h) data
                           (Counter_value (BeeProtectRegionBlock.counter p)
                                          (Z.shiftr start_addr 4) BigEndian))
                 = length data).
  { apply ctr_encrypt_length; [exact Hk | now apply Counter_value_length]. }
  apply IH; rewrite Hlen; assumption.
Qed.

End SharedEngines.

(** The two engines of [Toy.headers2] over [Toy.prdb], on 32 bytes at
    0x1000: the block is encrypted under the first key and then under the
    second. *)
Lemma X20_shared_prdb_chain_witness :
  @BeeNxp.encrypt_chain Toy.backend
    (map (BeeNxp.deref (BeeNxp.objects Toy.bee)) Toy.headers2) 0x1000
    (replicate 32 x01) Toy.tape1
  = Ok (@aes_ctr_encrypt Toy.backend (reverse Toy.key16)
          (@aes_ctr_encrypt Toy.backend Toy.key16 (replicate 32 x01)
             (Counter_value Toy.counter16 0x100 BigEndian))
          (Counter_value Toy.counter16 0x100 BigEndian), Toy.tape1).
Proof.
  apply (@X20_shared_prdb_chain Toy.backend toy_laws Toy.prdb
           (map (BeeNxp.deref (BeeNxp.objects Toy.bee)) Toy.headers2) 0x1000
           (replicate 32 x01) Toy.tape1 Toy.fac1 [] [Toy.fac2]).
  - reflexivity.
  - apply toy_prdb_derived.
  - repeat constructor.
  - rewrite length_replicate. lia.
  - reflexivity.
  - reflexivity.
  - constructor.
  - unfold in_region, BeeFacRegion.end_addr, Toy.fac1.
    cbn [BeeFacRegion.start_addr BeeFacRegion.length]. lia.
  - rewrite length_replicate. unfold BeeFacRegion.end_addr, Toy.fac1.
    cbn [BeeFacRegion.start_addr BeeFacRegion.length]. lia.
Defined.

Section NoRegions.
Context `{cb : CryptoBackend}.

(** X21 — A PRDB without regions.  As constructed, its span is the whole
    32-bit range: at an address in the range [encrypt_block] still checks
    the mode and the key and rejects a key that is not 16 bytes long, and
    returns the block unchanged under a 16-byte key.  Once updated, the
    span of a PRDB without regions is empty, and every block of at most
    1024 bytes comes back unchanged, whatever the key and the mode. *)
Theorem X21_no_regions (encr_mode lock_options : Z) (counter : option bytes)
  (g0 : rng) (key : bytes) (start_addr : Z) (data : bytes) (g : rng) :
  (length data <= 1024)%nat ->
  let p := fst (BeeProtectRegionBlock.init encr_mode lock_options counter g0) in
  (0 <= start_addr < 0xFFFFFFFF -> encr_mode = BeeProtectRegionBlockAesMode.CTR ->
   BeeProtectRegionBlock.encrypt_block p key start_addr data g
   = if (length key =? 16)%nat then Ok (data, g)
     else Err (SPSDKError "Invalid length of key"))
  /\ BeeProtectRegionBlock.encrypt_block (BeeProtectRegionBlock.update p) key
       start_addr data g = Ok (data, g).
Proof.
  intros Hl p.
  assert (Hp : BeeProtectRegionBlock.fac_regions p = []
               /\ BeeProtectRegionBlock._start_addr p = 0
               /\ BeeProtectRegionBlock._end_addr p = 0xFFFFFFFF
               /\ BeeProtectRegionBlock.mode p = encr_mode).
  { unfold p, BeeProtectRegionBlock.init.
    destruct (truthy counter); [|destruct (random_bytes 12 g0)];
      repeat split; reflexivity. }
  destruct Hp as (Hf & Hs & He & Hm). split.
  - intros Ha ->. unfold BeeProtectRegionBlock.encrypt_block.
    rewrite length_check_Ok, bind_Ok_l by exact Hl.
    unfold BeeProtectRegionBlock.is_inside_region. rewrite Hs, He, Hm, Hf.
    replace ((0 <=? start_addr) && (start_addr <? 0xFFFFFFFF)) with true by lia.
    rewrite Z.eqb_refl. cbn [negb]. rewrite raise_if_false, bind_Ok_l.
    destruct (length key =? 16)%nat; reflexivity.
  - unfold BeeProtectRegionBlock.encrypt_block.
    rewrite length_check_Ok, bind_Ok_l by exact Hl.
    unfold BeeProtectRegionBlock.is_inside_region, BeeProtectRegionBlock.update,
      BeeProtectRegionBlock.fac_count.
    cbn [BeeProtectRegionBlock._start_addr BeeProtectRegionBlock._end_addr].
    rewrite Hf. cbn [length Nat.eqb fold_left].
    replace ((0 <=? start_addr) && (start_addr <? 0)) with false by lia.
    reflexivity.
Qed.

End NoRegions.

(** A 15-byte key on the PRDB as constructed, and on the same PRDB after
    [update]. *)
Lemma X21_no_regions_witness :
  @BeeProtectRegionBlock.encrypt_block Toy.backend
    (fst (BeeProtectRegionBlock.init BeeProtectRegionBlockAesMode.CTR 0 None Toy.tape0))
    (take 15 Toy.key16) 0x1000 [x01; x02] Toy.tape1
  = Err (SPSDKError "Invalid length of key")
  /\ @BeeProtectRegionBlock.encrypt_block Toy.backend
       (BeeProtectRegionBlock.update
          (fst (BeeProtectRegionBlock.init BeeProtectRegionBlockAesMode.CTR 0 None
                  Toy.tape0)))
       (take 15 Toy.key16) 0x1000 [x01; x02] Toy.tape1
     = Ok ([x01; x02], Toy.tape1).
Proof.
  destruct (@X21_no_regions Toy.backend BeeProtectRegionBlockAesMode.CTR 0 None
              Toy.tape0 (take 15 Toy.key16) 0x1000 [x01; x02] Toy.tape1)
    as [H1 H2].
  - cbn [length]. lia.
  - split; [|exact H2]. apply H1; [lia | reflexivity].
Defined.

(** ** The errors of the parsers *)

Lemma fac_validate_spsdk (fac : BeeFacRegion.t) (e : exn) :
  BeeFacRegion.validate fac = Err e -> exists m, e = SPSDKError m.
Proof. unfold BeeFacRegion.validate. spsdk_cases. Qed.

Lemma fac_parse_spsdk (data : bytes) (offset : nat) (e : exn) :
  BeeFacRegion.parse data offset = Err e ->
  exists m, e = SPSDKError m
    /\ ((length data < offset + 32)%nat -> m = "Insufficient size of the data"%string).
Proof.
  unfold BeeFacRegion.parse, BeeBaseClass_parse, unpack_from.
  change BeeFacRegion._size with 32%nat.
  change (calcsize BeeFacRegion._FORMAT) with 32%nat.
  destruct (Z.ltb_spec (Z.of_nat (length data) - Z.of_nat offset) (Z.of_nat 32))
    as [Hlt | Hge]; cbn [raise_if].
  - inversion 1. now eexists.
  - rewrite !bind_Ok_l.
    cbn [BeeFacRegion._FORMAT items order unpack_items]. cbv beta iota.
    intros H.
    assert (Hm : exists m, e = SPSDKError m).
    { revert H. unfold BeeFacRegion.init.
      destruct (BeeFacRegion.validate _) as [[]|e2] eqn:E2.
      - spsdk_cases.
      - apply fac_validate_spsdk in E2 as [m ->]. spsdk_cases. }
    destruct Hm as [m ->]. exists m. split; [reflexivity | lia].
Qed.

Lemma kib_parse_spsdk (data : bytes) (offset : nat) (g : rng) (e : exn) :
  BeeKIB.parse data offset g = Err e ->
  exists m, e = SPSDKError m
    /\ ((length data < offset + 32)%nat -> m = "Insufficient size of the data"%string).
Proof.
  unfold BeeKIB.parse, BeeBaseClass_parse, unpack_from.
  change BeeKIB._size with 32%nat.
  change (calcsize BeeKIB._FORMAT) with 32%nat.
  destruct (Z.ltb_spec (Z.of_nat (length data) - Z.of_nat offset) (Z.of_nat 32))
    as [Hlt | Hge]; cbn [raise_if].
  - inversion 1. now eexists.
  - rewrite !bind_Ok_l.
    cbn [BeeKIB._FORMAT items order unpack_items]. cbv beta iota.
    intros H.
    assert (Hm : exists m, e = SPSDKError m).
    { revert H. destruct (BeeKIB.init _ _ g) as [res g1].
      unfold BeeKIB.validate. spsdk_cases. }
    destruct Hm as [m ->]. exists m. split; [reflexivity | lia].
Qed.

Lemma validate_facs_spsdk (facs : list BeeFacRegion.t) (e : exn) :
  BeeProtectRegionBlock.validate_facs facs = Err e -> exists m, e = SPSDKError m.
Proof.
  induction facs as [|f facs IH]; cbn [BeeProtectRegionBlock.validate_facs];
    [discriminate|].
  destruct (BeeFacRegion.validate f) as [[]|e1] eqn:E1.
  - rewrite bind_Ok_l. exact IH.
  - inversion 1; subst. exact (fac_validate_spsdk _ _ E1).
Qed.

Lemma prdb_validate_spsdk (p : BeeProtectRegionBlock.t) (e : exn) :
  BeeProtectRegionBlock.validate p = Err e -> exists m, e = SPSDKError m.
Proof.
  unfold BeeProtectRegionBlock.validate.
  destruct (BeeProtectRegionBlock.validate_facs _) as [[]|e1] eqn:E1.
  - spsdk_cases.
  - apply validate_facs_spsdk in E1 as [m ->]. spsdk_cases.
Qed.

Lemma parse_facs_spsdk (n : nat) (data : bytes) :
  forall (offset : nat) (res : BeeProtectRegionBlock.t) (e : exn),
    BeeProtectRegionBlock.parse_facs n data offset res = Err e ->
    exists m, e = SPSDKError m.
Proof.
  induction n as [|n IH]; intros offset res e; cbn [BeeProtectRegionBlock.parse_facs];
    [discriminate|].
  destruct (BeeFacRegion.parse data offset) as [fac|e1] eqn:E1.
  - rewrite bind_Ok_l. apply IH.
  - inversion 1; subst. apply fac_parse_spsdk in E1 as (m & -> & _). now exists m.
Qed.

Lemma prdb_parse_spsdk (data : bytes) (offset : nat) (g : rng) (e : exn) :
  BeeProtectRegionBlock.parse data offset g = Err e ->
  exists m, e = SPSDKError m
    /\ ((length data < offset + 256)%nat -> m = "Insufficient size of the data"%string).
Proof.
  unfold BeeProtectRegionBlock.parse, BeeBaseClass_parse, unpack_from.
  change BeeProtectRegionBlock._size with 256%nat.
  change (calcsize BeeProtectRegionBlock._FORMAT) with 80%nat.
  destruct (Z.ltb_spec (Z.of_nat (length data) - Z.of_nat offset) (Z.of_nat 256))
    as [Hlt | Hge]; cbn [raise_if].
  - inversion 1. now eexists.
  - rewrite !bind_Ok_l.
    destruct (Z.ltb_spec (Z.of_nat (length data) - Z.of_nat offset) (Z.of_nat 80));
      [lia|].
    rewrite !bind_Ok_l.
    cbn [BeeProtectRegionBlock._FORMAT items order unpack_items]. cbv beta iota.
    intros Hp.
    assert (Hm : exists m, e = SPSDKError m).
    { revert Hp. destruct (BeeProtectRegionBlock.init _ _ _ g) as [res g1].
      spsdk_ifs; try (inversion 1; eauto; fail).
      destruct (BeeProtectRegionBlock.parse_facs _ _ _ _) as [res'|e1] eqn:E1;
        cbn [mbind result_bind].
      - destruct (BeeProtectRegionBlock.validate res') as [[]|e2] eqn:E2;
          cbn [mbind result_bind]; [discriminate|].
        apply prdb_validate_spsdk in E2 as [m ->]. inversion 1. eauto.
      - apply parse_facs_spsdk in E1 as [m ->]. inversion 1. eauto. }
    destruct Hm as [m ->]. exists m. split; [reflexivity | lia].
Qed.

Section ParseErrors.
Context `{cb : CryptoBackend}.

Lemma header_parse_spsdk (data : bytes) (offset : nat) (sw_key : bytes) (g : rng)
  (e : exn) :
  BeeRegionHeader.parse data offset sw_key g = Err e -> exists m, e = SPSDKError m.
Proof.
  unfold BeeRegionHeader.parse, BeeBaseClass_parse.
  spsdk_ifs; try (inversion 1; eauto; fail).
  destruct (BeeKIB.parse _ 0 g) as [[kib g1]|e1] eqn:E1; cbn [mbind result_bind].
  2:{ apply kib_parse_spsdk in E1 as (m & -> & _). inversion 1. eauto. }
  destruct (BeeProtectRegionBlock.parse _ 0 g1) as [[prdb g2]|e2] eqn:E2;
    cbn [mbind result_bind].
  2:{ apply prdb_parse_spsdk in E2 as (m & -> & _). inversion 1. eauto. }
  cbn [BeeRegionHeader.init]. unfold BeeRegionHeader.validate.
  cbn [BeeRegionHeader._kib BeeRegionHeader._prdb BeeRegionHeader._sw_key].
  unfold BeeKIB.validate.
  destruct (BeeProtectRegionBlock.validate prdb) as [[]|e3] eqn:E3;
    [|apply prdb_validate_spsdk in E3 as [m ->]]; spsdk_cases.
Qed.


End ParseErrors.

